(** * BabChess search core: a shallow embedding of [src/engine.cpp]

    The sources hold two revisions of [engine.cpp].  The development follows
    the later one (transposition table, [NodeType], [MovePicker]), which the
    specification names as the reference; the single place where the earlier
    revision matters to the specification (the draw return) is kept in
    [Module Revision1].

    [engine.cpp] is written against collaborators that live in other files
    ([Position], [MovePicker], [TranspositionTable], [evaluate], the score
    constants).  They are taken as an interface, [Externals]; the search
    kernel, the iterative-deepening driver and the facade are translated from
    the source on top of it. *)

From Stdlib Require Import ZArith List Bool Lia.
Import ListNotations.
Local Open Scope Z_scope.

(** ** Plain data *)

Inductive Side := WHITE | BLACK.

(** [operator~] on [Side]. *)
Definition flip (s : Side) : Side :=
  match s with WHITE => BLACK | BLACK => WHITE end.

Inductive NodeType := Root | PV | NonPV.

(** [constexpr bool PvNode = (NT != NodeType::NonPV)] *)
Definition PvNode (NT : NodeType) : bool :=
  match NT with NonPV => false | _ => true end.

(** [constexpr bool RootNode = (NT == NodeType::Root)] *)
Definition RootNode (NT : NodeType) : bool :=
  match NT with Root => true | _ => false end.

Inductive Bound := BOUND_NONE | BOUND_UPPER | BOUND_LOWER | BOUND_EXACT.

Inductive MovePickerType := MAIN | QUIESCENCE.

(** Modelled from the spec: [SCORE_DRAW = 0] (the constant is declared in a
    header that is not part of the sources). *)
Definition SCORE_DRAW : Z := 0.

(** What an [int64_t] holds of [z]: 64-bit two's complement, wrapping
    around. *)
Definition int64 (z : Z) : Z := (z + 2 ^ 63) mod 2 ^ 64 - 2 ^ 63.

(** [z] is the value of an [int64_t]. *)
Definition fits64 (z : Z) : Prop := - 2 ^ 63 <= z < 2 ^ 63.

(** ** The collaborators of [engine.cpp]

    Everything the file uses but does not define.  [tt_get] returns the hit
    flag and a pointer to a slot of the table; the entry accessors read
    through that pointer, so they take the table as well. [mp_moves k Me pos
    ttMove] is the sequence a [MovePicker<k, Me>] built on [pos] with hint
    [ttMove] hands to its callback.  [uninitialised] stands for the value of
    a [Score] local that is read before being assigned. *)
Class Externals := {
  Position : Type;
  Move : Type;
  TranspositionTable : Type;
  TTEntryPtr : Type;
  MOVE_NONE : Move;
  Move_eqb : Move -> Move -> bool;
  SCORE_INFINITE : Z;
  SCORE_MATE : Z;
  SCORE_NONE : Z;
  MAX_PLY : Z;
  uninitialised : Z;
  getSideToMove : Position -> Side;
  inCheck : Position -> bool;
  isFiftyMoveDraw : Position -> bool;
  isMaterialDraw : Position -> bool;
  isRepetitionDraw : Position -> bool;
  hash : Position -> Z;
  doMove : Position -> Move -> Position;
  undoMove : Position -> Move -> Position;
  evaluate : Side -> Position -> Z;
  mp_moves : MovePickerType -> Side -> Position -> Move -> list Move;
  tt_get : TranspositionTable -> Z -> bool * TTEntryPtr;
  tte_depth : TranspositionTable -> TTEntryPtr -> Z;
  tte_score : TranspositionTable -> TTEntryPtr -> Z -> Z;
  tte_boundMatch : TranspositionTable -> TTEntryPtr -> Z -> Z -> Z -> bool;
  tte_move : TranspositionTable -> TTEntryPtr -> Move;
  tt_set : TranspositionTable -> TTEntryPtr -> Z -> Z -> Z -> Bound ->
           Move -> Z -> Z -> bool -> TranspositionTable;
  tt_clear : TranspositionTable -> TranspositionTable;
  tt_usage : TranspositionTable -> Z
}.

(** ** A state monad with failure

    [None] is only ever produced by a recursion that ran out of fuel. *)
Definition M (S A : Type) : Type := S -> option (A * S).

Definition ret {S A} (a : A) : M S A := fun s => Some (a, s).

Definition bind {S A B} (m : M S A) (k : A -> M S B) : M S B :=
  fun s => match m s with
           | Some (a, s') => k a s'
           | None => None
           end.

Definition fail {S A} : M S A := fun _ => None.

Declare Scope kernel_scope.
Delimit Scope kernel_scope with kernel.
Notation "x <- m ;; k" := (bind m (fun x => k))
  (at level 61, m at next level, right associativity) : kernel_scope.
Notation "' p <- m ;; k" := (bind m (fun x => match x with p => k end))
  (at level 61, p pattern, m at next level, right associativity) : kernel_scope.
Notation "m ;;; k" := (bind m (fun _ => k))
  (at level 61, right associativity) : kernel_scope.
Local Open Scope kernel_scope.

Section Engine.

Context {X : Externals}.

(** ** Structs of [engine.h] as the source uses them *)

Record SearchLimits := {
  timeLeft : Side -> Z;
  increment : Side -> Z;
  movesToGo : Z;
  maxDepth : Z;
  maxNodes : Z;
  searchMoves : list Move
}.

Record SearchData := {
  position : Position;
  limits : SearchLimits;
  nbNodes : Z;
  startTime : Z;
  allocatedTime : Z
}.

Record SearchEvent := {
  ev_depth : Z;
  ev_pv : list Move;
  ev_bestScore : Z;
  ev_nbNodes : Z;
  ev_elapsed : Z;
  ev_hashfull : Z
}.

(** The members of [Engine] that [engine.cpp] reads or writes. *)
Record Engine := {
  rootPosition : Position;
  tt : TranspositionTable;
  aborted : bool;
  searching : bool
}.

(** A call of one of the two event sinks, with the value of [searching] at
    the moment of the call (what [isSearching()] answers inside the sink). *)
Inductive Sink := OnSearchProgress | OnSearchFinish.

Record Emitted := {
  sink : Sink;
  event : SearchEvent;
  whileSearching : bool
}.

(** ** The worker's world

    The worker owns a copy [sd] of the search data and shares [eng] with the
    caller.  Two things reach it from outside: the wall clock, and a
    [stop()] issued by another thread.  Both are oracles indexed by the
    number of observations the worker has made so far: [clock k] is what
    [now()] answers at observation [k], [extStop k] tells whether a foreign
    [stop()] has landed by then. *)
Record Ctx := {
  eng : Engine;
  sd : SearchData;
  clock : nat -> Z;
  extStop : nat -> bool;
  tick : nat;
  out : list Emitted
}.

Definition K (A : Type) : Type := M Ctx A.

Definition with_eng (f : Engine -> Engine) (c : Ctx) : Ctx :=
  {| eng := f (eng c); sd := sd c; clock := clock c; extStop := extStop c;
     tick := tick c; out := out c |}.

Definition with_sd (f : SearchData -> SearchData) (c : Ctx) : Ctx :=
  {| eng := eng c; sd := f (sd c); clock := clock c; extStop := extStop c;
     tick := tick c; out := out c |}.

Definition observed (c : Ctx) : Ctx :=
  {| eng := eng c; sd := sd c; clock := clock c; extStop := extStop c;
     tick := S (tick c); out := out c |}.

Definition emitted (e : Emitted) (c : Ctx) : Ctx :=
  {| eng := eng c; sd := sd c; clock := clock c; extStop := extStop c;
     tick := tick c; out := out c ++ [e] |}.

Definition set_aborted (b : bool) (e : Engine) : Engine :=
  {| rootPosition := rootPosition e; tt := tt e; aborted := b;
     searching := searching e |}.

Definition set_searching (b : bool) (e : Engine) : Engine :=
  {| rootPosition := rootPosition e; tt := tt e; aborted := aborted e;
     searching := b |}.

Definition set_tt (t : TranspositionTable) (e : Engine) : Engine :=
  {| rootPosition := rootPosition e; tt := t; aborted := aborted e;
     searching := searching e |}.

Definition set_position (p : Position) (d : SearchData) : SearchData :=
  {| position := p; limits := limits d; nbNodes := nbNodes d;
     startTime := startTime d; allocatedTime := allocatedTime d |}.

Definition set_nbNodes (n : Z) (d : SearchData) : SearchData :=
  {| position := position d; limits := limits d; nbNodes := n;
     startTime := startTime d; allocatedTime := allocatedTime d |}.

(** *** Primitive actions *)

Definition get : K Ctx := fun c => Some (c, c).

Definition modify (f : Ctx -> Ctx) : K unit :=
  fun c => Some (Datatypes.tt, f c).

(** [now()] *)
Definition now : K Z := fun c => Some (clock c (tick c), observed c).

(** [Engine::stop()]: [aborted = true]. *)
Definition stop : K unit := modify (with_eng (set_aborted true)).

(** [searchAborted()]: reads the shared flag; a foreign [stop()] that has
    landed since the last observation is visible from here on. *)
Definition searchAborted : K bool := fun c =>
  let a := aborted (eng c) || extStop c (tick c) in
  Some (a, observed (with_eng (set_aborted a) c)).

(** [sd.getElapsed()] *)
Definition getElapsed : K Z :=
  t <- now ;; c <- get ;; ret (t - startTime (sd c)).

(** Modelled from the spec: [SearchData::shouldStop()] is declared in
    [engine.h], which is not part of the sources.  Section 4.7: true when
    [maxNodes > 0] and [nbNodes >= maxNodes], or when the elapsed time has
    reached a non-zero [allocatedTime]. *)
Definition shouldStop : K bool :=
  c <- get ;;
  elapsed <- getElapsed ;;
  let d := sd c in
  ret (((0 <? maxNodes (limits d)) && (maxNodes (limits d) <=? nbNodes d))
       || ((0 <? allocatedTime d) && (allocatedTime d <=? elapsed))).

(** ** Search kernel *)

(** [updatePv]: [pv.clear(); pv.push_back(move); pv.insert(childPv...)]. *)
Definition updatePv (move : Move) (childPv : list Move) : list Move :=
  move :: childPv.

(** [MoveList::contains] *)
Definition contains (l : list Move) (m : Move) : bool :=
  existsb (Move_eqb m) l.

Definition isDraw (pos : Position) : bool :=
  isFiftyMoveDraw pos || isMaterialDraw pos || isRepetitionDraw pos.

(** The locals a move-loop lambda captures by reference and mutates. *)
Record LoopVars := {
  l_nbMoves : Z;
  l_bestScore : Z;
  l_bestMove : Move;
  l_alpha : Z;
  l_pv : list Move;
  l_childPv : list Move
}.

(** Modelled from the spec: [MovePicker::enumerate] ([movepicker.h] is not
    part of the sources).  The picker hands its moves to the callback in
    order and stops as soon as the callback answers [false]. *)
Fixpoint enumerate (moves : list Move)
    (callback : Move -> LoopVars -> K (bool * LoopVars))
    (lv : LoopVars) : K LoopVars :=
  match moves with
  | [] => ret lv
  | move :: rest =>
      '(continue, lv') <- callback move lv ;;
      if continue then enumerate rest callback lv' else ret lv'
  end.

(** The tail of both lambdas, from [if (score > bestScore)] on: the answer
    is the lambda's return value ([false] breaks the enumeration). *)
Definition adopt (move : Move) (score beta : Z) (lv : LoopVars)
  : bool * LoopVars :=
  if score >? l_bestScore lv then
    let bestScore := score in
    if bestScore >? l_alpha lv then
      let lv' := {| l_nbMoves := l_nbMoves lv; l_bestScore := bestScore;
                    l_bestMove := move; l_alpha := bestScore;
                    l_pv := updatePv move (l_childPv lv);
                    l_childPv := l_childPv lv |} in
      if l_alpha lv' >=? beta then (false, lv') else (true, lv')
    else
      (true, {| l_nbMoves := l_nbMoves lv; l_bestScore := bestScore;
                l_bestMove := l_bestMove lv; l_alpha := l_alpha lv;
                l_pv := l_pv lv; l_childPv := l_childPv lv |})
  else (true, lv).

Definition counted (childPv : list Move) (lv : LoopVars) : LoopVars :=
  {| l_nbMoves := l_nbMoves lv + 1; l_bestScore := l_bestScore lv;
     l_bestMove := l_bestMove lv; l_alpha := l_alpha lv;
     l_pv := l_pv lv; l_childPv := childPv |}.

(** [nbNodes++] *)
Definition countNode : K unit :=
  modify (with_sd (fun d => set_nbNodes (nbNodes d + 1) d)).

(** [(pos.*doMove)(move)] and [(pos.*undoMove)(move)] on [sd.position]. *)
Definition makeMove (move : Move) : K unit :=
  modify (with_sd (fun d => set_position (doMove (position d) move) d)).

Definition unmakeMove (move : Move) : K unit :=
  modify (with_sd (fun d => set_position (undoMove (position d) move) d)).

(** *** Quiescence search *)

Section QSearch.

(** [qSearch<~Me>], the recursive call. *)
Variable rec : Z -> Z -> Z -> Z -> list Move -> K (Z * list Move).

Definition qCallback (beta depth ply : Z) (move : Move) (lv : LoopVars)
  : K (bool * LoopVars) :=
  countNode ;;;
  makeMove move ;;;
  '(s, childPv) <-
     rec (- beta) (- l_alpha lv) (depth - 1) (ply + 1) (l_childPv lv) ;;
  let score := - s in
  unmakeMove move ;;;
  let lv := counted childPv lv in
  ab <- searchAborted ;;
  if ab then ret (false, lv) else ret (adopt move score beta lv).

(** The start of [qSearch]: [shouldStop()] then [searchAborted()]. *)
Definition qAbortCheck : K bool :=
  s <- shouldStop ;;
  (if s then stop else ret Datatypes.tt) ;;;
  searchAborted.

Definition qLoop (Me : Side) (alpha beta depth ply bestScore : Z)
    (ttHit : bool) (tte : TTEntryPtr) : K LoopVars :=
  c <- get ;;
  let ttMove := if ttHit then tte_move (tt (eng c)) tte else MOVE_NONE in
  enumerate (mp_moves QUIESCENCE Me (position (sd c)) ttMove)
            (qCallback beta depth ply)
            {| l_nbMoves := 0; l_bestScore := bestScore;
               l_bestMove := MOVE_NONE; l_alpha := alpha;
               l_pv := []; l_childPv := [] |}.

Definition qBound (bestScore alphaOrig beta : Z) : Bound :=
  if bestScore >=? beta then BOUND_LOWER
  else if bestScore <=? alphaOrig then BOUND_UPPER
  else BOUND_EXACT.

(** From the table probe to the end of [qSearch]. *)
Definition qMoves (Me : Side) (alpha beta depth ply bestScore : Z)
    (alphaOrig eval : Z) (inChk : bool) : K (Z * list Move) :=
  c <- get ;;
  let '(ttHit, tte) := tt_get (tt (eng c)) (hash (position (sd c))) in
  lv <- qLoop Me alpha beta depth ply bestScore ttHit tte ;;
  ab <- searchAborted ;;
  if ab then ret (l_bestScore lv, l_pv lv) else
  let ttBound := qBound (l_bestScore lv) alphaOrig beta in
  modify (fun c' => with_eng (set_tt
    (tt_set (tt (eng c')) tte (hash (position (sd c')))
            (if inChk then 1 else 0) ply ttBound (l_bestMove lv) eval
            (l_bestScore lv) false)) c') ;;;
  ret (l_bestScore lv, l_pv lv).

Definition qBody (Me : Side) (alpha beta depth ply : Z) (pv : list Move)
  : K (Z * list Move) :=
  let pv : list Move := [] in
  stopped <- qAbortCheck ;;
  if stopped then ret (- SCORE_INFINITE, pv) else
  let bestScore := - SCORE_MATE + ply in
  let alphaOrig := alpha in
  c <- get ;;
  let pos := position (sd c) in
  if isDraw pos then ret (SCORE_DRAW, pv) else
  if ply >=? MAX_PLY then ret (evaluate Me pos, pv) else
  let inChk := inCheck pos in
  if negb inChk then
    let eval := evaluate Me pos in
    if eval >=? beta then ret (eval, pv) else
    let alpha := if eval >? alpha then eval else alpha in
    let bestScore := eval in
    qMoves Me alpha beta depth ply bestScore alphaOrig eval inChk
  else
    qMoves Me alpha beta depth ply bestScore alphaOrig SCORE_NONE inChk.

End QSearch.

Fixpoint qSearch (fuel : nat) (Me : Side) (alpha beta depth ply : Z)
    (pv : list Move) {struct fuel} : K (Z * list Move) :=
  match fuel with
  | O => fail
  | S fuel' => qBody (qSearch fuel' (flip Me)) Me alpha beta depth ply pv
  end.

(** *** Principal-variation search *)

(** The two searches of a child ([Score score; if ... if ...]).  It only
    threads the state through the recursive calls, so it is stated for any
    state type [S]. *)
Definition pvsChild {S : Type}
    (rec : NodeType -> Z -> Z -> Z -> Z -> list Move -> M S (Z * list Move))
    (NT : NodeType) (nbMoves alpha beta depth ply : Z) (childPv : list Move)
  : M S (Z * list Move) :=
  '(score, childPv) <-
     (if negb (PvNode NT) || (nbMoves >? 1) then
        '(s, childPv) <-
           rec NonPV (- alpha - 1) (- alpha) (depth - 1) (ply + 1) childPv ;;
        ret (- s, childPv)
      else ret (uninitialised, childPv)) ;;
  if PvNode NT && ((nbMoves =? 1)
                   || ((score >? alpha) && (RootNode NT || (score <? beta))))
  then
    '(s, childPv) <-
       rec PV (- beta) (- alpha) (depth - 1) (ply + 1) childPv ;;
    ret (- s, childPv)
  else ret (score, childPv).

Section PvSearch.

(** [qSearch<Me>] and [pvSearch<~Me, .>], the two calls [pvSearch] makes. *)
Variable qrec : Z -> Z -> Z -> Z -> list Move -> K (Z * list Move).
Variable rec : NodeType -> Z -> Z -> Z -> Z -> list Move -> K (Z * list Move).

(** [RootNode && sd.limits.searchMoves.size() > 0
     && !sd.limits.searchMoves.contains(move)] *)
Definition skipped (NT : NodeType) (lims : SearchLimits) (move : Move) : bool :=
  RootNode NT && (0 <? Z.of_nat (length (searchMoves lims)))
  && negb (contains (searchMoves lims) move).

Definition pvCallback (NT : NodeType) (beta depth ply : Z) (move : Move)
    (lv : LoopVars) : K (bool * LoopVars) :=
  c <- get ;;
  if skipped NT (limits (sd c)) move then ret (true, lv) else
  let nbMoves := l_nbMoves lv + 1 in
  countNode ;;;
  makeMove move ;;;
  '(score, childPv) <-
     pvsChild rec NT nbMoves (l_alpha lv) beta depth ply (l_childPv lv) ;;
  unmakeMove move ;;;
  let lv := counted childPv lv in
  ab <- searchAborted ;;
  if ab then ret (false, lv) else ret (adopt move score beta lv).

(** The two guarded statements that open [pvSearch] after [pv.clear()]. *)
Definition pvAbortCheck (NT : NodeType) : K bool :=
  (if negb (RootNode NT) then
     s <- shouldStop ;; if s then stop else ret Datatypes.tt
   else ret Datatypes.tt) ;;;
  if negb (RootNode NT) then searchAborted else ret false.

(** [!PvNode && ttHit && tte->depth() >= depth
     && tte->score(ply) != SCORE_NONE && tte->boundMatch(alpha, beta, ply)] *)
Definition ttCutoff (NT : NodeType) (t : TranspositionTable) (ttHit : bool)
    (tte : TTEntryPtr) (alpha beta depth ply : Z) : bool :=
  negb (PvNode NT) && ttHit && (tte_depth t tte >=? depth)
  && negb (tte_score t tte ply =? SCORE_NONE)
  && tte_boundMatch t tte alpha beta ply.

Definition pvLoop (Me : Side) (NT : NodeType) (alpha beta depth ply : Z)
    (ttHit : bool) (tte : TTEntryPtr) : K LoopVars :=
  c <- get ;;
  let ttMove := if ttHit then tte_move (tt (eng c)) tte else MOVE_NONE in
  enumerate (mp_moves MAIN Me (position (sd c)) ttMove)
            (pvCallback NT beta depth ply)
            {| l_nbMoves := 0; l_bestScore := - SCORE_INFINITE;
               l_bestMove := MOVE_NONE; l_alpha := alpha;
               l_pv := []; l_childPv := [] |}.

Definition pvBound (NT : NodeType) (bestScore alphaOrig beta : Z) : Bound :=
  if bestScore >=? beta then BOUND_LOWER
  else if negb (PvNode NT) || (bestScore <=? alphaOrig) then BOUND_UPPER
  else BOUND_EXACT.

(** From the move loop to the end of [pvSearch]. *)
Definition pvMoves (Me : Side) (NT : NodeType) (alpha beta depth ply : Z)
    (inChk ttHit : bool) (tte : TTEntryPtr) : K (Z * list Move) :=
  let alphaOrig := alpha in
  lv <- pvLoop Me NT alpha beta depth ply ttHit tte ;;
  ab <- searchAborted ;;
  if ab then ret (l_bestScore lv, l_pv lv) else
  if l_nbMoves lv =? 0 then
    ret ((if inChk then - SCORE_MATE + ply else SCORE_DRAW), l_pv lv)
  else
  let ttBound := pvBound NT (l_bestScore lv) alphaOrig beta in
  modify (fun c' => with_eng (set_tt
    (tt_set (tt (eng c')) tte (hash (position (sd c'))) depth ply ttBound
            (l_bestMove lv) SCORE_NONE (l_bestScore lv) false)) c') ;;;
  ret (l_bestScore lv, l_pv lv).

Definition pvBody (Me : Side) (NT : NodeType) (alpha beta depth ply : Z)
    (pv : list Move) : K (Z * list Move) :=
  if depth <=? 0 then qrec alpha beta depth ply pv else
  let pv : list Move := [] in
  stopped <- pvAbortCheck NT ;;
  if stopped then ret (- SCORE_INFINITE, pv) else
  c <- get ;;
  let pos := position (sd c) in
  let inChk := inCheck pos in
  if isDraw pos then ret (SCORE_DRAW, pv) else
  if ply >=? MAX_PLY then ret (evaluate Me pos, pv) else
  let '(ttHit, tte) := tt_get (tt (eng c)) (hash pos) in
  if ttCutoff NT (tt (eng c)) ttHit tte alpha beta depth ply then
    ret (tte_score (tt (eng c)) tte ply, pv)
  else pvMoves Me NT alpha beta depth ply inChk ttHit tte.

End PvSearch.

Fixpoint pvSearch (fuel : nat) (Me : Side) (NT : NodeType)
    (alpha beta depth ply : Z) (pv : list Move) {struct fuel}
  : K (Z * list Move) :=
  match fuel with
  | O => fail
  | S fuel' =>
      pvBody (qSearch fuel Me) (pvSearch fuel' (flip Me))
             Me NT alpha beta depth ply pv
  end.

(** ** Iterative deepening *)

(** The locals of [idSearch]. *)
Record IdVars := {
  i_depth : Z;
  i_completedDepth : Z;
  i_bestPv : list Move;
  i_bestScore : Z
}.

(** [SearchEvent(depth, pv, score, sd.nbNodes, sd.getElapsed(), tt.usage())] *)
Definition mkEvent (depth : Z) (pv : list Move) (score : Z) : K SearchEvent :=
  elapsed <- getElapsed ;;
  c <- get ;;
  ret {| ev_depth := depth; ev_pv := pv; ev_bestScore := score;
         ev_nbNodes := nbNodes (sd c); ev_elapsed := elapsed;
         ev_hashfull := tt_usage (tt (eng c)) |}.

(** A call of [onSearchProgress] or [onSearchFinish]. *)
Definition emit (s : Sink) (e : SearchEvent) : K unit :=
  modify (fun c =>
    emitted {| sink := s; event := e;
               whileSearching := searching (eng c) |} c).

(** Enough fuel for any call at ply 0: the recursion goes one ply deeper at
    each level and stops at [MAX_PLY]. *)
Definition kernelFuel : nat := S (Z.to_nat MAX_PLY).

(** What an iteration does once its result is kept: the three assignments,
    the progress event, and the [maxDepth] test.  The answer tells whether
    the loop breaks. *)
Definition idAdopt (depth score : Z) (pv : list Move) : K (bool * IdVars) :=
  let iv := {| i_depth := depth; i_completedDepth := depth;
               i_bestPv := pv; i_bestScore := score |} in
  e <- mkEvent depth pv score ;;
  emit OnSearchProgress e ;;;
  c <- get ;;
  let lims := limits (sd c) in
  ret ((maxDepth lims >? 0) && (depth >=? maxDepth lims), iv).

(** [for (depth = 1; depth < MAX_PLY; depth++) { ... }], entered with the
    current value of [depth] in [iv].  [n] bounds the number of
    iterations. *)
Fixpoint idLoop (n : nat) (Me : Side) (iv : IdVars) {struct n} : K IdVars :=
  if i_depth iv <? MAX_PLY then
    match n with
    | O => fail
    | S n' =>
        let depth := i_depth iv in
        let alpha := - SCORE_INFINITE in
        let beta := SCORE_INFINITE in
        '(score, pv) <- pvSearch kernelFuel Me Root alpha beta depth 0 [] ;;
        brk <- (if depth >? 1 then searchAborted else ret false) ;;
        if brk then ret iv else
        '(brk, iv') <- idAdopt depth score pv ;;
        if brk then ret iv' else
        idLoop n' Me {| i_depth := depth + 1;
                        i_completedDepth := i_completedDepth iv';
                        i_bestPv := i_bestPv iv';
                        i_bestScore := i_bestScore iv' |}
    end
  else ret iv.

(** The statements of [idSearch] after the loop. *)
Definition idExit (iv : IdVars) : K unit :=
  e <- mkEvent (i_depth iv) (i_bestPv iv) (i_bestScore iv) ;;
  (if negb (i_depth iv =? i_completedDepth iv)
   then emit OnSearchProgress e else ret Datatypes.tt) ;;;
  emit OnSearchFinish e ;;;
  modify (with_eng (set_searching false)).

Definition idStart : IdVars :=
  {| i_depth := 1; i_completedDepth := 0; i_bestPv := [];
     i_bestScore := uninitialised |}.

Definition idSearch (Me : Side) : K unit :=
  iv <- idLoop (Z.to_nat MAX_PLY) Me idStart ;;
  idExit iv.

(** ** Engine facade *)

(** [SearchData::initAllocatedTime]: the division and the sum are made on
    64-bit values ([int64_t moves]); the division truncates and the sum
    wraps around. *)
Definition initAllocatedTime (pos : Position) (lims : SearchLimits) : Z :=
  let moves := if movesToGo lims >? 0 then movesToGo lims else 40 in
  let stm := getSideToMove pos in
  int64 (Z.quot (timeLeft lims stm) moves + increment lims stm).

(** [SearchData::SearchData(pos, limits)], [t] being what [now()] answers. *)
Definition newSearchData (pos : Position) (lims : SearchLimits) (t : Z)
  : SearchData :=
  {| position := pos; limits := lims; nbNodes := 0; startTime := t;
     allocatedTime := initAllocatedTime pos lims |}.

(** [Engine::search].  The detached thread is the second component: the
    data the worker was started on, or [None] when no worker was started. *)
Definition search (e : Engine) (lims : SearchLimits) (t : Z)
  : Engine * option SearchData :=
  if searching e then (e, None)
  else
    let data := newSearchData (rootPosition e) lims t in
    ({| rootPosition := rootPosition e; tt := tt_clear (tt e);
        aborted := false; searching := true |}, Some data).

(** [Engine::stop], as the caller's thread runs it. *)
Definition Engine_stop (e : Engine) : Engine := set_aborted true e.

(** The worker as the thread's lambda starts it: its own copy of the data,
    the shared engine, no observation made and nothing emitted yet. *)
Definition worker (e : Engine) (data : SearchData) (clk : nat -> Z)
    (ext : nat -> bool) : Ctx :=
  {| eng := e; sd := data; clock := clk; extStop := ext; tick := O;
     out := [] |}.

End Engine.

(** ** Vocabulary of the statements *)

Section Vocabulary.

Context {X : Externals}.

(** What no kernel computation touches: the event log, the [searching]
    flag, the limits and the two oracles; and the node count never goes
    down. *)
Record Frame (c c' : Ctx) : Prop := {
  fr_nodes : nbNodes (sd c) <= nbNodes (sd c');
  fr_out : out c' = out c;
  fr_searching : searching (eng c') = searching (eng c);
  fr_limits : limits (sd c') = limits (sd c);
  fr_clock : clock c' = clock c;
  fr_extStop : extStop c' = extStop c
}.

(** [safe m]: [m] returns, whatever the state, and respects the frame. *)
Definition safe {A} (m : K A) : Prop :=
  forall c, exists a c', m c = Some (a, c') /\ Frame c c'.

(** A callback either leaves everything as it was and asks for the next
    move, or counts the move. *)
Definition counts (callback : Move -> LoopVars -> K (bool * LoopVars)) : Prop :=
  forall move lv c b lv' c',
    callback move lv c = Some ((b, lv'), c') ->
    (b = true /\ lv' = lv /\ c' = c) \/ l_nbMoves lv' = l_nbMoves lv + 1.

Definition progressEvent (b : bool) (x : Emitted) : Prop :=
  sink x = OnSearchProgress /\ whileSearching x = b.

(** [e] reports what [iv] holds as accepted. *)
Definition reports (iv : IdVars) (e : SearchEvent) : Prop :=
  ev_pv e = i_bestPv iv /\ ev_bestScore e = i_bestScore iv.

(** What a run of the loop from [iv] in [c] leaves behind: progress events
    only, all sent while [searching] still has its value; and either nothing
    happened, or the last event sent is the one of the accepted depth, the
    loop counter being at that depth or one above. *)
Definition idPost (c : Ctx) (iv iv' : IdVars) (c' : Ctx) : Prop :=
  searching (eng c') = searching (eng c) /\
  exists ps,
    out c' = out c ++ ps /\
    Forall (progressEvent (searching (eng c))) ps /\
    ((ps = [] /\ iv' = iv) \/
     (exists ps0 x,
        ps = ps0 ++ [x] /\
        ev_depth (event x) = i_completedDepth iv' /\
        reports iv' (event x) /\
        i_depth iv <= i_completedDepth iv' /\
        (i_depth iv' = i_completedDepth iv'
         \/ i_depth iv' = i_completedDepth iv' + 1))).

Definition progressOf (depth score : Z) (pv : list Move) (c : Ctx) : Emitted :=
  {| sink := OnSearchProgress;
     event := {| ev_depth := depth; ev_pv := pv; ev_bestScore := score;
                 ev_nbNodes := nbNodes (sd c);
                 ev_elapsed := clock c (tick c) - startTime (sd c);
                 ev_hashfull := tt_usage (tt (eng c)) |};
     whileSearching := searching (eng c) |}.

Definition finishOf (b : bool) (e : SearchEvent) : Emitted :=
  {| sink := OnSearchFinish; event := e; whileSearching := b |}.

Definition extraProgress (b : bool) (e : SearchEvent) : Emitted :=
  {| sink := OnSearchProgress; event := e; whileSearching := b |}.

End Vocabulary.

(** ** Vocabulary of the further properties *)

Section Invariants.

Context {X : Externals}.

(** [m], whenever it returns, relates the state it leaves to the state it
    was started in. *)
Definition preserves {A} (R : Ctx -> Ctx -> Prop) (m : K A) : Prop :=
  forall c a c', m c = Some (a, c') -> R c c'.

(** What the kernel leaves alone besides [Frame]: the abort flag is never
    cleared, the engine's own position and the two times of the search data
    are never written, and observations are only ever added. *)
Record Keeps (c c' : Ctx) : Prop := {
  k_aborted : aborted (eng c) = true -> aborted (eng c') = true;
  k_root : rootPosition (eng c') = rootPosition (eng c);
  k_startTime : startTime (sd c') = startTime (sd c);
  k_allocatedTime : allocatedTime (sd c') = allocatedTime (sd c);
  k_tick : (tick c <= tick c')%nat
}.

(** The relation the locals of a move loop keep with the [alpha] and
    [bestScore] the loop was entered with. *)
Record LoopInv (alpha0 bestScore0 : Z) (lv : LoopVars) : Prop := {
  li_alpha : alpha0 <= l_alpha lv;
  li_best : bestScore0 <= l_bestScore lv;
  li_counted : 0 <= l_nbMoves lv;
  li_raised :
    alpha0 < l_alpha lv ->
    l_alpha lv = l_bestScore lv /\
    exists rest, l_pv lv = l_bestMove lv :: rest;
  li_flat :
    l_alpha lv = alpha0 ->
    l_pv lv = [] /\ l_bestMove lv = MOVE_NONE /\
    l_bestScore lv <= Z.max alpha0 bestScore0
}.

(** The events [ps] report the depths [d], [d + 1], ... in this order. *)
Fixpoint depthsFrom (d : Z) (ps : list Emitted) : Prop :=
  match ps with
  | [] => True
  | x :: rest => ev_depth (event x) = d /\ depthsFrom (d + 1) rest
  end.

(** The node counts the events [ps] report never go down, and start at
    [n] or above. *)
Fixpoint nodesFrom (n : Z) (ps : list Emitted) : Prop :=
  match ps with
  | [] => True
  | x :: rest =>
      n <= ev_nbNodes (event x) /\ nodesFrom (ev_nbNodes (event x)) rest
  end.

(** The search the lambda of [pvSearch] makes for [move], from the counting
    of the move on: [nbMoves++; sd.nbNodes++; doMove(move)], then the scout
    and the full-window search.  It answers with the score and the child PV
    the lambda goes on with. *)
Definition pvChild
    (rec : NodeType -> Z -> Z -> Z -> Z -> list Move -> K (Z * list Move))
    (NT : NodeType) (beta depth ply : Z) (move : Move) (lv : LoopVars)
  : K (Z * list Move) :=
  countNode ;;;
  makeMove move ;;;
  pvsChild rec NT (l_nbMoves lv + 1) (l_alpha lv) beta depth ply
           (l_childPv lv).

(** The same for the lambda of [qSearch]: [Score score = -qSearch<~Me>(...)]
    after the counting and [doMove(move)]. *)
Definition qChild
    (rec : Z -> Z -> Z -> Z -> list Move -> K (Z * list Move))
    (beta depth ply : Z) (move : Move) (lv : LoopVars)
  : K (Z * list Move) :=
  countNode ;;;
  makeMove move ;;;
  '(s, childPv) <-
     rec (- beta) (- l_alpha lv) (depth - 1) (ply + 1) (l_childPv lv) ;;
  ret (- s, childPv).

(** [callback] changes the locals of the loop only by counting the move
    and then, possibly, by the adoption step [adopt], both on the score and
    the child PV that [child] has answered with for this move. *)
Definition steps (child : Move -> LoopVars -> K (Z * list Move)) (beta : Z)
    (callback : Move -> LoopVars -> K (bool * LoopVars)) : Prop :=
  forall move lv c b lv' c',
    callback move lv c = Some ((b, lv'), c') ->
    lv' = lv \/
    exists score childPv c1,
      child move lv c = Some ((score, childPv), c1) /\
      (lv' = counted childPv lv \/
       lv' = snd (adopt move score beta (counted childPv lv))).

(** Where the PV of a loop comes from once [alpha] has been raised above
    [alpha0]: the search of [bestMove], made with some locals [lv0] of the
    loop, answered with [bestScore], above the [alpha] of [lv0], and with a
    child PV, and the PV is [bestMove] followed by that child PV. *)
Definition BestLine (child : Move -> LoopVars -> K (Z * list Move))
    (alpha0 : Z) (lv : LoopVars) : Prop :=
  alpha0 < l_alpha lv ->
  exists lv0 c0 childPv c1,
    child (l_bestMove lv) lv0 c0 = Some ((l_bestScore lv, childPv), c1) /\
    l_alpha lv0 < l_bestScore lv /\
    l_pv lv = l_bestMove lv :: childPv.

(** Every move the picker yields can be taken back. *)
Definition Reversible : Prop :=
  forall pk side pos hint move,
    In move (mp_moves pk side pos hint) ->
    undoMove (doMove pos move) move = pos.

(** [pv] is a line from [pos] with [side] to move: each of its moves is one
    the picker yields at the position the moves before it lead to. *)
Fixpoint line (side : Side) (pos : Position) (pv : list Move) : Prop :=
  match pv with
  | [] => True
  | move :: rest =>
      (exists pk hint, In move (mp_moves pk side pos hint)) /\
      line (flip side) (doMove pos move) rest
  end.

(** What a call for [side] that returns [r] leaves behind: the position it
    was given, and a PV that is a line from there. *)
Definition lineFrom (side : Side) (m : K (Z * list Move)) : Prop :=
  forall c r c',
    m c = Some (r, c') ->
    position (sd c') = position (sd c) /\ line side (position (sd c)) (snd r).

End Invariants.

(** ** The draw return of the earlier revision *)
Module Revision1.

(** [return 1-(sd.nbNodes & 2);] in both [pvSearch] and [qSearch]. *)
Definition drawReturn (nbNodes : Z) : Z := 1 - Z.land nbNodes 2.

End Revision1.

(** ** Watching the recursive calls

    [pvsChild] is generic in the state it threads.  Run on a list of calls,
    with a recursive call that appends its arguments to the list and
    answers from a given function, it shows which searches are made and in
    which order. *)
Record Call := {
  c_node : NodeType;
  c_alpha : Z;
  c_beta : Z;
  c_depth : Z;
  c_ply : Z
}.

Definition recorded {X : Externals} (answer : Call -> Z)
  : NodeType -> Z -> Z -> Z -> Z -> list Move -> M (list Call) (Z * list Move) :=
  fun nt a b d p childPv calls =>
    let call := {| c_node := nt; c_alpha := a; c_beta := b; c_depth := d;
                   c_ply := p |} in
    Some ((answer call, childPv), calls ++ [call]).

(** ** A small instance of the collaborators

    Positions are nodes of an explicit game tree, kept as the stack of nodes
    from the current one back to the root, so that [undoMove] pops what
    [doMove] pushed.  Moves are numbers, each node carrying the move that
    leads to it; those from 10 on are the non-quiet ones.  The table is an
    association list keyed by the hash, with the mate-distance adjustment
    and [boundMatch] of the specification. *)
Module Toy.

#[warnings="-register-all"]
Inductive Tree :=
| Node (via : nat) (id : Z) (check fifty : bool) (ev : Z) (kids : list Tree).

Definition via_of (t : Tree) : nat := match t with Node m _ _ _ _ _ => m end.
Definition id_of (t : Tree) : Z := match t with Node _ i _ _ _ _ => i end.
Definition check_of (t : Tree) : bool :=
  match t with Node _ _ c _ _ _ => c end.
Definition fifty_of (t : Tree) : bool :=
  match t with Node _ _ _ d _ _ => d end.
Definition ev_of (t : Tree) : Z := match t with Node _ _ _ _ e _ => e end.
Definition kids_of (t : Tree) : list Tree :=
  match t with Node _ _ _ _ _ k => k end.

Definition Pos : Type := list Tree.

Definition here (p : Pos) : Tree := hd (Node 0 0 false false 0 []) p.

Definition play (p : Pos) (m : nat) : Pos :=
  match find (fun k => Nat.eqb (via_of k) m) (kids_of (here p)) with
  | Some k => k :: p
  | None => p
  end.

Definition legal (p : Pos) : list nat := map via_of (kids_of (here p)).

Definition hintFirst (hint : nat) (l : list nat) : list nat :=
  if existsb (Nat.eqb hint) l
  then hint :: filter (fun m => negb (Nat.eqb hint m)) l
  else l.

Definition picker (k : MovePickerType) (Me : Side) (p : Pos) (hint : nat)
  : list nat :=
  match k with
  | MAIN => hintFirst hint (legal p)
  | QUIESCENCE =>
      if check_of (here p) then hintFirst hint (legal p)
      else hintFirst hint (filter (fun m => Nat.leb 10 m) (legal p))
  end.

Record Entry := {
  e_depth : Z; e_bound : Bound; e_move : nat; e_score : Z; e_eval : Z
}.

Definition Table : Type := list (Z * Entry).

Definition MATE : Z := 32000.
Definition INF : Z := 32001.
Definition NONE : Z := 32002.
Definition PLIES : Z := 128.

Definition lookup (t : Table) (h : Z) : option Entry :=
  option_map snd (find (fun kv => Z.eqb (fst kv) h) t).

Definition entry (t : Table) (h : Z) : Entry :=
  match lookup t h with
  | Some e => e
  | None => {| e_depth := 0; e_bound := BOUND_NONE; e_move := O;
               e_score := NONE; e_eval := NONE |}
  end.

(** Stored scores are mate distances from the node; loading subtracts the
    ply again. *)
Definition load (s ply : Z) : Z :=
  if s =? NONE then NONE
  else if s >=? MATE - PLIES then s - ply
  else if s <=? - MATE + PLIES then s + ply
  else s.

Definition store (s ply : Z) : Z :=
  if s =? NONE then NONE
  else if s >=? MATE - PLIES then s + ply
  else if s <=? - MATE + PLIES then s - ply
  else s.

Definition boundMatch (t : Table) (h alpha beta ply : Z) : bool :=
  let e := entry t h in
  let s := load (e_score e) ply in
  match e_bound e with
  | BOUND_EXACT => true
  | BOUND_LOWER => s >=? beta
  | BOUND_UPPER => s <=? alpha
  | BOUND_NONE => false
  end.

Definition write (t : Table) (slot h depth ply : Z) (b : Bound) (m : nat)
    (eval score : Z) (pvFlag : bool) : Table :=
  (h, {| e_depth := depth; e_bound := b; e_move := m;
         e_score := store score ply; e_eval := eval |})
  :: filter (fun kv => negb (Z.eqb (fst kv) slot)) t.

#[export] Instance externals : Externals := {|
  Position := Pos;
  Move := nat;
  TranspositionTable := Table;
  TTEntryPtr := Z;
  MOVE_NONE := O;
  Move_eqb := Nat.eqb;
  SCORE_INFINITE := INF;
  SCORE_MATE := MATE;
  SCORE_NONE := NONE;
  MAX_PLY := PLIES;
  uninitialised := 0;
  getSideToMove := fun p => if Nat.even (length p) then BLACK else WHITE;
  inCheck := fun p => check_of (here p);
  isFiftyMoveDraw := fun p => fifty_of (here p);
  isMaterialDraw := fun _ => false;
  isRepetitionDraw := fun _ => false;
  hash := fun p => id_of (here p);
  doMove := play;
  undoMove := fun p _ => tl p;
  evaluate := fun _ p => ev_of (here p);
  mp_moves := picker;
  tt_get := fun t h => (match lookup t h with Some _ => true | None => false end, h);
  tte_depth := fun t h => e_depth (entry t h);
  tte_score := fun t h ply => load (e_score (entry t h)) ply;
  tte_boundMatch := boundMatch;
  tte_move := fun t h => e_move (entry t h);
  tt_set := write;
  tt_clear := fun _ => [];
  tt_usage := fun t => Z.of_nat (length t)
|}.

Definition noLimits : SearchLimits :=
  {| timeLeft := fun _ => 0; increment := fun _ => 0; movesToGo := 0;
     maxDepth := 0; maxNodes := 0; searchMoves := [] |}.

Definition idle (p : Pos) : Engine :=
  {| rootPosition := p; tt := []; aborted := false; searching := false |}.

(** A quiet world: the clock stands still and nobody calls [stop()]. *)
Definition still : nat -> Z := fun _ => 0.
Definition nobody : nat -> bool := fun _ => false.

Definition leaf (m : nat) (i e : Z) : Tree := Node m i false false e [].

(** Stalemate: no move, not in check. *)
Definition stalemate : Pos := [Node 0 1 false false 0 []].

(** Mated: no move, in check. *)
Definition mated : Pos := [Node 0 2 true false 0 []].

(** Two quiet moves; the second is the better one for the side to move. *)
Definition twoMoves : Pos :=
  [Node 0 3 false false 0 [leaf 1 4 30; leaf 2 5 (-20)]].

(** Three quiet moves. *)
Definition threeMoves : Pos :=
  [Node 0 15 false false 0 [leaf 1 16 30; leaf 2 17 (-20); leaf 3 18 (-50)]].

(** In check, two evasions, and the fifty-move counter has run out. *)
Definition fiftyInCheck : Pos :=
  [Node 0 6 true true 0 [leaf 1 7 10; leaf 2 8 0]].

(** One move that mates. *)
Definition mateInOne : Pos :=
  [Node 0 9 false false 0 [Node 1 10 true false 0 []; leaf 2 11 0]].

(** A capture (move 10) that wins material, and a quiet move. *)
Definition capture : Pos :=
  [Node 0 12 false false 5 [leaf 10 13 (-100); leaf 1 14 0]].

Definition onlyMoves (l : list nat) : SearchLimits :=
  {| timeLeft := fun _ => 0; increment := fun _ => 0; movesToGo := 0;
     maxDepth := 0; maxNodes := 0; searchMoves := l |}.

Definition nodes (n : Z) : SearchLimits :=
  {| timeLeft := fun _ => 0; increment := fun _ => 0; movesToGo := 0;
     maxDepth := 0; maxNodes := n; searchMoves := [] |}.

(** Depth 1 and no other limit. *)
Definition depthOne : SearchLimits :=
  {| timeLeft := fun _ => 0; increment := fun _ => 0; movesToGo := 0;
     maxDepth := 1; maxNodes := 0; searchMoves := [] |}.

(** 40 ms on each clock: one millisecond for the move. *)
Definition blitz : SearchLimits :=
  {| timeLeft := fun _ => 40; increment := fun _ => 0; movesToGo := 0;
     maxDepth := 0; maxNodes := 0; searchMoves := [] |}.

(** The engine right after [search(l)] on position [p] at time 0. *)
Definition started (p : Pos) (l : SearchLimits) : Engine :=
  fst (search (idle p) l 0).

(** The worker of that search in a quiet world. *)
Definition quiet (p : Pos) (l : SearchLimits) : Ctx :=
  worker (started p l) (newSearchData p l 0) still nobody.

(** The same worker when the caller's [stop()] ran before the worker did. *)
Definition stoppedEarly (p : Pos) (l : SearchLimits) : Ctx :=
  worker (Engine_stop (started p l)) (newSearchData p l 0) still nobody.

(** The same worker when the thread only gets to run after 5 ms. *)
Definition late (p : Pos) (l : SearchLimits) : Ctx :=
  worker (started p l) (newSearchData p l 0) (fun _ => 5) nobody.

(** A worker whose table already knows the position: depth 5, exact score
    42, best move 2. *)
Definition remembered (p : Pos) : Ctx :=
  worker {| rootPosition := p;
            tt := [(id_of (here p),
                    {| e_depth := 5; e_bound := BOUND_EXACT; e_move := 2%nat;
                       e_score := 42; e_eval := NONE |})];
            aborted := false; searching := true |}
         (newSearchData p noLimits 0) still nobody.

(** What a sink is called with, in short. *)
Definition brief (x : Emitted) : Sink * Z * list nat * Z :=
  (sink x, ev_depth (event x), ev_pv (event x), ev_bestScore (event x)).

End Toy.

(** ** Reasoning about kernel computations *)

Section Facts.

Context {X : Externals}.

Ltac frame := constructor; simpl; first [reflexivity | lia].

Lemma Frame_refl c : Frame c c.
Proof. frame. Qed.

Lemma Frame_trans c1 c2 c3 : Frame c1 c2 -> Frame c2 c3 -> Frame c1 c3.
Proof.
  intros [a0 a1 a2 a3 a4 a5] [b0 b1 b2 b3 b4 b5].
  constructor; first [congruence | lia].
Qed.

Lemma safe_ret {A} (a : A) : safe (ret a).
Proof. intros c; exists a, c; split; [reflexivity | apply Frame_refl]. Qed.

Lemma safe_bind {A B} (m : K A) (k : A -> K B) :
  safe m -> (forall a, safe (k a)) -> safe (bind m k).
Proof.
  intros Hm Hk c.
  destruct (Hm c) as (a & c1 & E1 & F1).
  destruct (Hk a c1) as (b & c2 & E2 & F2).
  exists b, c2; split.
  - unfold bind; now rewrite E1.
  - eapply Frame_trans; eassumption.
Qed.

Lemma safe_Frame {A} (m : K A) c a c' :
  safe m -> m c = Some (a, c') -> Frame c c'.
Proof.
  intros Hm E. destruct (Hm c) as (a' & c'' & E' & F).
  rewrite E in E'. now inversion E'; subst.
Qed.

Lemma safe_get : safe get.
Proof. intros c; exists c, c; split; [reflexivity | apply Frame_refl]. Qed.

Lemma safe_modify (f : Ctx -> Ctx) :
  (forall c, Frame c (f c)) -> safe (modify f).
Proof. intros Hf c; exists Datatypes.tt, (f c); split; [reflexivity | apply Hf]. Qed.

Lemma safe_now : safe now.
Proof. intros c; eexists _, _; split; [reflexivity | frame]. Qed.

Lemma safe_stop : safe stop.
Proof. apply safe_modify; intros c; frame. Qed.

Lemma safe_searchAborted : safe searchAborted.
Proof. intros c; eexists _, _; split; [reflexivity | frame]. Qed.

Lemma safe_countNode : safe countNode.
Proof. apply safe_modify; intros c; frame. Qed.

Lemma safe_makeMove m : safe (makeMove m).
Proof. apply safe_modify; intros c; frame. Qed.

Lemma safe_unmakeMove m : safe (unmakeMove m).
Proof. apply safe_modify; intros c; frame. Qed.

Lemma safe_set_tt (f : Ctx -> TranspositionTable) :
  safe (modify (fun c => with_eng (set_tt (f c)) c)).
Proof. apply safe_modify; intros c; frame. Qed.

Lemma safe_getElapsed : safe getElapsed.
Proof.
  unfold getElapsed.
  apply safe_bind; [apply safe_now | intros t].
  apply safe_bind; [apply safe_get | intros c; apply safe_ret].
Qed.

Lemma safe_shouldStop : safe shouldStop.
Proof.
  unfold shouldStop.
  apply safe_bind; [apply safe_get | intros c].
  apply safe_bind; [apply safe_getElapsed | intros t; apply safe_ret].
Qed.

Lemma safe_qAbortCheck : safe qAbortCheck.
Proof.
  unfold qAbortCheck.
  apply safe_bind; [apply safe_shouldStop | intros s].
  apply safe_bind; [| intros _; apply safe_searchAborted].
  destruct s; [apply safe_stop | apply safe_ret].
Qed.

Lemma safe_pvAbortCheck NT : safe (pvAbortCheck NT).
Proof.
  unfold pvAbortCheck.
  apply safe_bind.
  - destruct (negb (RootNode NT)); [| apply safe_ret].
    apply safe_bind; [apply safe_shouldStop | intros s].
    destruct s; [apply safe_stop | apply safe_ret].
  - intros _. destruct (negb (RootNode NT));
      [apply safe_searchAborted | apply safe_ret].
Qed.

Lemma safe_enumerate moves callback :
  (forall m lv, safe (callback m lv)) ->
  forall lv, safe (enumerate moves callback lv).
Proof.
  intros Hcb. induction moves as [| m rest IH]; intros lv; simpl.
  - apply safe_ret.
  - apply safe_bind; [apply Hcb | intros [continue lv']].
    destruct continue; [apply IH | apply safe_ret].
Qed.

(** *** The kernel returns

    A call at ply [p] needs one unit of fuel, plus one for every ply that
    separates [p] from [MAX_PLY]. *)

Ltac safe_prim :=
  first
    [ apply safe_ret
    | apply safe_get
    | apply safe_searchAborted
    | apply safe_countNode
    | apply safe_makeMove
    | apply safe_unmakeMove
    | apply safe_qAbortCheck
    | apply safe_pvAbortCheck
    | apply safe_set_tt ].

(** One primitive action followed by the rest. *)
Ltac safe_seq := apply safe_bind; [safe_prim | intros ?].

Lemma safe_qCallback rec beta depth ply move lv :
  (forall a b d pv, safe (rec a b d (ply + 1) pv)) ->
  safe (qCallback rec beta depth ply move lv).
Proof.
  intros Hrec. unfold qCallback.
  do 2 safe_seq.
  apply safe_bind; [apply Hrec | intros [s childPv]].
  do 2 safe_seq.
  destruct a2; safe_prim.
Qed.

Lemma safe_qMoves rec Me alpha beta depth ply bestScore alphaOrig eval inChk :
  (forall a b d pv, safe (rec a b d (ply + 1) pv)) ->
  safe (qMoves rec Me alpha beta depth ply bestScore alphaOrig eval inChk).
Proof.
  intros Hrec. unfold qMoves.
  safe_seq.
  destruct (tt_get _ _) as [ttHit tte].
  apply safe_bind; [| intros lv].
  { unfold qLoop. safe_seq.
    apply safe_enumerate. intros; now apply safe_qCallback. }
  safe_seq.
  destruct a0; [safe_prim |].
  safe_seq. safe_prim.
Qed.

Lemma safe_qBody rec Me alpha beta depth ply pv :
  (ply < MAX_PLY -> forall a b d pv', safe (rec a b d (ply + 1) pv')) ->
  safe (qBody rec Me alpha beta depth ply pv).
Proof.
  intros Hrec. unfold qBody.
  safe_seq.
  destruct a; [safe_prim |].
  safe_seq.
  destruct (isDraw _); [safe_prim |].
  destruct (ply >=? MAX_PLY) eqn:Eply; [safe_prim |].
  assert (Hlt : ply < MAX_PLY) by (rewrite Z.geb_leb in Eply; lia).
  destruct (negb _).
  - destruct (_ >=? beta); [safe_prim |].
    apply safe_qMoves; auto.
  - apply safe_qMoves; auto.
Qed.

Lemma qSearch_S fuel Me alpha beta depth ply pv :
  qSearch (S fuel) Me alpha beta depth ply pv
  = qBody (qSearch fuel (flip Me)) Me alpha beta depth ply pv.
Proof. reflexivity. Qed.

Lemma pvSearch_S fuel Me NT alpha beta depth ply pv :
  pvSearch (S fuel) Me NT alpha beta depth ply pv
  = pvBody (qSearch (S fuel) Me) (pvSearch fuel (flip Me))
           Me NT alpha beta depth ply pv.
Proof. reflexivity. Qed.

Lemma safe_qSearch fuel : forall Me alpha beta depth ply pv,
  Z.max 0 (MAX_PLY - ply) < Z.of_nat fuel ->
  safe (qSearch fuel Me alpha beta depth ply pv).
Proof.
  induction fuel as [| fuel IH]; intros Me alpha beta depth ply pv Hfuel.
  - lia.
  - rewrite qSearch_S. apply safe_qBody. intros Hlt a b d pv'. apply IH. lia.
Qed.

Lemma safe_pvsChild rec NT nbMoves alpha beta depth ply childPv :
  (forall nt a b d pv, safe (rec nt a b d (ply + 1) pv)) ->
  safe (pvsChild rec NT nbMoves alpha beta depth ply childPv).
Proof.
  intros Hrec. unfold pvsChild.
  apply safe_bind; [| intros [score cpv]].
  { destruct (_ || _); [| safe_prim].
    apply safe_bind; [apply Hrec | intros [s cpv]]. safe_prim. }
  destruct (_ && _); [| safe_prim].
  apply safe_bind; [apply Hrec | intros [s cpv']]. safe_prim.
Qed.

Lemma safe_pvCallback rec NT beta depth ply move lv :
  (forall nt a b d pv, safe (rec nt a b d (ply + 1) pv)) ->
  safe (pvCallback rec NT beta depth ply move lv).
Proof.
  intros Hrec. unfold pvCallback.
  safe_seq.
  destruct (skipped _ _ _); [safe_prim |].
  do 2 safe_seq.
  apply safe_bind; [now apply safe_pvsChild | intros [score childPv]].
  do 2 safe_seq.
  destruct a3; safe_prim.
Qed.

Lemma safe_pvMoves rec Me NT alpha beta depth ply inChk ttHit tte :
  (forall nt a b d pv, safe (rec nt a b d (ply + 1) pv)) ->
  safe (pvMoves rec Me NT alpha beta depth ply inChk ttHit tte).
Proof.
  intros Hrec. unfold pvMoves.
  apply safe_bind; [| intros lv].
  { unfold pvLoop. safe_seq.
    apply safe_enumerate. intros; now apply safe_pvCallback. }
  safe_seq.
  destruct a; [safe_prim |].
  destruct (_ =? 0); [safe_prim |].
  safe_seq. safe_prim.
Qed.

Lemma safe_pvBody qrec rec Me NT alpha beta depth ply pv :
  (forall a b d pv', safe (qrec a b d ply pv')) ->
  (ply < MAX_PLY -> forall nt a b d pv', safe (rec nt a b d (ply + 1) pv')) ->
  safe (pvBody qrec rec Me NT alpha beta depth ply pv).
Proof.
  intros Hq Hrec. unfold pvBody.
  destruct (depth <=? 0); [apply Hq |].
  safe_seq.
  destruct a; [safe_prim |].
  safe_seq.
  destruct (isDraw _); [safe_prim |].
  destruct (ply >=? MAX_PLY) eqn:Eply; [safe_prim |].
  assert (Hlt : ply < MAX_PLY) by (rewrite Z.geb_leb in Eply; lia).
  destruct (tt_get _ _) as [ttHit tte].
  destruct (ttCutoff _ _ _ _ _ _ _ _); [safe_prim |].
  apply safe_pvMoves; auto.
Qed.

Lemma safe_pvSearch fuel : forall Me NT alpha beta depth ply pv,
  Z.max 0 (MAX_PLY - ply) < Z.of_nat fuel ->
  safe (pvSearch fuel Me NT alpha beta depth ply pv).
Proof.
  induction fuel as [| fuel IH]; intros Me NT alpha beta depth ply pv Hfuel.
  - lia.
  - rewrite pvSearch_S. apply safe_pvBody.
    + intros a b d pv'. now apply safe_qSearch.
    + intros Hlt nt a b d pv'. apply IH. lia.
Qed.

Lemma safe_root_call Me alpha beta depth pv :
  safe (pvSearch kernelFuel Me Root alpha beta depth 0 pv).
Proof. apply safe_pvSearch. unfold kernelFuel. lia. Qed.

(** *** Running a sequence *)

Lemma bind_Some {S A B} (m : M S A) (k : A -> M S B) s a s1 :
  m s = Some (a, s1) -> bind m k s = k a s1.
Proof. intros E; unfold bind; now rewrite E. Qed.

Lemma bind_Some_inv {S A B} (m : M S A) (k : A -> M S B) s r :
  bind m k s = Some r ->
  exists a s1, m s = Some (a, s1) /\ k a s1 = Some r.
Proof.
  unfold bind. destruct (m s) as [[a s1] |]; [| discriminate].
  intros E; now exists a, s1.
Qed.

(** Decompose a hypothesis [bind m k c = Some r] into its two halves. *)
Ltac bind_inv H :=
  let a := fresh "a" in
  let c := fresh "c" in
  let E := fresh "E" in
  apply bind_Some_inv in H; destruct H as (a & c & E & H).

Tactic Notation "bind_split" hyp(H) "as" ident(a) ident(c) ident(E) :=
  apply bind_Some_inv in H; destruct H as (a & c & E & H).

(** The abort checks only touch the [aborted] flag and the observation
    count. *)
Lemma qAbortCheck_sd c b c1 : qAbortCheck c = Some (b, c1) -> sd c1 = sd c.
Proof.
  unfold qAbortCheck, shouldStop, getElapsed, now, get, stop, modify,
    searchAborted, bind, ret.
  simpl. destruct (_ || _); simpl; intros E; inversion E; reflexivity.
Qed.

Lemma pvAbortCheck_sd NT c b c1 :
  pvAbortCheck NT c = Some (b, c1) -> sd c1 = sd c.
Proof.
  unfold pvAbortCheck, shouldStop, getElapsed, now, get, stop, modify,
    searchAborted, bind, ret.
  destruct (negb (RootNode NT)); simpl.
  - destruct (_ || _); simpl; intros E; inversion E; reflexivity.
  - intros E; inversion E; reflexivity.
Qed.

(** The root never stops at its abort check. *)
Lemma pvAbortCheck_Root c : pvAbortCheck Root c = Some (false, c).
Proof. reflexivity. Qed.

(** *** Counting moves *)

Lemma adopt_nbMoves move score beta lv :
  l_nbMoves (snd (adopt move score beta lv)) = l_nbMoves lv.
Proof.
  unfold adopt.
  destruct (score >? l_bestScore lv); [| reflexivity].
  destruct (score >? l_alpha lv); [| reflexivity].
  simpl. destruct (score >=? beta); reflexivity.
Qed.

Lemma pvCallback_counts rec NT beta depth ply :
  counts (pvCallback rec NT beta depth ply).
Proof.
  intros move lv c b lv' c' H. unfold pvCallback in H.
  bind_inv H. inversion E; subst a c0; clear E.
  destruct (skipped _ _ _).
  - left. inversion H; subst. auto.
  - right. do 2 bind_inv H. bind_inv H. destruct a1 as [score childPv].
    do 2 bind_inv H.
    destruct a2; inversion H; subst; clear H.
    + reflexivity.
    + change lv' with (snd (b, lv')). rewrite <- H1.
      now rewrite adopt_nbMoves.
Qed.

Lemma enumerate_counts callback moves :
  counts callback ->
  forall lv c lv' c',
    enumerate moves callback lv c = Some (lv', c') ->
    (lv' = lv /\ c' = c) \/ l_nbMoves lv < l_nbMoves lv'.
Proof.
  intros Hcb. induction moves as [| m rest IH]; intros lv c lv' c' H; simpl in H.
  - inversion H; auto.
  - bind_inv H. destruct a as [continue lv1].
    destruct (Hcb _ _ _ _ _ _ E) as [(-> & -> & ->) | Hn].
    + now apply IH.
    + right. destruct continue.
      * destruct (IH _ _ _ _ H) as [(-> & _) | Hlt]; lia.
      * inversion H; subst; lia.
Qed.

(** A move loop that ends with [nbMoves == 0] has changed nothing. *)
Lemma pvLoop_zero rec Me NT alpha beta depth ply ttHit tte c lv c' :
  pvLoop rec Me NT alpha beta depth ply ttHit tte c = Some (lv, c') ->
  l_nbMoves lv = 0 ->
  c' = c /\ l_pv lv = [] /\ l_bestScore lv = - SCORE_INFINITE.
Proof.
  unfold pvLoop. intros H H0.
  bind_inv H. inversion E; subst a c0; clear E.
  apply (enumerate_counts _ _ (pvCallback_counts rec NT beta depth ply)) in H.
  destruct H as [(-> & ->) | Hlt]; [auto | simpl in Hlt; lia].
Qed.

(** ** The search kernel *)

(** [pvSearch] once past its abort check, the draw test and the ply
    ceiling: the table is probed and either cuts the node off or hands over
    to the move loop. *)
Lemma pvSearch_past_ceiling fuel Me NT alpha beta depth ply pv0 c c1 :
  0 < depth ->
  pvAbortCheck NT c = Some (false, c1) ->
  isDraw (position (sd c1)) = false ->
  ply < MAX_PLY ->
  let t := tt (eng c1) in
  let pos := position (sd c1) in
  let probe := tt_get t (hash pos) in
  pvSearch (S fuel) Me NT alpha beta depth ply pv0 c
  = if ttCutoff NT t (fst probe) (snd probe) alpha beta depth ply
    then Some ((tte_score t (snd probe) ply, []), c1)
    else pvMoves (pvSearch fuel (flip Me)) Me NT alpha beta depth ply
                 (inCheck pos) (fst probe) (snd probe) c1.
Proof.
  intros Hdepth Hchk Hdraw Hply t pos probe.
  rewrite pvSearch_S. unfold pvBody.
  replace (depth <=? 0) with false by (symmetry; apply Z.leb_gt; lia).
  rewrite (bind_Some _ _ _ _ _ Hchk).
  unfold get at 1. rewrite (bind_Some _ _ c1 c1 c1 eq_refl).
  rewrite Hdraw.
  replace (ply >=? MAX_PLY) with false
    by (symmetry; rewrite Z.geb_leb; apply Z.leb_gt; lia).
  fold t. fold pos. fold probe. destruct probe as [ttHit tte]. simpl.
  destruct (ttCutoff _ _ _ _ _ _ _ _); reflexivity.
Qed.

(** The end of [pvSearch] after a loop that counted nothing. *)
Lemma pvMoves_zero rec Me NT alpha beta depth ply inChk ttHit tte
    c1 lv c2 ab c3 :
  pvLoop rec Me NT alpha beta depth ply ttHit tte c1 = Some (lv, c2) ->
  l_nbMoves lv = 0 ->
  searchAborted c2 = Some (ab, c3) ->
  c2 = c1 /\
  pvMoves rec Me NT alpha beta depth ply inChk ttHit tte c1
  = Some ((if ab then - SCORE_INFINITE
           else if inChk then - SCORE_MATE + ply else SCORE_DRAW, []), c3).
Proof.
  intros Hloop Hzero Hab.
  destruct (pvLoop_zero _ _ _ _ _ _ _ _ _ _ _ _ Hloop Hzero)
    as (-> & Hpv & Hbest).
  split; [reflexivity |].
  unfold pvMoves.
  rewrite (bind_Some _ _ _ _ _ Hloop), (bind_Some _ _ _ _ _ Hab).
  rewrite Hzero, Hpv, Hbest. simpl.
  destruct ab; reflexivity.
Qed.

(** C1 (as amended).  A call of [pvSearch] that reaches the move loop and
    counts no move ([nbMoves == 0]) has searched nothing and left the state
    as the abort check left it.  What it returns is decided by the
    [searchAborted()] test that follows the loop: if the search is not
    aborted there, the score is [-SCORE_MATE + ply] when the side to move is
    in check and [SCORE_DRAW] otherwise; if it is aborted, the score is the
    untouched [bestScore], that is [-SCORE_INFINITE]. *)
Theorem pvSearch_no_move_terminal
    fuel Me NT alpha beta depth ply pv0 c c1 lv c2 ab c3 :
  0 < depth ->
  pvAbortCheck NT c = Some (false, c1) ->
  isDraw (position (sd c1)) = false ->
  ply < MAX_PLY ->
  let t := tt (eng c1) in
  let probe := tt_get t (hash (position (sd c1))) in
  ttCutoff NT t (fst probe) (snd probe) alpha beta depth ply = false ->
  pvLoop (pvSearch fuel (flip Me)) Me NT alpha beta depth ply
         (fst probe) (snd probe) c1 = Some (lv, c2) ->
  l_nbMoves lv = 0 ->
  searchAborted c2 = Some (ab, c3) ->
  c2 = c1 /\
  pvSearch (S fuel) Me NT alpha beta depth ply pv0 c
  = Some ((if ab then - SCORE_INFINITE
           else if inCheck (position (sd c1)) then - SCORE_MATE + ply
           else SCORE_DRAW, []), c3).
Proof.
  intros Hdepth Hchk Hdraw Hply t probe Hcut Hloop Hzero Hab.
  rewrite (pvSearch_past_ceiling _ _ _ _ _ _ _ _ _ _ Hdepth Hchk Hdraw Hply).
  fold t. fold probe. rewrite Hcut.
  exact (pvMoves_zero _ _ _ _ _ _ _ _ _ _ _ _ _ _ _ Hloop Hzero Hab).
Qed.

(** At the root, a move that [searchMoves] does not list is passed over
    before anything is counted. *)
Lemma enumerate_all_skipped rec beta depth ply moves lv c :
  searchMoves (limits (sd c)) <> [] ->
  (forall m, In m moves -> contains (searchMoves (limits (sd c))) m = false) ->
  enumerate moves (pvCallback rec Root beta depth ply) lv c = Some (lv, c).
Proof.
  intros Hne. induction moves as [| m rest IH]; intros Hnone; simpl.
  - reflexivity.
  - assert (Hskip : skipped Root (limits (sd c)) m = true).
    { unfold skipped. rewrite (Hnone m (or_introl eq_refl)). simpl.
      destruct (searchMoves (limits (sd c))); [congruence | reflexivity]. }
    unfold bind, pvCallback at 1, get, bind. rewrite Hskip. simpl.
    apply IH. intros m' Hin. apply Hnone. now right.
Qed.

(** C10 (as amended).  Take a root call ([depth >= 1], ply 0) on a position
    that is not drawn by one of the three predicates, with a non-empty
    [searchMoves] that lists none of the moves the picker yields.  Every
    move is passed over before [nbMoves] is incremented, so the loop counts
    zero moves and changes nothing.  If the search is not aborted when the
    loop ends, the call returns [inCheck ? -SCORE_MATE + 0 : SCORE_DRAW],
    a checkmate or stalemate score, although legal moves exist; if it is
    aborted there, it returns [-SCORE_INFINITE]. *)
Theorem root_searchMoves_none_legal
    fuel Me alpha beta depth pv0 c ab c' :
  0 < depth ->
  0 < MAX_PLY ->
  isDraw (position (sd c)) = false ->
  searchMoves (limits (sd c)) <> [] ->
  (forall ttMove m,
     In m (mp_moves MAIN Me (position (sd c)) ttMove) ->
     contains (searchMoves (limits (sd c))) m = false) ->
  searchAborted c = Some (ab, c') ->
  (exists lv ttHit tte,
     pvLoop (pvSearch fuel (flip Me)) Me Root alpha beta depth 0 ttHit tte c
     = Some (lv, c) /\ l_nbMoves lv = 0) /\
  pvSearch (S fuel) Me Root alpha beta depth 0 pv0 c
  = Some ((if ab then - SCORE_INFINITE
           else if inCheck (position (sd c)) then - SCORE_MATE + 0
           else SCORE_DRAW, []), c').
Proof.
  intros Hdepth Hmax Hdraw Hne Hnone Hab.
  set (probe := tt_get (tt (eng c)) (hash (position (sd c)))).
  assert (Hloop :
    pvLoop (pvSearch fuel (flip Me)) Me Root alpha beta depth 0
           (fst probe) (snd probe) c
    = Some ({| l_nbMoves := 0; l_bestScore := - SCORE_INFINITE;
               l_bestMove := MOVE_NONE; l_alpha := alpha;
               l_pv := []; l_childPv := [] |}, c)).
  { unfold pvLoop, get, bind.
    apply enumerate_all_skipped; [assumption | intros m; apply Hnone]. }
  split.
  - eexists _, _, _. split; [exact Hloop | reflexivity].
  - rewrite (pvSearch_past_ceiling _ _ Root _ _ _ _ _ _ c Hdepth eq_refl
               Hdraw Hmax).
    fold probe. simpl ttCutoff. cbv iota.
    exact (proj2 (pvMoves_zero _ _ _ _ _ _ _ _ _ _ _ _ _ _ _ Hloop eq_refl
                               Hab)).
Qed.

(** C2.  On a position for which one of the three draw predicates holds,
    a call of [qSearch], and a call of [pvSearch] (which hands over to
    [qSearch] when [depth <= 0]), returns [SCORE_DRAW] with an empty PV
    unless it is aborted by the check at its entry.  The check of
    [pvSearch] at the root never aborts. *)
Theorem draw_returns_SCORE_DRAW
    fuel Me NT alpha beta depth ply pv0 c c1 :
  isDraw (position (sd c)) = true ->
  (qAbortCheck c = Some (false, c1) ->
   qSearch (S fuel) Me alpha beta depth ply pv0 c
   = Some ((SCORE_DRAW, []), c1)) /\
  ((if depth <=? 0 then qAbortCheck else pvAbortCheck NT) c
   = Some (false, c1) ->
   pvSearch (S fuel) Me NT alpha beta depth ply pv0 c
   = Some ((SCORE_DRAW, []), c1)).
Proof.
  intros Hdraw.
  assert (Hq : qAbortCheck c = Some (false, c1) ->
               qSearch (S fuel) Me alpha beta depth ply pv0 c
               = Some ((SCORE_DRAW, []), c1)).
  { intros Hchk. rewrite qSearch_S. unfold qBody.
    rewrite (bind_Some _ _ _ _ _ Hchk).
    unfold get at 1. rewrite (bind_Some _ _ c1 c1 c1 eq_refl).
    now rewrite (qAbortCheck_sd _ _ _ Hchk), Hdraw. }
  split; [exact Hq |].
  intros Hchk. rewrite pvSearch_S. unfold pvBody.
  destruct (depth <=? 0); [now apply Hq |].
  rewrite (bind_Some _ _ _ _ _ Hchk).
  unfold get at 1. rewrite (bind_Some _ _ c1 c1 c1 eq_refl).
  now rewrite (pvAbortCheck_sd _ _ _ _ Hchk), Hdraw.
Qed.

(** The other outcome of the check: an aborted call answers
    [-SCORE_INFINITE],
    drawn position or not. *)
Lemma aborted_returns_minus_infinite
    fuel Me NT alpha beta depth ply pv0 c c1 :
  (qAbortCheck c = Some (true, c1) ->
   qSearch (S fuel) Me alpha beta depth ply pv0 c
   = Some ((- SCORE_INFINITE, []), c1)) /\
  ((if depth <=? 0 then qAbortCheck else pvAbortCheck NT) c = Some (true, c1) ->
   pvSearch (S fuel) Me NT alpha beta depth ply pv0 c
   = Some ((- SCORE_INFINITE, []), c1)).
Proof.
  assert (Hq : qAbortCheck c = Some (true, c1) ->
               qSearch (S fuel) Me alpha beta depth ply pv0 c
               = Some ((- SCORE_INFINITE, []), c1)).
  { intros Hchk. rewrite qSearch_S. unfold qBody.
    now rewrite (bind_Some _ _ _ _ _ Hchk). }
  split; [exact Hq |].
  intros Hchk. rewrite pvSearch_S. unfold pvBody.
  destruct (depth <=? 0); [now apply Hq |].
  now rewrite (bind_Some _ _ _ _ _ Hchk).
Qed.

(** *** Searching a move shows in the node count *)

Lemma pvCallback_searched rec NT beta depth ply move lv c b lv' c' :
  (forall nt a b d pv, safe (rec nt a b d (ply + 1) pv)) ->
  skipped NT (limits (sd c)) move = false ->
  pvCallback rec NT beta depth ply move lv c = Some ((b, lv'), c') ->
  nbNodes (sd c) + 1 <= nbNodes (sd c') /\ limits (sd c') = limits (sd c).
Proof.
  intros Hrec Hskip H. unfold pvCallback in H.
  bind_inv H. inversion E; subst a c0; clear E.
  rewrite Hskip in H.
  bind_inv H. inversion E; subst a c0; clear E.
  apply safe_Frame in H.
  - destruct H as [Hn _ _ Hl _ _]. simpl in Hn, Hl. split; [lia | exact Hl].
  - safe_seq.
    apply safe_bind; [now apply safe_pvsChild | intros [score childPv]].
    do 2 safe_seq. destruct a1; safe_prim.
Qed.

Lemma enumerate_searched rec NT beta depth ply moves :
  (forall nt a b d pv, safe (rec nt a b d (ply + 1) pv)) ->
  forall lv c lv' c',
    (exists m, In m moves /\ skipped NT (limits (sd c)) m = false) ->
    enumerate moves (pvCallback rec NT beta depth ply) lv c = Some (lv', c') ->
    nbNodes (sd c) < nbNodes (sd c').
Proof.
  intros Hrec.
  induction moves as [| m rest IH]; intros lv c lv' c' (m0 & Hin & Hm0) H.
  - destruct Hin.
  - simpl in H. bind_inv H. destruct a as [continue lv1].
    destruct (skipped NT (limits (sd c)) m) eqn:Hskip.
    + assert (E' := E). unfold pvCallback, bind, get in E'.
      rewrite Hskip in E'. inversion E'; subst continue lv1 c0; clear E'.
      destruct Hin as [-> | Hin]; [congruence |].
      eapply IH; [| exact H]. now exists m0.
    + destruct (pvCallback_searched _ _ _ _ _ _ _ _ _ _ _ Hrec Hskip E)
        as [Hn Hl].
      assert (Hrest : Frame c0 c').
      { destruct continue.
        - eapply safe_Frame; [| exact H].
          apply safe_enumerate. intros; now apply safe_pvCallback.
        - inversion H; subst. apply Frame_refl. }
      destruct Hrest as [Hn' _ _ _ _ _]. lia.
Qed.

(** C3.  Take a call of [pvSearch] that reaches the table probe (positive
    depth, not aborted at its entry, no draw, ply below [MAX_PLY]).  It
    returns the stored score at once, with nothing searched and the state
    as the abort check left it, exactly when the node is not a PV node, the
    probe hit, the stored depth is at least [depth], the score read at this
    ply is not [SCORE_NONE] and [boundMatch(alpha, beta, ply)] holds.
    Otherwise it runs the move loop, and the node count grows as soon as
    one move is searched.  At a PV node, the root included, the condition
    never holds. *)
Theorem tt_cutoff_exactly_when
    fuel Me NT alpha beta depth ply pv0 c c1 :
  0 < depth ->
  pvAbortCheck NT c = Some (false, c1) ->
  isDraw (position (sd c1)) = false ->
  ply < MAX_PLY ->
  MAX_PLY - ply < Z.of_nat (S fuel) ->
  let t := tt (eng c1) in
  let pos := position (sd c1) in
  let ttHit := fst (tt_get t (hash pos)) in
  let tte := snd (tt_get t (hash pos)) in
  let cutoff :=
    negb (PvNode NT) && ttHit && (tte_depth t tte >=? depth)
    && negb (tte_score t tte ply =? SCORE_NONE)
    && tte_boundMatch t tte alpha beta ply in
  exists r c',
    pvSearch (S fuel) Me NT alpha beta depth ply pv0 c = Some (r, c') /\
    (cutoff = true -> r = (tte_score t tte ply, []) /\ c' = c1) /\
    (cutoff = false ->
       pvMoves (pvSearch fuel (flip Me)) Me NT alpha beta depth ply
               (inCheck pos) ttHit tte c1 = Some (r, c') /\
       ((exists m,
           In m (mp_moves MAIN Me pos
                   (if ttHit then tte_move t tte else MOVE_NONE)) /\
           skipped NT (limits (sd c1)) m = false) ->
        nbNodes (sd c1) < nbNodes (sd c'))) /\
    (PvNode NT = true -> cutoff = false).
Proof.
  intros Hdepth Hchk Hdraw Hply Hfuel t pos ttHit tte cutoff.
  assert (Hrec : forall nt a b d pv,
             safe (pvSearch fuel (flip Me) nt a b d (ply + 1) pv)).
  { intros. apply safe_pvSearch. lia. }
  assert (Hbody :
    pvSearch (S fuel) Me NT alpha beta depth ply pv0 c
    = if cutoff then Some ((tte_score t tte ply, []), c1)
      else pvMoves (pvSearch fuel (flip Me)) Me NT alpha beta depth ply
                   (inCheck pos) ttHit tte c1).
  { exact (pvSearch_past_ceiling _ _ _ _ _ _ _ _ _ _ Hdepth Hchk Hdraw
             Hply). }
  destruct cutoff eqn:Ecut.
  - exists (tte_score t tte ply, []), c1.
    repeat split; try congruence.
    intros Hpv. subst cutoff. rewrite Hpv in Ecut. discriminate.
  - destruct (safe_pvMoves (pvSearch fuel (flip Me)) Me NT alpha beta depth
                ply (inCheck pos) ttHit tte Hrec c1) as (r & c' & E & _).
    exists r, c'. rewrite Hbody.
    repeat split; try congruence.
    intros Hex. unfold pvMoves in E.
    bind_split E as lv c2 Eloop. unfold pvLoop in Eloop.
    bind_split Eloop as x cx Eget. inversion Eget; subst x cx; clear Eget.
    apply (enumerate_searched _ _ _ _ _ _ Hrec) in Eloop; [| exact Hex].
    bind_split E as ab c3 Eab.
    assert (F1 : Frame c2 c3) by exact (safe_Frame _ _ _ _ safe_searchAborted Eab).
    assert (F2 : Frame c3 c').
    { destruct ab; [inversion E; subst; apply Frame_refl |].
      destruct (_ =? 0); [inversion E; subst; apply Frame_refl |].
      eapply safe_Frame; [| exact E]. safe_seq. safe_prim. }
    destruct F1 as [n1 _ _ _ _ _], F2 as [n2 _ _ _ _ _]. lia.
Qed.

(** A root move that [searchMoves] does not list is handed to the lambda
    and passed over: nothing is counted and no search is made, whatever the
    recursive call would do. *)
Lemma pvCallback_skipped rec NT beta depth ply move lv c :
  skipped NT (limits (sd c)) move = true ->
  pvCallback rec NT beta depth ply move lv c = Some ((true, lv), c).
Proof.
  intros Hskip. unfold pvCallback, bind, get. now rewrite Hskip.
Qed.

(** A move that is not passed over reaches the two-search block with the
    counter just incremented. *)
Lemma pvCallback_not_skipped rec NT beta depth ply move lv c :
  skipped NT (limits (sd c)) move = false ->
  pvCallback rec NT beta depth ply move lv c
  = ('(score, childPv) <-
       pvsChild rec NT (l_nbMoves lv + 1) (l_alpha lv) beta depth ply
                (l_childPv lv) ;;
     unmakeMove move ;;;
     ab <- searchAborted ;;
     if ab then ret (false, counted childPv lv)
     else ret (adopt move score beta (counted childPv lv)))
      (with_sd (fun d => set_position (doMove (position d) move) d)
         (with_sd (fun d => set_nbNodes (nbNodes d + 1) d) c)).
Proof.
  intros Hskip. unfold pvCallback at 1, bind at 1, get. now rewrite Hskip.
Qed.

(** The two-search block watched on a list of calls: for a counter that is
    at least 1, the zero-window scout, [NonPV] with window
    [(-alpha-1, -alpha)], is the first call if and only if the node is not a
    PV node or [nbMoves > 1]; the full-window search, [PV] with window
    [(-beta, -alpha)], is the next call if and only if the node is a PV node
    and [nbMoves == 1] or the scout's score exceeded [alpha] and (the node
    is the root or that score was below [beta]).  There is no other call,
    and the score kept is that of the last call. *)
Lemma pvs_child_searches
    (answer : Call -> Z) NT nbMoves alpha beta depth ply childPv :
  1 <= nbMoves ->
  let scout := {| c_node := NonPV; c_alpha := - alpha - 1; c_beta := - alpha;
                  c_depth := depth - 1; c_ply := ply + 1 |} in
  let full := {| c_node := PV; c_alpha := - beta; c_beta := - alpha;
                 c_depth := depth - 1; c_ply := ply + 1 |} in
  let scouted := negb (PvNode NT) || (nbMoves >? 1) in
  let score := - answer scout in
  let researched :=
    PvNode NT && ((nbMoves =? 1)
                  || ((score >? alpha) && (RootNode NT || (score <? beta)))) in
  pvsChild (recorded answer) NT nbMoves alpha beta depth ply childPv []
  = Some ((if researched then - answer full else score, childPv),
          (if scouted then [scout] else [])
          ++ (if researched then [full] else [])).
Proof.
  intros Hn scout full scouted score researched.
  subst scouted researched. unfold pvsChild, bind, ret, recorded.
  destruct (nbMoves >? 1) eqn:Egt.
  - rewrite orb_true_r. fold scout. fold score.
    destruct (PvNode NT && _); reflexivity.
  - assert (nbMoves = 1) by (rewrite Z.gtb_ltb in Egt; apply Z.ltb_ge in Egt; lia).
    subst nbMoves. rewrite orb_false_r.
    destruct NT; simpl; reflexivity.
Qed.

(** C4 (as amended).  Take a call of [pvSearch] that reaches its move loop.
    The loop runs the lambda over the moves the picker yields, and the call
    returns what the loop leaves behind (first part); the moves are handed
    to the lambda one after the other until it asks to stop (second part).
    For each yielded move the lambda does the following, whatever the
    locals [lv] (with a counter that is not negative) and the state [c0]
    the move is reached with (third part).  A root move that [searchmoves] passes over is
    neither counted nor searched.  Any other move is counted and played;
    with [nbMoves] the counter just incremented and [alpha] the current
    one, the zero-window scout, [NonPV] with window [(-alpha-1, -alpha)],
    is made first if and only if the node is not a PV node or
    [nbMoves > 1]; the full-window search, [PV] with window
    [(-beta, -alpha)], is then made if and only if the node is a PV node and
    [nbMoves == 1] or the scout's score exceeded [alpha] and (the node is
    the root or that score was below [beta]).  No other search is made, and
    the lambda goes on (takes the move back, reads the abort flag, adopts)
    with the score and the child PV of the last search made. *)
Theorem pvSearch_move_searches fuel Me NT alpha beta depth ply pv0 c c1 :
  0 < depth ->
  pvAbortCheck NT c = Some (false, c1) ->
  isDraw (position (sd c1)) = false ->
  ply < MAX_PLY ->
  let t := tt (eng c1) in
  let pos := position (sd c1) in
  let probe := tt_get t (hash pos) in
  ttCutoff NT t (fst probe) (snd probe) alpha beta depth ply = false ->
  let rec := pvSearch fuel (flip Me) in
  let lambda := pvCallback rec NT beta depth ply in
  let moves :=
    mp_moves MAIN Me pos
             (if fst probe then tte_move t (snd probe) else MOVE_NONE) in
  let start := {| l_nbMoves := 0; l_bestScore := - SCORE_INFINITE;
                  l_bestMove := MOVE_NONE; l_alpha := alpha;
                  l_pv := []; l_childPv := [] |} in
  (forall lv c2 ab c3,
     enumerate moves lambda start c1 = Some (lv, c2) ->
     searchAborted c2 = Some (ab, c3) ->
     pvSearch (S fuel) Me NT alpha beta depth ply pv0 c
     = Some (if ab then ((l_bestScore lv, l_pv lv), c3)
             else if l_nbMoves lv =? 0
             then ((if inCheck pos then - SCORE_MATE + ply else SCORE_DRAW,
                    l_pv lv), c3)
             else ((l_bestScore lv, l_pv lv),
                   with_eng (set_tt
                     (tt_set (tt (eng c3)) (snd probe)
                             (hash (position (sd c3))) depth ply
                             (pvBound NT (l_bestScore lv) alpha beta)
                             (l_bestMove lv) SCORE_NONE (l_bestScore lv)
                             false)) c3))) /\
  (forall lv c0,
     enumerate [] lambda lv c0 = Some (lv, c0) /\
     forall move rest,
       enumerate (move :: rest) lambda lv c0
       = match lambda move lv c0 with
         | Some ((continue, lv'), c0') =>
             if continue then enumerate rest lambda lv' c0'
             else Some (lv', c0')
         | None => None
         end) /\
  (forall move lv c0,
     0 <= l_nbMoves lv ->
     let nbMoves := l_nbMoves lv + 1 in
     let a := l_alpha lv in
     let played :=
       with_sd (fun d => set_position (doMove (position d) move) d)
               (with_sd (fun d => set_nbNodes (nbNodes d + 1) d) c0) in
     let scout := rec NonPV (- a - 1) (- a) (depth - 1) (ply + 1) in
     let full := rec PV (- beta) (- a) (depth - 1) (ply + 1) in
     let researched (score : Z) :=
       PvNode NT && ((nbMoves =? 1)
                     || ((score >? a) && (RootNode NT || (score <? beta)))) in
     let finish (score : Z) (childPv : list Move) : K (bool * LoopVars) :=
       unmakeMove move ;;;
       ab <- searchAborted ;;
       if ab then ret (false, counted childPv lv)
       else ret (adopt move score beta (counted childPv lv)) in
     (skipped NT (limits (sd c0)) move = true ->
      lambda move lv c0 = Some ((true, lv), c0)) /\
     (skipped NT (limits (sd c0)) move = false ->
      lambda move lv c0
      = (if negb (PvNode NT) || (nbMoves >? 1) then
           '(s1, pv1) <- scout (l_childPv lv) ;;
           if researched (- s1)
           then '(s2, pv2) <- full pv1 ;; finish (- s2) pv2
           else finish (- s1) pv1
         else
           '(s2, pv2) <- full (l_childPv lv) ;; finish (- s2) pv2) played)).
Proof.
  intros Hdepth Hchk Hdraw Hply t pos probe Hcut rec lambda moves start.
  split; [| split].
  - intros lv c2 ab c3 Hloop Hab.
    rewrite (pvSearch_past_ceiling _ _ _ _ _ _ _ _ _ _ Hdepth Hchk Hdraw Hply).
    fold t. fold pos. fold probe. rewrite Hcut.
    assert (Eloop : pvLoop rec Me NT alpha beta depth ply
                           (fst probe) (snd probe) c1 = Some (lv, c2))
      by exact Hloop.
    unfold pvMoves. fold rec.
    rewrite (bind_Some _ _ _ _ _ Eloop), (bind_Some _ _ _ _ _ Hab).
    destruct ab; [reflexivity |].
    destruct (l_nbMoves lv =? 0); reflexivity.
  - intros lv c0. split; [reflexivity |].
    intros move rest. simpl. unfold bind.
    destruct (lambda move lv c0) as [[[continue lv'] c0'] |]; [| reflexivity].
    destruct continue; reflexivity.
  - intros move lv c0 Hn nbMoves a played scout full researched finish.
    split; [apply pvCallback_skipped |].
    intros Hskip. unfold lambda.
    rewrite (pvCallback_not_skipped _ _ _ _ _ _ _ _ Hskip).
    fold played. unfold pvsChild.
    subst researched scout full nbMoves a finish. cbv beta.
    destruct (l_nbMoves lv + 1 >? 1) eqn:Egt.
    + rewrite orb_true_r. unfold bind, ret.
      destruct (rec NonPV (- l_alpha lv - 1) (- l_alpha lv) (depth - 1)
                    (ply + 1) (l_childPv lv) played)
        as [[[s1 pv1] c1'] |]; [| reflexivity].
      destruct (PvNode NT && _); [| reflexivity].
      destruct (rec PV (- beta) (- l_alpha lv) (depth - 1) (ply + 1) pv1 c1')
        as [[[s2 pv2] c2'] |]; reflexivity.
    + assert (Hone : l_nbMoves lv + 1 = 1)
        by (rewrite Z.gtb_ltb in Egt; apply Z.ltb_ge in Egt; lia).
      rewrite Hone, orb_false_r. change (1 =? 1) with true.
      unfold bind, ret.
      destruct (PvNode NT); simpl.
      * destruct (rec PV (- beta) (- l_alpha lv) (depth - 1) (ply + 1)
                      (l_childPv lv) played)
          as [[[s2 pv2] c2'] |]; reflexivity.
      * destruct (rec NonPV (- l_alpha lv - 1) (- l_alpha lv) (depth - 1)
                      (ply + 1) (l_childPv lv) played)
          as [[[s1 pv1] c1'] |]; reflexivity.
Qed.

(** *** Quiescence *)

(** [qSearch] once past its abort check, the draw test and the ply
    ceiling. *)
Lemma qSearch_past_ceiling fuel Me alpha beta depth ply pv0 c c1 :
  qAbortCheck c = Some (false, c1) ->
  isDraw (position (sd c1)) = false ->
  ply < MAX_PLY ->
  let pos := position (sd c1) in
  let eval := evaluate Me pos in
  let rec := qSearch fuel (flip Me) in
  qSearch (S fuel) Me alpha beta depth ply pv0 c
  = if inCheck pos then
      qMoves rec Me alpha beta depth ply (- SCORE_MATE + ply) alpha
             SCORE_NONE true c1
    else if eval >=? beta then Some ((eval, []), c1)
    else qMoves rec Me (if eval >? alpha then eval else alpha) beta depth ply
                eval alpha eval false c1.
Proof.
  intros Hchk Hdraw Hply pos eval rec.
  rewrite qSearch_S. unfold qBody.
  rewrite (bind_Some _ _ _ _ _ Hchk).
  unfold get at 1. rewrite (bind_Some _ _ c1 c1 c1 eq_refl).
  rewrite Hdraw.
  replace (ply >=? MAX_PLY) with false
    by (symmetry; rewrite Z.geb_leb; apply Z.leb_gt; lia).
  fold pos. fold eval. fold rec.
  destruct (inCheck pos); simpl; [reflexivity |].
  destruct (eval >=? beta); reflexivity.
Qed.

(** At the ply ceiling the position is evaluated whether or not the side to
    move is in check; this return is not the standing pat. *)
Lemma qSearch_at_ceiling fuel Me alpha beta depth ply pv0 c c1 :
  qAbortCheck c = Some (false, c1) ->
  isDraw (position (sd c1)) = false ->
  MAX_PLY <= ply ->
  qSearch (S fuel) Me alpha beta depth ply pv0 c
  = Some ((evaluate Me (position (sd c1)), []), c1).
Proof.
  intros Hchk Hdraw Hply.
  rewrite qSearch_S. unfold qBody.
  rewrite (bind_Some _ _ _ _ _ Hchk).
  unfold get at 1. rewrite (bind_Some _ _ c1 c1 c1 eq_refl).
  rewrite Hdraw.
  replace (ply >=? MAX_PLY) with true
    by (symmetry; rewrite Z.geb_leb; apply Z.leb_le; lia).
  reflexivity.
Qed.

(** C5.  Take a call of [qSearch] that is past its abort check, the draw
    test and the ply ceiling.  When the side to move is not in check, the
    static evaluation [eval] is taken: if [eval >= beta] the call returns
    [eval] at once, with nothing searched; otherwise the moves are searched with
    [alpha] raised to [eval] when [eval > alpha] and with [bestScore]
    starting at [eval].  When the side to move is in check, the moves are
    searched with [alpha] as given and [bestScore] starting at
    [-SCORE_MATE + ply]; the evaluation is not taken (the value kept for
    the table is [SCORE_NONE]) and nothing cuts the search off. *)
Theorem qSearch_standing_pat fuel Me alpha beta depth ply pv0 c c1 :
  qAbortCheck c = Some (false, c1) ->
  isDraw (position (sd c1)) = false ->
  ply < MAX_PLY ->
  let pos := position (sd c1) in
  let eval := evaluate Me pos in
  let rec := qSearch fuel (flip Me) in
  let result := qSearch (S fuel) Me alpha beta depth ply pv0 c in
  (inCheck pos = false -> beta <= eval ->
   result = Some ((eval, []), c1)) /\
  (inCheck pos = false -> eval < beta ->
   result = qMoves rec Me (if eval >? alpha then eval else alpha) beta
                   depth ply eval alpha eval false c1) /\
  (inCheck pos = true ->
   result = qMoves rec Me alpha beta depth ply (- SCORE_MATE + ply) alpha
                   SCORE_NONE true c1).
Proof.
  intros Hchk Hdraw Hply pos eval rec result.
  subst result.
  rewrite (qSearch_past_ceiling _ _ _ _ _ _ _ _ _ Hchk Hdraw Hply).
  fold pos. fold eval. fold rec.
  repeat split.
  - intros -> Hge.
    replace (eval >=? beta) with true
      by (symmetry; rewrite Z.geb_leb; apply Z.leb_le; lia).
    reflexivity.
  - intros -> Hlt.
    replace (eval >=? beta) with false
      by (symmetry; rewrite Z.geb_leb; apply Z.leb_gt; lia).
    reflexivity.
  - intros ->. reflexivity.
Qed.

(** C6.  Take a call of [qSearch] that reaches its move loop: past the abort
    check, the draw test and the ply ceiling, and not cut off by the
    standing pat.  If the search is not aborted when the loop ends, the
    call writes the slot it probed before the loop with depth 1 when the
    side to move was in check and 0 otherwise, with the standing-pat evaluation as static
    evaluation when not in check and [SCORE_NONE] when in check, and with
    bound [LOWER] if [bestScore >= beta], [UPPER] if [bestScore] is at most
    the [alpha] the call was entered with, [EXACT] otherwise, whatever the
    kind of node.  It returns [bestScore]. *)
Theorem qSearch_tt_store
    fuel Me alpha beta depth ply pv0 c c1 lv c2 c3 :
  qAbortCheck c = Some (false, c1) ->
  isDraw (position (sd c1)) = false ->
  ply < MAX_PLY ->
  let pos := position (sd c1) in
  let inChk := inCheck pos in
  let eval := evaluate Me pos in
  let probe := tt_get (tt (eng c1)) (hash pos) in
  (inChk = false -> eval < beta) ->
  qLoop (qSearch fuel (flip Me)) Me
        (if inChk then alpha else if eval >? alpha then eval else alpha)
        beta depth ply
        (if inChk then - SCORE_MATE + ply else eval)
        (fst probe) (snd probe) c1 = Some (lv, c2) ->
  searchAborted c2 = Some (false, c3) ->
  let bestScore := l_bestScore lv in
  let bound := if beta <=? bestScore then BOUND_LOWER
               else if bestScore <=? alpha then BOUND_UPPER
               else BOUND_EXACT in
  qSearch (S fuel) Me alpha beta depth ply pv0 c
  = Some ((bestScore, l_pv lv),
          with_eng (set_tt
            (tt_set (tt (eng c3)) (snd probe) (hash (position (sd c3)))
                    (if inChk then 1 else 0) ply bound (l_bestMove lv)
                    (if inChk then SCORE_NONE else eval) bestScore false))
            c3).
Proof.
  intros Hchk Hdraw Hply pos inChk eval probe Hpat Hloop Hab bestScore bound.
  rewrite (qSearch_past_ceiling _ _ _ _ _ _ _ _ _ Hchk Hdraw Hply).
  fold pos. fold inChk. fold eval.
  assert (Hbound : qBound bestScore alpha beta = bound).
  { unfold qBound, bound. now rewrite Z.geb_leb. }
  destruct inChk eqn:Echk.
  - unfold qMoves. unfold get at 1.
    rewrite (bind_Some _ _ c1 c1 c1 eq_refl).
    fold pos. fold probe. destruct probe as [ttHit tte] eqn:Eprobe.
    simpl in Hloop. rewrite (bind_Some _ _ _ _ _ Hloop).
    rewrite (bind_Some _ _ _ _ _ Hab).
    fold bestScore. rewrite Hbound. reflexivity.
  - replace (eval >=? beta) with false
      by (symmetry; rewrite Z.geb_leb; apply Z.leb_gt; auto).
    unfold qMoves. unfold get at 1.
    rewrite (bind_Some _ _ c1 c1 c1 eq_refl).
    fold pos. fold probe. destruct probe as [ttHit tte] eqn:Eprobe.
    simpl in Hloop. rewrite (bind_Some _ _ _ _ _ Hloop).
    rewrite (bind_Some _ _ _ _ _ Hab).
    fold bestScore. rewrite Hbound. reflexivity.
Qed.

(** *** The earlier revision's draw return

    It is 1 or -1 according to bit 1 of the node count, never
    [SCORE_DRAW]. *)
Lemma land_two n : Z.land n 2 = if Z.testbit n 1 then 2 else 0.
Proof.
  apply Z.bits_inj'. intros i Hi.
  rewrite Z.land_spec. change 2 with (2 ^ 1).
  rewrite Z.pow2_bits_eqb by lia.
  destruct (Z.eqb_spec 1 i) as [<- | Hne].
  - destruct (Z.testbit n 1); reflexivity.
  - rewrite andb_false_r.
    destruct (Z.testbit n 1).
    + symmetry. rewrite Z.pow2_bits_eqb by lia. now apply Z.eqb_neq.
    + symmetry. apply Z.bits_0.
Qed.

Lemma Revision1_draw_jitter n :
  (Revision1.drawReturn n = 1 \/ Revision1.drawReturn n = - 1)
  /\ Revision1.drawReturn n <> SCORE_DRAW.
Proof.
  unfold Revision1.drawReturn, SCORE_DRAW. rewrite land_two.
  destruct (Z.testbit n 1); lia.
Qed.

(** ** Iterative deepening *)

Lemma idAdopt_eq depth score pv c :
  idAdopt depth score pv c
  = Some (((maxDepth (limits (sd c)) >? 0)
           && (depth >=? maxDepth (limits (sd c))),
           {| i_depth := depth; i_completedDepth := depth;
              i_bestPv := pv; i_bestScore := score |}),
          emitted (progressOf depth score pv c) (observed c)).
Proof. reflexivity. Qed.

Lemma idLoop_O Me iv :
  idLoop O Me iv = if i_depth iv <? MAX_PLY then fail else ret iv.
Proof. reflexivity. Qed.

Lemma idLoop_S n Me iv :
  idLoop (S n) Me iv
  = if i_depth iv <? MAX_PLY then
      let depth := i_depth iv in
      '(score, pv) <- pvSearch kernelFuel Me Root (- SCORE_INFINITE)
                               SCORE_INFINITE depth 0 [] ;;
      brk <- (if depth >? 1 then searchAborted else ret false) ;;
      if brk then ret iv else
      '(brk, iv') <- idAdopt depth score pv ;;
      if brk then ret iv' else
      idLoop n Me {| i_depth := depth + 1;
                     i_completedDepth := i_completedDepth iv';
                     i_bestPv := i_bestPv iv';
                     i_bestScore := i_bestScore iv' |}
    else ret iv.
Proof. reflexivity. Qed.

Lemma idPost_refl c iv : idPost c iv iv c.
Proof.
  split; [reflexivity |]. exists []. rewrite app_nil_r.
  repeat split; auto.
Qed.

(** The loop returns, and leaves [idPost] behind. *)
Lemma idLoop_runs Me n : forall iv c,
  MAX_PLY - i_depth iv <= Z.of_nat n ->
  exists iv' c', idLoop n Me iv c = Some (iv', c') /\ idPost c iv iv' c'.
Proof.
  induction n as [| n IH]; intros iv c Hn.
  - rewrite idLoop_O.
    replace (i_depth iv <? MAX_PLY) with false
      by (symmetry; apply Z.ltb_ge; lia).
    exists iv, c. split; [reflexivity | apply idPost_refl].
  - rewrite idLoop_S.
    destruct (i_depth iv <? MAX_PLY) eqn:Elt;
      [| exists iv, c; split; [reflexivity | apply idPost_refl]].
    cbv zeta.
    destruct (safe_root_call Me (- SCORE_INFINITE) SCORE_INFINITE
                (i_depth iv) [] c) as ([score pv] & c1 & E1 & F1).
    rewrite (bind_Some _ _ _ _ _ E1).
    assert (Hbrk : exists brk c2,
               (if i_depth iv >? 1 then searchAborted else ret false) c1
               = Some (brk, c2) /\ Frame c1 c2).
    { destruct (i_depth iv >? 1).
      - apply safe_searchAborted.
      - exists false, c1. split; [reflexivity | apply Frame_refl]. }
    destruct Hbrk as (brk & c2 & E2 & F2).
    rewrite (bind_Some _ _ _ _ _ E2).
    assert (F : Frame c c2) by (eapply Frame_trans; eassumption).
    destruct F as [_ Fout Fsearching _ _ _].
    destruct brk.
    { exists iv, c2. split; [reflexivity |].
      split; [exact Fsearching |]. exists []. rewrite app_nil_r.
      repeat split; auto. }
    rewrite (bind_Some _ _ _ _ _ (idAdopt_eq _ _ _ _)).
    set (x := progressOf (i_depth iv) score pv c2).
    assert (Hx : progressEvent (searching (eng c)) x)
      by (split; [reflexivity | exact Fsearching]).
    destruct (_ && _).
    { eexists _, _. split; [reflexivity |].
      split; [exact Fsearching |]. exists [x]. simpl. rewrite Fout.
      repeat split; auto.
      right. exists [], x. simpl. repeat split; auto; lia. }
    cbv beta iota. simpl i_completedDepth. simpl i_bestPv. simpl i_bestScore.
    match goal with
    | |- context [idLoop n Me ?next ?c3] =>
        destruct (IH next c3) as (iv' & c' & E3 & Hs & ps & Hout & Hall & Hlast);
          [simpl; lia |]
    end.
    exists iv', c'. split; [exact E3 |].
    simpl in Hs, Hout, Hall.
    split; [now rewrite Hs |].
    exists (x :: ps). rewrite Hout, Fout, <- app_assoc. simpl.
    repeat split; auto.
    { constructor; [exact Hx |]. now rewrite <- Fsearching. }
    right. destruct Hlast as [(-> & ->) | (ps0 & y & -> & Hd & Hr & Hle & Hdepth)].
    + exists [], x. simpl. repeat split; auto; lia.
    + exists (x :: ps0), y. simpl in Hle.
      split; [reflexivity |]. split; [exact Hd |]. split; [exact Hr |].
      split; [lia | exact Hdepth].
Qed.

(** One iteration, once the root search has returned and the loop has
    decided whether to break. *)
Lemma idLoop_step n Me iv c score pv c1 brk c2 :
  i_depth iv < MAX_PLY ->
  pvSearch kernelFuel Me Root (- SCORE_INFINITE) SCORE_INFINITE
           (i_depth iv) 0 [] c = Some ((score, pv), c1) ->
  (if i_depth iv >? 1 then searchAborted else ret false) c1
  = Some (brk, c2) ->
  let depth := i_depth iv in
  let c3 := emitted (progressOf depth score pv c2) (observed c2) in
  idLoop (S n) Me iv c
  = if brk then Some (iv, c2)
    else if (maxDepth (limits (sd c2)) >? 0)
            && (depth >=? maxDepth (limits (sd c2)))
    then Some ({| i_depth := depth; i_completedDepth := depth;
                  i_bestPv := pv; i_bestScore := score |}, c3)
    else idLoop n Me {| i_depth := depth + 1; i_completedDepth := depth;
                        i_bestPv := pv; i_bestScore := score |} c3.
Proof.
  intros Hlt Hroot E depth c3. rewrite idLoop_S.
  replace (i_depth iv <? MAX_PLY) with true
    by (symmetry; apply Z.ltb_lt; lia).
  cbv zeta.
  rewrite (bind_Some _ _ _ _ _ Hroot), (bind_Some _ _ _ _ _ E).
  destruct brk; [reflexivity |].
  rewrite (bind_Some _ _ _ _ _ (idAdopt_eq _ _ _ _)).
  destruct (_ && _); reflexivity.
Qed.

(** C7 (as amended).  One iteration of the loop, at depth [depth], whose
    root search has returned [(score, pv)].  At depth 1 the result is
    adopted without the abort flag being read: [bestPv], [bestScore] and
    [completedDepth] take [pv], [score] and 1, and the progress event is
    sent.  At a depth above 1 the flag is read: if the search is aborted the
    loop ends with its variables as they were and nothing sent (the result
    is discarded); if not, the result is adopted in the same way.  Nothing
    is said about [pv] holding a move. *)
Theorem idLoop_adoption n Me iv c score pv c1 :
  i_depth iv < MAX_PLY ->
  pvSearch kernelFuel Me Root (- SCORE_INFINITE) SCORE_INFINITE
           (i_depth iv) 0 [] c = Some ((score, pv), c1) ->
  let depth := i_depth iv in
  let adopted := {| i_depth := depth; i_completedDepth := depth;
                    i_bestPv := pv; i_bestScore := score |} in
  let next := {| i_depth := depth + 1; i_completedDepth := depth;
                 i_bestPv := pv; i_bestScore := score |} in
  let kept (c2 : Ctx) :=
    let c3 := emitted (progressOf depth score pv c2) (observed c2) in
    idLoop (S n) Me iv c
    = if (maxDepth (limits (sd c2)) >? 0)
         && (depth >=? maxDepth (limits (sd c2)))
      then Some (adopted, c3)
      else idLoop n Me next c3 in
  (depth <= 1 -> kept c1) /\
  (1 < depth ->
   forall ab c2, searchAborted c1 = Some (ab, c2) ->
     if ab then idLoop (S n) Me iv c = Some (iv, c2) /\ out c2 = out c
     else kept c2).
Proof.
  intros Hlt Hroot depth adopted next kept.
  split.
  - intros Hd. unfold kept.
    apply (idLoop_step n Me iv c score pv c1 false c1 Hlt Hroot).
    fold depth.
    replace (depth >? 1) with false
      by (symmetry; rewrite Z.gtb_ltb; apply Z.ltb_ge; lia).
    reflexivity.
  - intros Hd ab c2 Hab.
    assert (E : (if i_depth iv >? 1 then searchAborted else ret false) c1
                = Some (ab, c2)).
    { fold depth.
      replace (depth >? 1) with true
        by (symmetry; rewrite Z.gtb_ltb; apply Z.ltb_lt; lia).
      exact Hab. }
    pose proof (idLoop_step n Me iv c score pv c1 ab c2 Hlt Hroot E) as Hstep.
    destruct ab.
    + split; [exact Hstep |].
      pose proof (safe_Frame _ _ _ _ (safe_root_call _ _ _ _ _) Hroot) as F1.
      pose proof (safe_Frame _ _ _ _ safe_searchAborted Hab) as F2.
      destruct F1 as [_ o1 _ _ _ _], F2 as [_ o2 _ _ _ _]. congruence.
    + exact Hstep.
Qed.

(** From the start of [idSearch]: whatever the depth-1 root search returns,
    aborted or not, is what the first progress event reports, and the loop
    ends with a completed depth of at least 1. *)
Lemma idLoop_adopts_depth_one Me c score pv c1 :
  1 < MAX_PLY ->
  pvSearch kernelFuel Me Root (- SCORE_INFINITE) SCORE_INFINITE 1 0 [] c
  = Some ((score, pv), c1) ->
  exists iv c' rest,
    idLoop (Z.to_nat MAX_PLY) Me idStart c = Some (iv, c') /\
    out c' = out c ++ progressOf 1 score pv c1 :: rest /\
    1 <= i_completedDepth iv.
Proof.
  intros Hmax Hroot.
  destruct (Z.to_nat MAX_PLY) as [| n] eqn:En; [lia |].
  assert (Hout1 : out c1 = out c).
  { pose proof (safe_Frame _ _ _ _ (safe_root_call _ _ _ _ _) Hroot) as F.
    now destruct F. }
  rewrite (idLoop_step n Me idStart c score pv c1 false c1 Hmax Hroot eq_refl).
  cbv zeta. simpl i_depth.
  destruct (_ && _).
  - eexists _, _, []. split; [reflexivity |]. simpl. rewrite Hout1.
    split; [reflexivity | lia].
  - match goal with
    | |- context [idLoop n Me ?next ?c3] =>
        destruct (idLoop_runs Me n next c3)
          as (iv & c' & E & _ & ps & Hout & _ & Hlast); [simpl; lia |]
    end.
    exists iv, c', ps. split; [exact E |].
    split.
    + rewrite Hout. simpl. rewrite Hout1, <- app_assoc. reflexivity.
    + destruct Hlast as [(_ & ->) | (ps0 & x & _ & _ & _ & Hle & _)];
        simpl in *; lia.
Qed.

Lemma idExit_eq iv c :
  let e := {| ev_depth := i_depth iv; ev_pv := i_bestPv iv;
              ev_bestScore := i_bestScore iv;
              ev_nbNodes := nbNodes (sd c);
              ev_elapsed := clock c (tick c) - startTime (sd c);
              ev_hashfull := tt_usage (tt (eng c)) |} in
  exists c',
    idExit iv c = Some (Datatypes.tt, c') /\
    out c' = out c
             ++ (if i_depth iv =? i_completedDepth iv then []
                 else [extraProgress (searching (eng c)) e])
             ++ [finishOf (searching (eng c)) e] /\
    searching (eng c') = false.
Proof.
  intros e. unfold idExit, mkEvent, getElapsed, now, get, emit, modify,
    bind, ret. simpl.
  destruct (i_depth iv =? i_completedDepth iv); simpl;
    eexists; (split; [reflexivity |]); simpl; (split; [| reflexivity]).
  - reflexivity.
  - now rewrite <- app_assoc.
Qed.

(** C8 (as amended).  [idSearch] returns.  During the loop it sends progress
    events only, the last of which is the one of the accepted depth.  On
    exit it builds one event from the loop's current [depth] and the
    accepted [bestPv] and [bestScore]; if [depth] differs from
    [completedDepth] it sends that event once more as a progress event, so
    this additional event carries the accepted PV and score under a depth
    that is not the accepted one; then it sends the same event to the
    finish sink, once, after every progress event.  [searching] still has
    its value while each sink runs and is cleared after the finish sink. *)
Theorem idSearch_events Me c :
  exists iv c1 c' ps e,
    idLoop (Z.to_nat MAX_PLY) Me idStart c = Some (iv, c1) /\
    idSearch Me c = Some (Datatypes.tt, c') /\
    out c1 = out c ++ ps /\
    Forall (progressEvent (searching (eng c))) ps /\
    (ps = [] \/
     exists ps0 x, ps = ps0 ++ [x] /\
                   ev_depth (event x) = i_completedDepth iv /\
                   reports iv (event x)) /\
    ev_depth e = i_depth iv /\
    reports iv e /\
    out c' = out c1
             ++ (if i_depth iv =? i_completedDepth iv then []
                 else [extraProgress (searching (eng c)) e])
             ++ [finishOf (searching (eng c)) e] /\
    searching (eng c') = false.
Proof.
  destruct (idLoop_runs Me (Z.to_nat MAX_PLY) idStart c)
    as (iv & c1 & Eloop & Hs & ps & Hout & Hall & Hlast).
  { simpl. lia. }
  destruct (idExit_eq iv c1) as (c' & Eexit & Hout' & Hclr).
  exists iv, c1, c', ps. eexists.
  split; [exact Eloop |].
  split; [unfold idSearch; now rewrite (bind_Some _ _ _ _ _ Eloop) |].
  split; [exact Hout |]. split; [exact Hall |].
  split.
  { destruct Hlast as [(-> & _) | (ps0 & x & -> & Hd & Hr & _)]; [now left |].
    right. now exists ps0, x. }
  split; [| split; [| split; [rewrite <- Hs; exact Hout' | exact Hclr]]].
  - reflexivity.
  - split; reflexivity.
Qed.

(** ** Engine facade *)

(** C9.  A call of [search] made while [searching] is set leaves the engine
    as it is (table, [aborted] flag and position included) and starts no
    worker.  A call made while it is clear empties the table, clears
    [aborted], sets [searching], keeps the position, and starts the worker
    on a fresh [SearchData] holding a copy of the position, the limits and
    a node count of zero. *)
Theorem search_reentry_guard (e : Engine) (lims : SearchLimits) (t : Z) :
  (searching e = true -> search e lims t = (e, None)) /\
  (searching e = false ->
   exists data,
     search e lims t
     = ({| rootPosition := rootPosition e; tt := tt_clear (tt e);
           aborted := false; searching := true |}, Some data) /\
     position data = rootPosition e /\
     limits data = lims /\
     nbNodes data = 0 /\
     startTime data = t).
Proof.
  split; intros Hs; unfold search; rewrite Hs.
  - reflexivity.
  - eexists. split; [reflexivity |]. repeat split.
Qed.

(** ** Further properties of the kernel *)

(** *** Relations every kernel computation keeps

    For a reflexive and transitive relation that the primitive actions
    respect, every call of the kernel that returns respects it. *)
Section Preservation.

Variable R : Ctx -> Ctx -> Prop.
Hypothesis R_refl : forall c, R c c.
Hypothesis R_trans : forall c1 c2 c3, R c1 c2 -> R c2 c3 -> R c1 c3.
Hypothesis R_observed : forall c, R c (observed c).
Hypothesis R_aborted : forall c b,
  (aborted (eng c) = true -> b = true) -> R c (with_eng (set_aborted b) c).
Hypothesis R_nodes : forall c,
  R c (with_sd (fun d => set_nbNodes (nbNodes d + 1) d) c).
Hypothesis R_position : forall c (f : Position -> Position),
  R c (with_sd (fun d => set_position (f (position d)) d) c).
Hypothesis R_tt : forall c t, R c (with_eng (set_tt t) c).

Lemma preserves_ret {A} (a : A) : preserves R (ret a).
Proof. intros c a' c' E. inversion E; subst. apply R_refl. Qed.

Lemma preserves_bind {A B} (m : K A) (k : A -> K B) :
  preserves R m -> (forall a, preserves R (k a)) -> preserves R (bind m k).
Proof.
  intros Hm Hk c b c' E. bind_split E as a c1 E1.
  eapply R_trans; [exact (Hm _ _ _ E1) | exact (Hk _ _ _ _ E)].
Qed.

Lemma preserves_get : preserves R get.
Proof. intros c a c' E. inversion E; subst. apply R_refl. Qed.

Lemma preserves_now : preserves R now.
Proof. intros c a c' E. inversion E; subst. apply R_observed. Qed.

Lemma preserves_stop : preserves R stop.
Proof. intros c a c' E. inversion E; subst. now apply R_aborted. Qed.

Lemma preserves_searchAborted : preserves R searchAborted.
Proof.
  intros c a c' E. inversion E; subst.
  eapply R_trans; [| apply R_observed].
  apply R_aborted. intros ->. reflexivity.
Qed.

Lemma preserves_countNode : preserves R countNode.
Proof. intros c a c' E. inversion E; subst. apply R_nodes. Qed.

Lemma preserves_makeMove m : preserves R (makeMove m).
Proof.
  intros c a c' E. inversion E; subst.
  apply (R_position c (fun p => doMove p m)).
Qed.

Lemma preserves_unmakeMove m : preserves R (unmakeMove m).
Proof.
  intros c a c' E. inversion E; subst.
  apply (R_position c (fun p => undoMove p m)).
Qed.

Lemma preserves_set_tt (f : Ctx -> TranspositionTable) :
  preserves R (modify (fun c => with_eng (set_tt (f c)) c)).
Proof. intros c a c' E. inversion E; subst. apply R_tt. Qed.

Lemma preserves_shouldStop : preserves R shouldStop.
Proof.
  unfold shouldStop, getElapsed.
  apply preserves_bind; [apply preserves_get | intros c].
  apply preserves_bind; [| intros t; apply preserves_ret].
  apply preserves_bind; [apply preserves_now | intros t].
  apply preserves_bind; [apply preserves_get | intros c'; apply preserves_ret].
Qed.

Lemma preserves_qAbortCheck : preserves R qAbortCheck.
Proof.
  unfold qAbortCheck.
  apply preserves_bind; [apply preserves_shouldStop | intros s].
  apply preserves_bind; [| intros _; apply preserves_searchAborted].
  destruct s; [apply preserves_stop | apply preserves_ret].
Qed.

Lemma preserves_pvAbortCheck NT : preserves R (pvAbortCheck NT).
Proof.
  unfold pvAbortCheck.
  apply preserves_bind.
  - destruct (negb (RootNode NT)); [| apply preserves_ret].
    apply preserves_bind; [apply preserves_shouldStop | intros s].
    destruct s; [apply preserves_stop | apply preserves_ret].
  - intros _. destruct (negb (RootNode NT));
      [apply preserves_searchAborted | apply preserves_ret].
Qed.

Lemma preserves_enumerate moves callback :
  (forall m lv, preserves R (callback m lv)) ->
  forall lv, preserves R (enumerate moves callback lv).
Proof.
  intros Hcb. induction moves as [| m rest IH]; intros lv; simpl.
  - apply preserves_ret.
  - apply preserves_bind; [apply Hcb | intros [continue lv']].
    destruct continue; [apply IH | apply preserves_ret].
Qed.

Ltac pres_prim :=
  first
    [ apply preserves_ret
    | apply preserves_get
    | apply preserves_searchAborted
    | apply preserves_countNode
    | apply preserves_makeMove
    | apply preserves_unmakeMove
    | apply preserves_qAbortCheck
    | apply preserves_pvAbortCheck
    | apply preserves_set_tt ].

Ltac pres_seq := apply preserves_bind; [pres_prim | intros ?].

Ltac pres_if :=
  match goal with
  | |- preserves _ (if ?b then _ else _) => destruct b
  end.

Lemma preserves_qBody rec Me alpha beta depth ply pv :
  (forall a b d p pv', preserves R (rec a b d p pv')) ->
  preserves R (qBody rec Me alpha beta depth ply pv).
Proof.
  intros Hrec.
  assert (Hmoves : forall a bs ao ev ic,
            preserves R (qMoves rec Me a beta depth ply bs ao ev ic)).
  { intros. unfold qMoves. pres_seq.
    destruct (tt_get _ _) as [ttHit tte].
    apply preserves_bind; [| intros lv].
    { unfold qLoop. pres_seq. apply preserves_enumerate.
      intros m lv. unfold qCallback. do 2 pres_seq.
      apply preserves_bind; [apply Hrec | intros [s childPv]].
      do 2 pres_seq. pres_if; pres_prim. }
    pres_seq. pres_if; [pres_prim |]. pres_seq. pres_prim. }
  unfold qBody. pres_seq.
  pres_if; [pres_prim |]. pres_seq.
  destruct (isDraw _); [pres_prim |].
  destruct (ply >=? MAX_PLY); [pres_prim |].
  destruct (negb _); [| apply Hmoves].
  destruct (_ >=? beta); [pres_prim | apply Hmoves].
Qed.

Lemma preserves_qSearch fuel : forall Me alpha beta depth ply pv,
  preserves R (qSearch fuel Me alpha beta depth ply pv).
Proof.
  induction fuel as [| fuel IH]; intros.
  - intros c a c' E. discriminate E.
  - rewrite qSearch_S. apply preserves_qBody. intros; apply IH.
Qed.

Lemma preserves_pvsChild rec NT nbMoves alpha beta depth ply childPv :
  (forall nt a b d p pv, preserves R (rec nt a b d p pv)) ->
  preserves R (pvsChild rec NT nbMoves alpha beta depth ply childPv).
Proof.
  intros Hrec. unfold pvsChild.
  apply preserves_bind; [| intros [score cpv]].
  { destruct (_ || _); [| pres_prim].
    apply preserves_bind; [apply Hrec | intros [s cpv]]. pres_prim. }
  destruct (_ && _); [| pres_prim].
  apply preserves_bind; [apply Hrec | intros [s cpv']]. pres_prim.
Qed.

Lemma preserves_pvBody qrec rec Me NT alpha beta depth ply pv :
  (forall a b d p pv', preserves R (qrec a b d p pv')) ->
  (forall nt a b d p pv', preserves R (rec nt a b d p pv')) ->
  preserves R (pvBody qrec rec Me NT alpha beta depth ply pv).
Proof.
  intros Hq Hrec. unfold pvBody.
  destruct (depth <=? 0); [apply Hq |].
  pres_seq. pres_if; [pres_prim |]. pres_seq.
  destruct (isDraw _); [pres_prim |].
  destruct (ply >=? MAX_PLY); [pres_prim |].
  destruct (tt_get _ _) as [ttHit tte].
  destruct (ttCutoff _ _ _ _ _ _ _ _); [pres_prim |].
  unfold pvMoves.
  apply preserves_bind; [| intros lv].
  { unfold pvLoop. pres_seq. apply preserves_enumerate.
    intros m lv. unfold pvCallback. pres_seq.
    destruct (skipped _ _ _); [pres_prim |].
    do 2 pres_seq.
    apply preserves_bind;
      [now apply preserves_pvsChild | intros [score childPv]].
    do 2 pres_seq. pres_if; pres_prim. }
  pres_seq. pres_if; [pres_prim |].
  destruct (_ =? 0); [pres_prim |].
  pres_seq. pres_prim.
Qed.

Lemma preserves_pvSearch fuel : forall Me NT alpha beta depth ply pv,
  preserves R (pvSearch fuel Me NT alpha beta depth ply pv).
Proof.
  induction fuel as [| fuel IH]; intros.
  - intros c a c' E. discriminate E.
  - rewrite pvSearch_S. apply preserves_pvBody.
    + intros; apply preserves_qSearch.
    + intros; apply IH.
Qed.

End Preservation.

Lemma Keeps_refl c : Keeps c c.
Proof. constructor; auto. Qed.

Lemma Keeps_trans c1 c2 c3 : Keeps c1 c2 -> Keeps c2 c3 -> Keeps c1 c3.
Proof.
  intros [a1 a2 a3 a4 a5] [b1 b2 b3 b4 b5].
  constructor; try congruence; [auto | lia].
Qed.

Ltac keeps_prim := intros; constructor; simpl; auto.

Lemma pvSearch_Keeps fuel Me NT alpha beta depth ply pv c r c' :
  pvSearch fuel Me NT alpha beta depth ply pv c = Some (r, c') -> Keeps c c'.
Proof.
  apply (preserves_pvSearch Keeps Keeps_refl Keeps_trans);
    keeps_prim.
Qed.

Lemma qSearch_Keeps fuel Me alpha beta depth ply pv c r c' :
  qSearch fuel Me alpha beta depth ply pv c = Some (r, c') -> Keeps c c'.
Proof.
  apply (preserves_qSearch Keeps Keeps_refl Keeps_trans);
    keeps_prim.
Qed.

(** X3.  A call of [pvSearch] or [qSearch] never clears the abort flag: if
    [aborted] is set when the call begins, it is set when the call returns.
    Nor does it write the engine's own position or the start and allocated
    times of the search data. *)
Theorem kernel_never_clears_aborted fuel Me NT alpha beta depth ply pv c r c' :
  pvSearch fuel Me NT alpha beta depth ply pv c = Some (r, c')
  \/ qSearch fuel Me alpha beta depth ply pv c = Some (r, c') ->
  Keeps c c'.
Proof.
  intros [E | E].
  - exact (pvSearch_Keeps _ _ _ _ _ _ _ _ _ _ _ E).
  - exact (qSearch_Keeps _ _ _ _ _ _ _ _ _ _ E).
Qed.

(** *** Calls made once the search is aborted *)

Lemma searchAborted_set c :
  aborted (eng c) = true ->
  searchAborted c = Some (true, observed (with_eng (set_aborted true) c)).
Proof. intros H. unfold searchAborted. now rewrite H. Qed.

Lemma qAbortCheck_set c :
  aborted (eng c) = true ->
  exists c1, qAbortCheck c = Some (true, c1) /\
             sd c1 = sd c /\ tt (eng c1) = tt (eng c) /\ out c1 = out c /\
             aborted (eng c1) = true.
Proof.
  intros H.
  unfold qAbortCheck, shouldStop, getElapsed, now, get, stop, modify, bind,
    ret, searchAborted. simpl.
  destruct (_ || _); simpl; rewrite ?H; simpl;
    eexists; (split; [reflexivity |]); simpl; auto.
Qed.

(** X4.  Once the abort flag is set, every call of [qSearch] and every call
    of [pvSearch] other than a root call at positive depth returns
    [-SCORE_INFINITE] with an empty PV at once: the search data (position
    and node count) and the table are as they were, and the flag is still
    set. *)
Theorem aborted_call_returns_at_once fuel Me NT alpha beta depth ply pv0 c :
  aborted (eng c) = true ->
  (exists c',
     qSearch (S fuel) Me alpha beta depth ply pv0 c
     = Some ((- SCORE_INFINITE, []), c') /\
     sd c' = sd c /\ tt (eng c') = tt (eng c) /\ aborted (eng c') = true) /\
  (RootNode NT = false \/ depth <= 0 ->
   exists c',
     pvSearch (S fuel) Me NT alpha beta depth ply pv0 c
     = Some ((- SCORE_INFINITE, []), c') /\
     sd c' = sd c /\ tt (eng c') = tt (eng c) /\ aborted (eng c') = true).
Proof.
  intros Hab.
  destruct (qAbortCheck_set c Hab) as (c1 & E1 & Hsd & Htt & _ & Hab1).
  assert (Hq : qSearch (S fuel) Me alpha beta depth ply pv0 c
               = Some ((- SCORE_INFINITE, []), c1)).
  { rewrite qSearch_S. unfold qBody. now rewrite (bind_Some _ _ _ _ _ E1). }
  split; [exists c1; auto |].
  intros Hnt. exists c1. split; [| auto].
  rewrite pvSearch_S. unfold pvBody.
  destruct (depth <=? 0) eqn:Ed; [exact Hq |].
  destruct Hnt as [Hnt | Hd]; [| apply Z.leb_gt in Ed; lia].
  assert (E : pvAbortCheck NT c = Some (true, c1)).
  { unfold pvAbortCheck. rewrite Hnt. exact E1. }
  now rewrite (bind_Some _ _ _ _ _ E).
Qed.

Lemma enumerate_cons move rest callback lv c :
  enumerate (move :: rest) callback lv c
  = match callback move lv c with
    | Some ((continue, lv'), c1) =>
        if continue then enumerate rest callback lv' c1 else Some (lv', c1)
    | None => None
    end.
Proof.
  simpl. unfold bind.
  destruct (callback move lv c) as [[[continue lv'] c1] |]; [| reflexivity].
  destruct continue; reflexivity.
Qed.

(** The move loop of a root entered with the flag set: the first move that
    is not passed over is counted, its child returns at once, and the loop
    breaks with [bestScore] and the PV untouched. *)
Lemma aborted_root_loop fuel Me beta depth ply moves : forall lv c,
  aborted (eng c) = true ->
  l_nbMoves lv = 0 ->
  exists lv' c',
    enumerate moves
              (pvCallback (pvSearch (S fuel) (flip Me)) Root beta depth ply)
              lv c = Some (lv', c') /\
    l_bestScore lv' = l_bestScore lv /\ l_pv lv' = l_pv lv /\
    nbNodes (sd c) <= nbNodes (sd c') <= nbNodes (sd c) + 1 /\
    tt (eng c') = tt (eng c) /\ aborted (eng c') = true.
Proof.
  induction moves as [| m rest IH]; intros lv c Hab Hzero.
  - exists lv, c. repeat split; auto; lia.
  - rewrite enumerate_cons.
    destruct (skipped Root (limits (sd c)) m) eqn:Hskip.
    + rewrite (pvCallback_skipped _ _ _ _ _ _ _ _ Hskip).
      now apply IH.
    + rewrite (pvCallback_not_skipped _ _ _ _ _ _ _ _ Hskip).
      set (c0 := with_sd (fun d => set_position (doMove (position d) m) d)
                   (with_sd (fun d => set_nbNodes (nbNodes d + 1) d) c)).
      assert (Hab0 : aborted (eng c0) = true) by exact Hab.
      destruct (aborted_call_returns_at_once fuel (flip Me) PV (- beta)
                  (- l_alpha lv) (depth - 1) (ply + 1) (l_childPv lv) c0 Hab0)
        as [_ Hchild].
      destruct (Hchild (or_introl eq_refl)) as (c2 & Ec & Hsd2 & Htt2 & Hab2).
      assert (Echild :
        pvsChild (pvSearch (S fuel) (flip Me)) Root (l_nbMoves lv + 1)
                 (l_alpha lv) beta depth ply (l_childPv lv) c0
        = Some ((- - SCORE_INFINITE, []), c2)).
      { unfold pvsChild. rewrite Hzero. simpl.
        unfold bind at 1, ret at 1.
        now rewrite (bind_Some _ _ _ _ _ Ec). }
      rewrite (bind_Some _ _ _ _ _ Echild).
      set (c3 := with_sd (fun d => set_position (undoMove (position d) m) d)
                   c2).
      assert (Eun : unmakeMove m c2 = Some (Datatypes.tt, c3))
        by reflexivity.
      assert (Hab3 : aborted (eng c3) = true) by exact Hab2.
      rewrite (bind_Some _ _ _ _ _ Eun).
      rewrite (bind_Some _ _ _ _ _ (searchAborted_set c3 Hab3)).
      eexists _, _. split; [reflexivity |].
      simpl. rewrite Hsd2, Htt2. simpl.
      repeat split; auto; lia.
Qed.

Lemma aborted_root_call fuel Me alpha beta depth ply pv0 c :
  aborted (eng c) = true ->
  0 < depth ->
  isDraw (position (sd c)) = false ->
  ply < MAX_PLY ->
  exists c',
    pvSearch (S (S fuel)) Me Root alpha beta depth ply pv0 c
    = Some ((- SCORE_INFINITE, []), c') /\
    nbNodes (sd c) <= nbNodes (sd c') <= nbNodes (sd c) + 1 /\
    tt (eng c') = tt (eng c) /\ aborted (eng c') = true.
Proof.
  intros Hab Hdepth Hdraw Hply.
  rewrite (pvSearch_past_ceiling _ _ Root _ _ _ _ _ _ c Hdepth eq_refl Hdraw
             Hply).
  simpl ttCutoff. cbv iota.
  set (probe := tt_get (tt (eng c)) (hash (position (sd c)))).
  assert (Hloop : exists lv' c1,
    pvLoop (pvSearch (S fuel) (flip Me)) Me Root alpha beta depth ply
           (fst probe) (snd probe) c = Some (lv', c1) /\
    l_bestScore lv' = - SCORE_INFINITE /\ l_pv lv' = [] /\
    nbNodes (sd c) <= nbNodes (sd c1) <= nbNodes (sd c) + 1 /\
    tt (eng c1) = tt (eng c) /\ aborted (eng c1) = true).
  { unfold pvLoop, get, bind.
    apply aborted_root_loop; [exact Hab | reflexivity]. }
  destruct Hloop as (lv' & c1 & Eloop & Hbest & Hpv & Hn & Htt & Hab1).
  unfold pvMoves.
  rewrite (bind_Some _ _ _ _ _ Eloop).
  rewrite (bind_Some _ _ _ _ _ (searchAborted_set c1 Hab1)).
  rewrite Hbest, Hpv. eexists. split; [reflexivity |].
  simpl. auto.
Qed.

(** X5.  A root call at positive depth entered with the abort flag set (as
    [idSearch] makes one after an aborted depth 1) returns
    [-SCORE_INFINITE] with an empty PV whenever the root is not a drawn
    position: it counts at most one node and stores nothing in the
    table. *)
Theorem aborted_root_returns_nothing fuel Me alpha beta depth ply pv0 c :
  aborted (eng c) = true ->
  0 < depth ->
  isDraw (position (sd c)) = false ->
  ply < MAX_PLY ->
  exists c',
    pvSearch (S (S fuel)) Me Root alpha beta depth ply pv0 c
    = Some ((- SCORE_INFINITE, []), c') /\
    nbNodes (sd c) <= nbNodes (sd c') <= nbNodes (sd c) + 1 /\
    tt (eng c') = tt (eng c).
Proof.
  intros Hab Hdepth Hdraw Hply.
  destruct (aborted_root_call fuel Me alpha beta depth ply pv0 c
              Hab Hdepth Hdraw Hply) as (c' & E & Hn & Htt & _).
  exists c'. auto.
Qed.

(** *** What the move loops keep *)

Lemma LoopInv_init alpha0 bestScore0 :
  LoopInv alpha0 bestScore0
    {| l_nbMoves := 0; l_bestScore := bestScore0; l_bestMove := MOVE_NONE;
       l_alpha := alpha0; l_pv := []; l_childPv := [] |}.
Proof. constructor; simpl; intros; try lia. repeat split; lia. Qed.

Lemma LoopInv_counted alpha0 bestScore0 childPv lv :
  LoopInv alpha0 bestScore0 lv -> LoopInv alpha0 bestScore0 (counted childPv lv).
Proof.
  intros [Ha Hb Hc Hr Hf]. constructor; simpl; auto. lia.
Qed.

Lemma LoopInv_adopt alpha0 bestScore0 move score beta lv :
  LoopInv alpha0 bestScore0 lv ->
  LoopInv alpha0 bestScore0 (snd (adopt move score beta lv)).
Proof.
  intros [Ha Hb Hc Hr Hf]. unfold adopt.
  destruct (score >? l_bestScore lv) eqn:E1;
    [| simpl; now constructor].
  rewrite Z.gtb_ltb in E1. apply Z.ltb_lt in E1.
  destruct (score >? l_alpha lv) eqn:E2.
  - rewrite Z.gtb_ltb in E2. apply Z.ltb_lt in E2.
    assert (Hinv : LoopInv alpha0 bestScore0
              {| l_nbMoves := l_nbMoves lv; l_bestScore := score;
                 l_bestMove := move; l_alpha := score;
                 l_pv := updatePv move (l_childPv lv);
                 l_childPv := l_childPv lv |}).
    { constructor; simpl; try lia.
      intros _. split; [reflexivity |]. now exists (l_childPv lv). }
    simpl. destruct (score >=? beta); exact Hinv.
  - rewrite Z.gtb_ltb in E2. apply Z.ltb_ge in E2.
    simpl. constructor; simpl; try lia.
    intros Heq. destruct (Hf Heq) as (Hpv & Hmove & _).
    repeat split; auto. lia.
Qed.

Lemma BestLine_counted child alpha0 childPv lv :
  BestLine child alpha0 lv -> BestLine child alpha0 (counted childPv lv).
Proof. intros H. exact H. Qed.

Lemma BestLine_adopt child alpha0 bestScore0 beta move score childPv lv c c1 :
  LoopInv alpha0 bestScore0 lv ->
  BestLine child alpha0 lv ->
  child move lv c = Some ((score, childPv), c1) ->
  BestLine child alpha0 (snd (adopt move score beta (counted childPv lv))).
Proof.
  intros [Ha Hb Hc Hr Hf] Hline Hchild. unfold adopt. simpl.
  destruct (score >? l_bestScore lv) eqn:E1; [| exact Hline].
  rewrite Z.gtb_ltb in E1. apply Z.ltb_lt in E1.
  destruct (score >? l_alpha lv) eqn:E2.
  - rewrite Z.gtb_ltb in E2. apply Z.ltb_lt in E2.
    assert (Hnew : BestLine child alpha0
              {| l_nbMoves := l_nbMoves lv + 1; l_bestScore := score;
                 l_bestMove := move; l_alpha := score;
                 l_pv := updatePv move childPv; l_childPv := childPv |}).
    { intros _. simpl. exists lv, c, childPv, c1. auto. }
    destruct (score >=? beta); exact Hnew.
  - rewrite Z.gtb_ltb in E2. apply Z.ltb_ge in E2.
    intros Hlt. simpl in Hlt. destruct (Hr Hlt) as [Heq _]. lia.
Qed.

Lemma enumerate_LoopInv child alpha0 bestScore0 beta callback moves :
  steps child beta callback ->
  forall lv c lv' c',
    LoopInv alpha0 bestScore0 lv /\ BestLine child alpha0 lv ->
    enumerate moves callback lv c = Some (lv', c') ->
    LoopInv alpha0 bestScore0 lv' /\ BestLine child alpha0 lv'.
Proof.
  intros Hcb.
  induction moves as [| m rest IH]; intros lv c lv' c' [Hinv Hline] H.
  - inversion H; subst. auto.
  - rewrite enumerate_cons in H.
    destruct (callback m lv c) as [[[continue lv1] c1] |] eqn:E;
      [| discriminate].
    assert (Hinv1 : LoopInv alpha0 bestScore0 lv1 /\ BestLine child alpha0 lv1).
    { destruct (Hcb _ _ _ _ _ _ E)
        as [-> | (score & cpv & c2 & Hchild & [-> | ->])].
      - auto.
      - split; [now apply LoopInv_counted | exact Hline].
      - split; [now apply LoopInv_adopt, LoopInv_counted |].
        eapply BestLine_adopt; eassumption. }
    destruct continue; [now apply (IH lv1 c1 lv' c') | inversion H; now subst].
Qed.

Lemma LoopInv_start child alpha0 bestScore0 :
  let lv := {| l_nbMoves := 0; l_bestScore := bestScore0;
               l_bestMove := MOVE_NONE; l_alpha := alpha0; l_pv := [];
               l_childPv := [] |} in
  LoopInv alpha0 bestScore0 lv /\ BestLine child alpha0 lv.
Proof.
  split; [apply LoopInv_init |]. intros Hlt. simpl in Hlt. lia.
Qed.

Lemma pvCallback_steps rec NT beta depth ply :
  steps (pvChild rec NT beta depth ply) beta (pvCallback rec NT beta depth ply).
Proof.
  intros move lv c b lv' c' H.
  destruct (skipped NT (limits (sd c)) move) eqn:Hskip.
  - rewrite (pvCallback_skipped _ _ _ _ _ _ _ _ Hskip) in H.
    inversion H; auto.
  - rewrite (pvCallback_not_skipped _ _ _ _ _ _ _ _ Hskip) in H.
    bind_split H as r c1 E1. destruct r as [score childPv].
    bind_split H as u c2 E2. bind_split H as ab c3 E3.
    right. exists score, childPv, c1.
    split; [exact E1 |].
    destruct ab.
    + inversion H; subst. now left.
    + right. unfold ret in H.
      injection H as H _. now rewrite H.
Qed.

Lemma qCallback_steps rec beta depth ply :
  steps (qChild rec beta depth ply) beta (qCallback rec beta depth ply).
Proof.
  intros move lv c b lv' c' H. unfold qCallback in H.
  bind_split H as u1 c1 E1. bind_split H as u2 c2 E2.
  bind_split H as r c3 E3. destruct r as [s childPv].
  bind_split H as u4 c4 E4. bind_split H as ab c5 E5.
  right. exists (- s), childPv, c3.
  split.
  { unfold qChild.
    rewrite (bind_Some _ _ _ _ _ E1), (bind_Some _ _ _ _ _ E2),
      (bind_Some _ _ _ _ _ E3).
    reflexivity. }
  destruct ab.
  - inversion H; subst. now left.
  - right. unfold ret in H.
    injection H as H _. now rewrite H.
Qed.

Lemma pvLoop_BestLine rec Me NT alpha beta depth ply ttHit tte c lv c' :
  pvLoop rec Me NT alpha beta depth ply ttHit tte c = Some (lv, c') ->
  LoopInv alpha (- SCORE_INFINITE) lv /\
  BestLine (pvChild rec NT beta depth ply) alpha lv.
Proof.
  intros H. unfold pvLoop in H. bind_split H as x cx E.
  eapply enumerate_LoopInv;
    [apply pvCallback_steps | apply LoopInv_start | exact H].
Qed.

Lemma qLoop_BestLine rec Me alpha beta depth ply bestScore0 ttHit tte c lv c' :
  qLoop rec Me alpha beta depth ply bestScore0 ttHit tte c = Some (lv, c') ->
  LoopInv alpha bestScore0 lv /\
  BestLine (qChild rec beta depth ply) alpha lv.
Proof.
  intros H. unfold qLoop in H. bind_split H as x cx E.
  eapply enumerate_LoopInv;
    [apply qCallback_steps | apply LoopInv_start | exact H].
Qed.

Lemma pvLoop_LoopInv rec Me NT alpha beta depth ply ttHit tte c lv c' :
  pvLoop rec Me NT alpha beta depth ply ttHit tte c = Some (lv, c') ->
  LoopInv alpha (- SCORE_INFINITE) lv.
Proof. intros H. exact (proj1 (pvLoop_BestLine _ _ _ _ _ _ _ _ _ _ _ _ H)). Qed.

Lemma qLoop_LoopInv rec Me alpha beta depth ply bestScore0 ttHit tte c lv c' :
  qLoop rec Me alpha beta depth ply bestScore0 ttHit tte c = Some (lv, c') ->
  LoopInv alpha bestScore0 lv.
Proof. intros H. exact (proj1 (qLoop_BestLine _ _ _ _ _ _ _ _ _ _ _ _ H)). Qed.

(** X6.  When the move loop of [pvSearch] or of [qSearch] ends, whatever
    the recursive calls returned and however the loop ended (all moves
    tried, beta cutoff, abort): [alpha] is not below the value the loop
    was entered with; if it is above, it equals [bestScore], and the PV is
    [bestMove] followed by the child PV that the search of [bestMove]
    answered with, together with the score [bestScore], when that score
    beat the [alpha] of the moment; if [alpha] is unchanged, the PV is
    empty, [bestMove] is [MOVE_NONE] and [bestScore] exceeds neither
    [alpha] nor its own starting value, whichever is larger. *)
Theorem move_loop_invariant
    qrec rec Me NT alpha beta depth ply bestScore0 ttHit tte c lv c' :
  (pvLoop rec Me NT alpha beta depth ply ttHit tte c = Some (lv, c') ->
   LoopInv alpha (- SCORE_INFINITE) lv /\
   BestLine (pvChild rec NT beta depth ply) alpha lv) /\
  (qLoop qrec Me alpha beta depth ply bestScore0 ttHit tte c = Some (lv, c') ->
   LoopInv alpha bestScore0 lv /\
   BestLine (qChild qrec beta depth ply) alpha lv).
Proof.
  split; [apply pvLoop_BestLine | apply qLoop_BestLine].
Qed.

Lemma LoopInv_pv alpha0 bestScore0 lv :
  LoopInv alpha0 bestScore0 lv -> l_pv lv <> [] ->
  alpha0 < l_bestScore lv /\ exists rest, l_pv lv = l_bestMove lv :: rest.
Proof.
  intros [Ha Hb Hc Hr Hf] Hpv.
  assert (Hlt : alpha0 < l_alpha lv).
  { destruct (Z.eq_dec (l_alpha lv) alpha0) as [Heq | Hne]; [| lia].
    destruct (Hf Heq) as [Hnil _]. contradiction. }
  destruct (Hr Hlt) as [Heq Hrest]. split; [lia | exact Hrest].
Qed.

Lemma qMoves_LoopInv rec Me alpha beta depth ply bestScore0 alphaOrig eval
    inChk c score pv c' :
  qMoves rec Me alpha beta depth ply bestScore0 alphaOrig eval inChk c
    = Some ((score, pv), c') ->
  exists lv, LoopInv alpha bestScore0 lv /\
             score = l_bestScore lv /\ pv = l_pv lv.
Proof.
  intros H. unfold qMoves in H.
  bind_split H as x cx E. inversion E; subst x cx; clear E.
  destruct (tt_get _ _) as [ttHit tte].
  bind_split H as lv c1 Eloop. bind_split H as ab c2 Eab.
  exists lv. split.
  - exact (qLoop_LoopInv _ _ _ _ _ _ _ _ _ _ _ _ Eloop).
  - destruct ab.
    + inversion H; auto.
    + bind_split H as u c3 E3. inversion H; auto.
Qed.

Lemma pvMoves_LoopInv rec Me NT alpha beta depth ply inChk ttHit tte c
    score pv c' :
  pvMoves rec Me NT alpha beta depth ply inChk ttHit tte c
    = Some ((score, pv), c') ->
  pv = [] \/
  exists lv, LoopInv alpha (- SCORE_INFINITE) lv /\
             score = l_bestScore lv /\ pv = l_pv lv.
Proof.
  intros H. unfold pvMoves in H.
  bind_split H as lv c1 Eloop. bind_split H as ab c2 Eab.
  assert (Hinv := pvLoop_LoopInv _ _ _ _ _ _ _ _ _ _ _ _ Eloop).
  destruct ab.
  - inversion H. right. now exists lv.
  - destruct (l_nbMoves lv =? 0) eqn:E0.
    + apply Z.eqb_eq in E0.
      destruct (pvLoop_zero _ _ _ _ _ _ _ _ _ _ _ _ Eloop E0) as (_ & Hnil & _).
      inversion H. now left.
    + bind_split H as u c3 E3. inversion H. right. now exists lv.
Qed.

Lemma qBody_pv rec Me alpha beta depth ply pv0 c score pv c' :
  qBody rec Me alpha beta depth ply pv0 c = Some ((score, pv), c') ->
  pv <> [] -> alpha < score.
Proof.
  intros H Hpv. unfold qBody in H.
  bind_split H as stopped c1 E1.
  destruct stopped; [inversion H; subst; contradiction |].
  bind_split H as x cx E. inversion E; subst x cx; clear E.
  destruct (isDraw _); [inversion H; subst; contradiction |].
  destruct (ply >=? MAX_PLY); [inversion H; subst; contradiction |].
  destruct (negb _).
  - destruct (_ >=? beta); [inversion H; subst; contradiction |].
    apply qMoves_LoopInv in H. destruct H as (lv & Hinv & -> & ->).
    destruct (LoopInv_pv _ _ _ Hinv Hpv) as [Hlt _].
    destruct (_ >? alpha) eqn:Egt; [| exact Hlt].
    rewrite Z.gtb_ltb in Egt. apply Z.ltb_lt in Egt. lia.
  - apply qMoves_LoopInv in H. destruct H as (lv & Hinv & -> & ->).
    exact (proj1 (LoopInv_pv _ _ _ Hinv Hpv)).
Qed.

Lemma qSearch_pv fuel Me alpha beta depth ply pv0 c score pv c' :
  qSearch fuel Me alpha beta depth ply pv0 c = Some ((score, pv), c') ->
  pv <> [] -> alpha < score.
Proof.
  destruct fuel as [| fuel]; [discriminate |].
  rewrite qSearch_S. apply qBody_pv.
Qed.

(** X7.  [pvSearch] and [qSearch] fill the caller's PV only with a score
    above [alpha]: a call that returns a non-empty PV returns a score
    strictly greater than the [alpha] it was given.  This holds for every
    call that returns, aborted or not. *)
Theorem pv_only_above_alpha fuel Me NT alpha beta depth ply pv0 c score pv c' :
  pvSearch fuel Me NT alpha beta depth ply pv0 c = Some ((score, pv), c') \/
  qSearch fuel Me alpha beta depth ply pv0 c = Some ((score, pv), c') ->
  pv <> [] ->
  alpha < score.
Proof.
  intros [H | H] Hpv; [| exact (qSearch_pv _ _ _ _ _ _ _ _ _ _ _ H Hpv)].
  destruct fuel as [| fuel]; [discriminate |].
  rewrite pvSearch_S in H. unfold pvBody in H.
  destruct (depth <=? 0); [exact (qSearch_pv _ _ _ _ _ _ _ _ _ _ _ H Hpv) |].
  bind_split H as stopped c1 E1.
  destruct stopped; [inversion H; subst; contradiction |].
  bind_split H as x cx E. inversion E; subst x cx; clear E.
  destruct (isDraw _); [inversion H; subst; contradiction |].
  destruct (ply >=? MAX_PLY); [inversion H; subst; contradiction |].
  destruct (tt_get _ _) as [ttHit tte].
  destruct (ttCutoff _ _ _ _ _ _ _ _); [inversion H; subst; contradiction |].
  apply pvMoves_LoopInv in H.
  destruct H as [-> | (lv & Hinv & -> & ->)]; [contradiction |].
  exact (proj1 (LoopInv_pv _ _ _ Hinv Hpv)).
Qed.

(** X8.  Standing pat is a floor of [qSearch]: a call that passes the
    abort check at a position that is no draw, below the ply ceiling,
    returns at least the static evaluation when the side to move is not in
    check, and at least [-SCORE_MATE + ply] when it is, also when the
    search is aborted inside the move loop. *)
Theorem qSearch_never_below_stand_pat
    fuel Me alpha beta depth ply pv0 c c1 score pv c' :
  qSearch fuel Me alpha beta depth ply pv0 c = Some ((score, pv), c') ->
  qAbortCheck c = Some (false, c1) ->
  isDraw (position (sd c)) = false ->
  ply < MAX_PLY ->
  (if inCheck (position (sd c)) then - SCORE_MATE + ply
   else evaluate Me (position (sd c))) <= score.
Proof.
  intros H Hcheck Hdraw Hply.
  destruct fuel as [| fuel]; [discriminate |].
  rewrite qSearch_S in H. unfold qBody in H.
  rewrite (bind_Some _ _ _ _ _ Hcheck) in H.
  unfold bind at 1, get in H.
  rewrite (qAbortCheck_sd _ _ _ Hcheck), Hdraw in H.
  replace (ply >=? MAX_PLY) with false in H
    by (symmetry; rewrite Z.geb_leb; apply Z.leb_gt; exact Hply).
  destruct (inCheck _); simpl in H.
  - apply qMoves_LoopInv in H. destruct H as (lv & [_ Hb _ _ _] & -> & _).
    exact Hb.
  - destruct (_ >=? beta) eqn:Ecut.
    + inversion H. lia.
    + apply qMoves_LoopInv in H. destruct H as (lv & [_ Hb _ _ _] & -> & _).
      exact Hb.
Qed.

(** *** Time allocation *)

Lemma int64_fits z : fits64 z -> int64 z = z.
Proof.
  unfold fits64, int64. intros H.
  change (2 ^ 64) with (2 * 2 ^ 63).
  rewrite Z.mod_small by lia. lia.
Qed.

(** X1.  For 64-bit inputs, a clock that has not run out and a sum of time
    left and increment that an [int64_t] holds, [initAllocatedTime] allots
    at least the increment and at most the time left plus the increment,
    and the share of the time left, multiplied by the number of moves it
    was divided by ([movesToGo], or 40 when [movesToGo] is not positive),
    does not exceed the time left.  (Beyond that range the sum wraps
    around.) *)
Theorem allocated_time_bounds (pos : Position) (lims : SearchLimits) :
  let stm := getSideToMove pos in
  let moves := if movesToGo lims >? 0 then movesToGo lims else 40 in
  let share := initAllocatedTime pos lims - increment lims stm in
  fits64 (timeLeft lims stm) ->
  fits64 (increment lims stm) ->
  fits64 (movesToGo lims) ->
  0 <= timeLeft lims stm ->
  timeLeft lims stm + increment lims stm < 2 ^ 63 ->
  0 <= share <= timeLeft lims stm /\
  moves * share <= timeLeft lims stm < moves * (share + 1).
Proof.
  intros stm moves share Hfl Hfi Hfm Hleft Hsum.
  assert (Hmoves : 0 < moves).
  { unfold moves. destruct (movesToGo lims >? 0) eqn:E; [| lia].
    rewrite Z.gtb_ltb in E. now apply Z.ltb_lt in E. }
  pose proof (Z.mul_div_le (timeLeft lims stm) moves Hmoves).
  pose proof (Z.mul_succ_div_gt (timeLeft lims stm) moves Hmoves).
  pose proof (Z.div_pos (timeLeft lims stm) moves Hleft Hmoves).
  assert (Hle : timeLeft lims stm / moves <= timeLeft lims stm) by nia.
  assert (Hshare : share = timeLeft lims stm / moves).
  { unfold share, initAllocatedTime. fold stm. fold moves.
    rewrite Z.quot_div_nonneg by lia.
    rewrite int64_fits; [lia |].
    unfold fits64 in *. lia. }
  rewrite Hshare. lia.
Qed.

(** *** Termination *)

(** X2.  The ply ceiling bounds the recursion: a call of [pvSearch] or
    [qSearch] at ply [ply] returns once the recursion may go
    [MAX_PLY - ply] levels deep, whatever the depth asked for and whatever
    the limits, and it leaves the event log, the [searching] flag, the
    limits and the clock as they were and does not lower the node count. *)
Theorem kernel_returns_below_ceiling fuel Me NT alpha beta depth ply pv0 c :
  Z.max 0 (MAX_PLY - ply) < Z.of_nat fuel ->
  (exists r c',
     pvSearch fuel Me NT alpha beta depth ply pv0 c = Some (r, c') /\
     Frame c c') /\
  (exists r c',
     qSearch fuel Me alpha beta depth ply pv0 c = Some (r, c') /\
     Frame c c').
Proof.
  intros Hfuel. split.
  - apply safe_pvSearch, Hfuel.
  - apply safe_qSearch, Hfuel.
Qed.

(** *** Edges of the search *)

(** X10.  At the ply ceiling the kernel answers with the static evaluation
    and an empty PV, also when the side to move is in check: a call at
    [ply >= MAX_PLY] that passes its abort check at a position that is no
    draw plays no move, counts no node and writes nothing to the table. *)
Theorem ply_ceiling_returns_evaluation
    fuel Me NT alpha beta depth ply pv0 c c1 :
  MAX_PLY <= ply ->
  isDraw (position (sd c)) = false ->
  (qAbortCheck c = Some (false, c1) ->
   qSearch (S fuel) Me alpha beta depth ply pv0 c
   = Some ((evaluate Me (position (sd c)), []), c1)) /\
  (pvAbortCheck NT c = Some (false, c1) -> 0 < depth ->
   pvSearch (S fuel) Me NT alpha beta depth ply pv0 c
   = Some ((evaluate Me (position (sd c)), []), c1)).
Proof.
  intros Hply Hdraw.
  assert (Hge : (ply >=? MAX_PLY) = true)
    by (rewrite Z.geb_leb; apply Z.leb_le; lia).
  split.
  - intros Hchk. rewrite <- (qAbortCheck_sd _ _ _ Hchk).
    rewrite <- (qAbortCheck_sd _ _ _ Hchk) in Hdraw.
    now apply qSearch_at_ceiling.
  - intros Hchk Hdepth. rewrite pvSearch_S. unfold pvBody.
    replace (depth <=? 0) with false by (symmetry; apply Z.leb_gt; lia).
    rewrite (bind_Some _ _ _ _ _ Hchk).
    unfold get at 1. rewrite (bind_Some _ _ c1 c1 c1 eq_refl).
    rewrite (pvAbortCheck_sd _ _ _ _ Hchk), Hdraw, Hge.
    reflexivity.
Qed.

(** X11.  [qSearch] at a position where the move picker yields nothing, past
    the abort check, the draw test and the ply ceiling, and not aborted
    since: when the side to move is in check it returns [-SCORE_MATE + ply]
    (the default kept for mate detection); when it is not, it returns the
    static evaluation, whatever [alpha] and [beta] are.  The PV is empty,
    no node is counted and the position is not touched. *)
Theorem qSearch_without_moves fuel Me alpha beta depth ply pv0 c c1 c2 :
  qAbortCheck c = Some (false, c1) ->
  isDraw (position (sd c)) = false ->
  ply < MAX_PLY ->
  (forall ttMove, mp_moves QUIESCENCE Me (position (sd c)) ttMove = []) ->
  searchAborted c1 = Some (false, c2) ->
  exists c',
    qSearch (S fuel) Me alpha beta depth ply pv0 c
    = Some ((if inCheck (position (sd c)) then - SCORE_MATE + ply
             else evaluate Me (position (sd c)), []), c') /\
    sd c' = sd c.
Proof.
  intros Hchk Hdraw Hply Hnone Hab.
  pose proof (qAbortCheck_sd _ _ _ Hchk) as Hsd.
  assert (Hsd2 : sd c2 = sd c1).
  { unfold searchAborted in Hab. inversion Hab. reflexivity. }
  assert (Hloop : forall a b0,
    qMoves (qSearch fuel (flip Me)) Me a beta depth ply b0 alpha
           (if inCheck (position (sd c)) then SCORE_NONE
            else evaluate Me (position (sd c)))
           (inCheck (position (sd c))) c1
    = Some ((b0, []),
            with_eng (set_tt
              (tt_set (tt (eng c2)) (snd (tt_get (tt (eng c1))
                                            (hash (position (sd c1)))))
                      (hash (position (sd c2)))
                      (if inCheck (position (sd c)) then 1 else 0) ply
                      (qBound b0 alpha beta) MOVE_NONE
                      (if inCheck (position (sd c)) then SCORE_NONE
                       else evaluate Me (position (sd c)))
                      b0 false)) c2)).
  { intros a b0. unfold qMoves.
    unfold get at 1. rewrite (bind_Some _ _ c1 c1 c1 eq_refl).
    destruct (tt_get _ _) as [ttHit tte] eqn:Eprobe.
    assert (Eloop :
      qLoop (qSearch fuel (flip Me)) Me a beta depth ply b0 ttHit tte c1
      = Some ({| l_nbMoves := 0; l_bestScore := b0; l_bestMove := MOVE_NONE;
                 l_alpha := a; l_pv := []; l_childPv := [] |}, c1)).
    { unfold qLoop, get, bind. rewrite Hsd, Hnone. reflexivity. }
    rewrite (bind_Some _ _ _ _ _ Eloop), (bind_Some _ _ _ _ _ Hab).
    reflexivity. }
  rewrite (qSearch_past_ceiling _ _ _ _ _ _ _ _ _ Hchk
             ltac:(now rewrite Hsd) Hply).
  rewrite Hsd.
  destruct (inCheck (position (sd c))) eqn:Einc.
  - rewrite Hloop. eexists. split; [reflexivity |].
    simpl. congruence.
  - destruct (_ >=? beta) eqn:Ecut.
    + eexists. split; [reflexivity | exact Hsd].
    + rewrite Hloop. eexists. split; [reflexivity |].
      simpl. congruence.
Qed.

(** *** The position and the PV *)

Lemma enumerate_inv (I : LoopVars -> Prop) (P : Ctx -> Prop) moves callback :
  (forall m lv c b lv' c',
     In m moves -> P c -> I lv ->
     callback m lv c = Some ((b, lv'), c') -> P c' /\ I lv') ->
  forall lv c lv' c',
    P c -> I lv ->
    enumerate moves callback lv c = Some (lv', c') -> P c' /\ I lv'.
Proof.
  induction moves as [| m rest IH]; intros Hcb lv c lv' c' HP HI H.
  - inversion H; subst; auto.
  - rewrite enumerate_cons in H.
    destruct (callback m lv c) as [[[continue lv1] c1] |] eqn:E;
      [| discriminate].
    destruct (Hcb m lv c continue lv1 c1 (or_introl eq_refl) HP HI E)
      as [HP1 HI1].
    destruct continue; [| inversion H; subst; auto].
    apply (IH (fun m' lv0 c0 b0 lv2 c2 Hin =>
                 Hcb m' lv0 c0 b0 lv2 c2 (or_intror Hin))
              lv1 c1 lv' c' HP1 HI1 H).
Qed.

Lemma adopt_pv move score beta lv :
  l_pv (snd (adopt move score beta lv)) = l_pv lv \/
  l_pv (snd (adopt move score beta lv)) = move :: l_childPv lv.
Proof.
  unfold adopt.
  destruct (score >? l_bestScore lv); [| now left].
  destruct (score >? l_alpha lv); [| now left].
  simpl. destruct (score >=? beta); now right.
Qed.

Lemma adopt_nbMoves_same move score beta lv :
  l_nbMoves (snd (adopt move score beta lv)) = l_nbMoves lv.
Proof.
  unfold adopt.
  destruct (score >? l_bestScore lv); [| reflexivity].
  destruct (score >? l_alpha lv); [| reflexivity].
  simpl. destruct (score >=? beta); reflexivity.
Qed.

Lemma searchAborted_sd c b c' : searchAborted c = Some (b, c') -> sd c' = sd c.
Proof. unfold searchAborted. intros E. inversion E. reflexivity. Qed.

Lemma qCallback_line rec Me beta depth ply move lv c b lv' c' :
  (forall a b0 d pv, lineFrom (flip Me) (rec a b0 d (ply + 1) pv)) ->
  undoMove (doMove (position (sd c)) move) move = position (sd c) ->
  (exists pk hint, In move (mp_moves pk Me (position (sd c)) hint)) ->
  line Me (position (sd c)) (l_pv lv) ->
  qCallback rec beta depth ply move lv c = Some ((b, lv'), c') ->
  position (sd c') = position (sd c) /\ line Me (position (sd c)) (l_pv lv').
Proof.
  intros Hrec Hundo Hin Hline H. unfold qCallback in H.
  bind_split H as u1 c1 E1. inversion E1; subst u1 c1; clear E1.
  bind_split H as u2 c2 E2. inversion E2; subst u2 c2; clear E2.
  bind_split H as r c3 E3. destruct r as [s childPv].
  apply Hrec in E3. simpl in E3. destruct E3 as [Hpos3 Hchild].
  bind_split H as u4 c4 E4. inversion E4; subst u4 c4; clear E4.
  bind_split H as ab c5 E5. apply searchAborted_sd in E5.
  assert (Hpos : position (sd c') = position (sd c)).
  { destruct ab; inversion H; subst; rewrite E5; simpl;
      rewrite Hpos3; exact Hundo. }
  split; [exact Hpos |].
  destruct ab; [inversion H; subst; exact Hline |].
  unfold ret in H. injection H as Hadopt _.
  replace lv' with (snd (adopt move (- s) beta (counted childPv lv)))
    by now rewrite Hadopt.
  destruct (adopt_pv move (- s) beta (counted childPv lv)) as [-> | ->];
    [exact Hline |].
  simpl. split; [exact Hin | exact Hchild].
Qed.

Lemma pvsChild_line rec Me NT nbMoves alpha beta depth ply childPv :
  (forall nt a b d pv, lineFrom (flip Me) (rec nt a b d (ply + 1) pv)) ->
  1 <= nbMoves ->
  lineFrom (flip Me) (pvsChild rec NT nbMoves alpha beta depth ply childPv).
Proof.
  intros Hrec Hn c r c' H. unfold pvsChild in H.
  bind_split H as r1 c1 E1. destruct r1 as [score cpv1].
  destruct (negb (PvNode NT) || (nbMoves >? 1)) eqn:Efirst.
  - bind_split E1 as r0 c0 E0. destruct r0 as [s0 cpv0].
    apply Hrec in E0. simpl in E0. destruct E0 as [Hpos0 Hline0].
    inversion E1; subst score cpv1 c1; clear E1.
    destruct (_ && _).
    + bind_split H as r2 c2 E2. destruct r2 as [s2 cpv2].
      apply Hrec in E2. simpl in E2. destruct E2 as [Hpos2 Hline2].
      inversion H; subst. simpl. rewrite Hpos2, Hpos0.
      split; [reflexivity |]. now rewrite <- Hpos0.
    + inversion H; subst. simpl. split; [exact Hpos0 | exact Hline0].
  - inversion E1; subst score cpv1 c1; clear E1.
    apply Bool.orb_false_iff in Efirst. destruct Efirst as [Hpv Hgt].
    apply Bool.negb_false_iff in Hpv.
    rewrite Z.gtb_ltb in Hgt. apply Z.ltb_ge in Hgt.
    replace (nbMoves =? 1) with true in H
      by (symmetry; apply Z.eqb_eq; lia).
    rewrite Hpv in H. simpl in H.
    bind_split H as r2 c2 E2. destruct r2 as [s2 cpv2].
    apply Hrec in E2. simpl in E2.
    inversion H; subst. exact E2.
Qed.

Lemma pvCallback_line rec Me NT beta depth ply move lv c b lv' c' :
  (forall nt a b0 d pv, lineFrom (flip Me) (rec nt a b0 d (ply + 1) pv)) ->
  undoMove (doMove (position (sd c)) move) move = position (sd c) ->
  (exists pk hint, In move (mp_moves pk Me (position (sd c)) hint)) ->
  0 <= l_nbMoves lv /\ line Me (position (sd c)) (l_pv lv) ->
  pvCallback rec NT beta depth ply move lv c = Some ((b, lv'), c') ->
  position (sd c') = position (sd c) /\
  0 <= l_nbMoves lv' /\ line Me (position (sd c)) (l_pv lv').
Proof.
  intros Hrec Hundo Hin [Hn Hline] H.
  destruct (skipped NT (limits (sd c)) move) eqn:Hskip.
  { rewrite (pvCallback_skipped _ _ _ _ _ _ _ _ Hskip) in H.
    inversion H; subst; auto. }
  rewrite (pvCallback_not_skipped _ _ _ _ _ _ _ _ Hskip) in H.
  bind_split H as r c3 E3. destruct r as [score childPv].
  assert (Hone : 1 <= l_nbMoves lv + 1) by lia.
  apply (pvsChild_line rec Me NT _ _ _ _ _ _ Hrec Hone) in E3.
  simpl in E3. destruct E3 as [Hpos3 Hchild].
  bind_split H as u4 c4 E4. inversion E4; subst u4 c4; clear E4.
  bind_split H as ab c5 E5. apply searchAborted_sd in E5.
  assert (Hpos : position (sd c') = position (sd c)).
  { destruct ab; inversion H; subst; rewrite E5; simpl;
      rewrite Hpos3; exact Hundo. }
  split; [exact Hpos |].
  destruct ab; [inversion H; subst; simpl; split; [lia | exact Hline] |].
  unfold ret in H. injection H as Hadopt _.
  replace lv' with (snd (adopt move score beta (counted childPv lv)))
    by now rewrite Hadopt.
  rewrite adopt_nbMoves_same. simpl l_nbMoves. split; [lia |].
  destruct (adopt_pv move score beta (counted childPv lv)) as [-> | ->];
    [exact Hline |].
  simpl. split; [exact Hin | exact Hchild].
Qed.

Lemma qBody_line rec Me alpha beta depth ply pv0 :
  Reversible ->
  (forall a b d pv, lineFrom (flip Me) (rec a b d (ply + 1) pv)) ->
  lineFrom Me (qBody rec Me alpha beta depth ply pv0).
Proof.
  intros Hrev Hrec.
  assert (Hmoves : forall a bs ao ev ic,
            lineFrom Me (qMoves rec Me a beta depth ply bs ao ev ic)).
  { intros a bs ao ev ic c r c' H. unfold qMoves in H.
    bind_split H as x cx E. inversion E; subst x cx; clear E.
    destruct (tt_get _ _) as [ttHit tte].
    bind_split H as lv c1 Eloop. unfold qLoop in Eloop.
    bind_split Eloop as x cx E. inversion E; subst x cx; clear E.
    apply (enumerate_inv
             (fun lv => line Me (position (sd c)) (l_pv lv))
             (fun c0 => position (sd c0) = position (sd c))) in Eloop;
      [| | reflexivity | exact I].
    2:{ intros m lv0 c0 b lv1 c2 Hin HP HI Hcb.
        rewrite <- HP in HI |- *.
        eapply qCallback_line;
          [exact Hrec | | | exact HI | exact Hcb].
        - rewrite HP. eapply Hrev, Hin.
        - rewrite HP. eexists _, _. exact Hin. }
    destruct Eloop as [Hpos1 Hline1].
    bind_split H as ab c2 Eab. apply searchAborted_sd in Eab.
    destruct ab.
    - inversion H; subst. simpl. rewrite Eab. auto.
    - bind_split H as u c3 E3. inversion E3; subst u c3; clear E3.
      inversion H; subst. simpl. rewrite Eab. auto. }
  intros c r c' H. unfold qBody in H.
  bind_split H as stopped c1 E1. apply qAbortCheck_sd in E1.
  destruct stopped; [inversion H; subst; simpl; rewrite E1; auto |].
  bind_split H as x cx E. inversion E; subst x cx; clear E.
  rewrite <- E1.
  destruct (isDraw _); [inversion H; subst; simpl; auto |].
  destruct (ply >=? MAX_PLY); [inversion H; subst; simpl; auto |].
  destruct (negb _); [| exact (Hmoves _ _ _ _ _ _ _ _ H)].
  destruct (_ >=? beta); [inversion H; subst; simpl; auto |].
  exact (Hmoves _ _ _ _ _ _ _ _ H).
Qed.

Lemma qSearch_line fuel : Reversible ->
  forall Me alpha beta depth ply pv0,
    lineFrom Me (qSearch fuel Me alpha beta depth ply pv0).
Proof.
  intros Hrev. induction fuel as [| fuel IH]; intros.
  - intros c r c' E. discriminate E.
  - rewrite qSearch_S. apply qBody_line; [exact Hrev |]. intros; apply IH.
Qed.

Lemma pvBody_line qrec rec Me NT alpha beta depth ply pv0 :
  Reversible ->
  (forall a b d p pv, lineFrom Me (qrec a b d p pv)) ->
  (forall nt a b d pv, lineFrom (flip Me) (rec nt a b d (ply + 1) pv)) ->
  lineFrom Me (pvBody qrec rec Me NT alpha beta depth ply pv0).
Proof.
  intros Hrev Hq Hrec c r c' H. unfold pvBody in H.
  destruct (depth <=? 0); [exact (Hq _ _ _ _ _ _ _ _ H) |].
  bind_split H as stopped c1 E1. apply pvAbortCheck_sd in E1.
  destruct stopped; [inversion H; subst; simpl; rewrite E1; auto |].
  bind_split H as x cx E. inversion E; subst x cx; clear E.
  rewrite <- E1.
  destruct (isDraw _); [inversion H; subst; simpl; auto |].
  destruct (ply >=? MAX_PLY); [inversion H; subst; simpl; auto |].
  destruct (tt_get _ _) as [ttHit tte].
  destruct (ttCutoff _ _ _ _ _ _ _ _); [inversion H; subst; simpl; auto |].
  unfold pvMoves in H.
  bind_split H as lv c2 Eloop. unfold pvLoop in Eloop.
  bind_split Eloop as x cx E. inversion E; subst x cx; clear E.
  apply (enumerate_inv
           (fun lv => 0 <= l_nbMoves lv /\
                      line Me (position (sd c1)) (l_pv lv))
           (fun c0 => position (sd c0) = position (sd c1))) in Eloop;
    [| | reflexivity | simpl; split; [lia | exact I]].
  2:{ intros m lv0 c0 b lv1 c3 Hin HP HI Hcb.
      rewrite <- HP in HI |- *.
      eapply pvCallback_line;
        [exact Hrec | | | exact HI | exact Hcb].
      - rewrite HP. eapply Hrev, Hin.
      - rewrite HP. eexists _, _. exact Hin. }
  destruct Eloop as [Hpos2 [_ Hline2]].
  bind_split H as ab c3 Eab. apply searchAborted_sd in Eab.
  destruct ab; [inversion H; subst; simpl; rewrite Eab; auto |].
  destruct (l_nbMoves lv =? 0).
  - inversion H; subst. simpl. rewrite Eab. auto.
  - bind_split H as u c4 E4. inversion E4; subst u c4; clear E4.
    inversion H; subst. simpl. rewrite Eab. auto.
Qed.

Lemma pvSearch_line fuel : Reversible ->
  forall Me NT alpha beta depth ply pv0,
    lineFrom Me (pvSearch fuel Me NT alpha beta depth ply pv0).
Proof.
  intros Hrev. induction fuel as [| fuel IH]; intros.
  - intros c r c' E. discriminate E.
  - rewrite pvSearch_S. apply pvBody_line; [exact Hrev | |].
    + intros. now apply qSearch_line.
    + intros. apply IH.
Qed.

(** X9.  When every move the picker yields can be taken back
    ([undoMove] after [doMove] gives the position back), a call of
    [pvSearch] or [qSearch] that returns, aborted or not, leaves
    [sd.position] as it found it, and the PV it returns is a line from that
    position: each move of it is one the picker yields at the position
    reached by playing the moves before it. *)
Theorem pv_is_a_line_from_the_restored_position
    fuel Me NT alpha beta depth ply pv0 c score pv c' :
  Reversible ->
  pvSearch fuel Me NT alpha beta depth ply pv0 c = Some ((score, pv), c') \/
  qSearch fuel Me alpha beta depth ply pv0 c = Some ((score, pv), c') ->
  position (sd c') = position (sd c) /\ line Me (position (sd c)) pv.
Proof.
  intros Hrev [H | H].
  - exact (pvSearch_line fuel Hrev _ _ _ _ _ _ _ _ _ _ H).
  - exact (qSearch_line fuel Hrev _ _ _ _ _ _ _ _ _ H).
Qed.

(** *** Iterations of the deepening loop *)

Lemma idLoop_done n Me iv c :
  MAX_PLY <= i_depth iv -> idLoop n Me iv c = Some (iv, c).
Proof.
  intros H.
  destruct n; [rewrite idLoop_O | rewrite idLoop_S];
    (replace (i_depth iv <? MAX_PLY) with false
       by (symmetry; apply Z.ltb_ge; lia));
    reflexivity.
Qed.

(** What one iteration that was entered did. *)
Lemma idLoop_S_inv n Me iv c iv' c' :
  idLoop (S n) Me iv c = Some (iv', c') ->
  i_depth iv < MAX_PLY ->
  exists (score : Z) (pv : list Move) (brk : bool) (c2 : Ctx),
    Frame c c2 /\ Keeps c c2 /\
    (if brk then aborted (eng c2) = true /\ iv' = iv /\ c' = c2
     else
       let depth := i_depth iv in
       let c3 := emitted (progressOf depth score pv c2) (observed c2) in
       if (maxDepth (limits (sd c2)) >? 0)
          && (depth >=? maxDepth (limits (sd c2)))
       then iv' = {| i_depth := depth; i_completedDepth := depth;
                     i_bestPv := pv; i_bestScore := score |} /\ c' = c3
       else idLoop n Me {| i_depth := depth + 1; i_completedDepth := depth;
                           i_bestPv := pv; i_bestScore := score |} c3
            = Some (iv', c')).
Proof.
  intros H Hlt.
  destruct (safe_root_call Me (- SCORE_INFINITE) SCORE_INFINITE
              (i_depth iv) [] c) as ([score pv] & c1 & E1 & F1).
  pose proof (pvSearch_Keeps _ _ _ _ _ _ _ _ _ _ _ E1) as K1.
  assert (Hbrk : exists brk c2,
             (if i_depth iv >? 1 then searchAborted else ret false) c1
             = Some (brk, c2) /\ Frame c1 c2 /\ Keeps c1 c2 /\
             (brk = true -> aborted (eng c2) = true)).
  { destruct (i_depth iv >? 1).
    - eexists _, _. split; [reflexivity |].
      split; [exact (safe_Frame _ _ _ _ safe_searchAborted eq_refl) |].
      split; [| simpl; auto].
      constructor; simpl; auto. intros ->. reflexivity.
    - exists false, c1. split; [reflexivity |].
      split; [apply Frame_refl |]. split; [apply Keeps_refl | discriminate]. }
  destruct Hbrk as (brk & c2 & E2 & F2 & K2 & Hab).
  rewrite (idLoop_step n Me iv c score pv c1 brk c2 Hlt E1 E2) in H.
  exists score, pv, brk, c2.
  split; [eapply Frame_trans; eassumption |].
  split; [eapply Keeps_trans; eassumption |].
  destruct brk.
  - inversion H; subst. auto.
  - cbv zeta in H |- *. destruct (_ && _); [inversion H; subst; auto | exact H].
Qed.

(** The events of a run of the loop, and where the loop stands after it. *)
Lemma idLoop_trace Me n : forall iv c iv' c',
  idLoop n Me iv c = Some (iv', c') ->
  i_completedDepth iv = i_depth iv - 1 ->
  exists ps,
    out c' = out c ++ ps /\
    rootPosition (eng c') = rootPosition (eng c) /\
    depthsFrom (i_depth iv) ps /\
    nodesFrom (nbNodes (sd c)) ps /\
    i_completedDepth iv' = i_completedDepth iv + Z.of_nat (length ps) /\
    (ps = [] \/ i_completedDepth iv' < MAX_PLY) /\
    (0 < maxDepth (limits (sd c)) ->
     ps = [] \/
     i_completedDepth iv' <= Z.max (i_depth iv) (maxDepth (limits (sd c)))).
Proof.
  assert (Hnil : forall iv c, exists ps : list Emitted,
    out c = out c ++ ps /\
    rootPosition (eng c) = rootPosition (eng c) /\
    depthsFrom (i_depth iv) ps /\
    nodesFrom (nbNodes (sd c)) ps /\
    i_completedDepth iv = i_completedDepth iv + Z.of_nat (length ps) /\
    (ps = [] \/ i_completedDepth iv < MAX_PLY) /\
    (0 < maxDepth (limits (sd c)) ->
     ps = [] \/
     i_completedDepth iv <= Z.max (i_depth iv) (maxDepth (limits (sd c))))).
  { intros iv c. exists []. rewrite app_nil_r. simpl.
    repeat split; auto; lia. }
  induction n as [| n IH]; intros iv c iv' c' H Hcd.
  - rewrite idLoop_O in H.
    destruct (i_depth iv <? MAX_PLY); [discriminate |].
    inversion H; subst. apply Hnil.
  - destruct (Z.ltb_spec (i_depth iv) MAX_PLY) as [Hlt | Hge].
    2:{ rewrite idLoop_done in H by exact Hge. inversion H; subst. apply Hnil. }
    destruct (idLoop_S_inv _ _ _ _ _ _ H Hlt)
      as (score & pv & brk & c2 & F & K & Hstep).
    destruct F as [Fn Fout _ Flim _ _]. destruct K as [_ Kroot _ _ _].
    destruct brk.
    { destruct Hstep as (_ & -> & ->).
      exists []. rewrite app_nil_r. simpl. repeat split; auto; lia. }
    cbv zeta in Hstep.
    set (x := progressOf (i_depth iv) score pv c2) in *.
    destruct (_ && _) eqn:Ebrk.
    { destruct Hstep as (-> & ->).
      exists [x]. simpl. rewrite Fout.
      split; [reflexivity |]. split; [exact Kroot |].
      split; [auto |]. split; [auto |]. split; [lia |].
      split; [right; exact Hlt | intros _; right; lia]. }
    apply IH in Hstep; [| simpl; lia].
    destruct Hstep as (ps & Hout & Hroot & Hd & Hnodes & Hc & Hmax & Hmd).
    simpl in Hout, Hroot, Hd, Hnodes, Hc, Hmd.
    exists (x :: ps).
    split; [rewrite Hout, Fout, <- app_assoc; reflexivity |].
    split; [congruence |].
    split; [simpl; auto |].
    split; [simpl; auto |].
    split; [simpl length; lia |].
    split.
    { right. destruct Hmax as [-> | Hmax]; [simpl in Hc; lia | exact Hmax]. }
    intros Hpos. right. rewrite Flim in Hmd, Ebrk.
    apply Bool.andb_false_iff in Ebrk.
    assert (Hlt' : i_depth iv < maxDepth (limits (sd c))).
    { destruct Ebrk as [E | E].
      - rewrite Z.gtb_ltb in E. apply Z.ltb_ge in E. lia.
      - rewrite Z.geb_leb in E. apply Z.leb_gt in E. lia. }
    destruct (Hmd Hpos) as [-> | Hle]; [simpl in Hc; lia | lia].
Qed.

(** X12.  The progress events [idSearch] sends from its loop report the
    depths 1, 2, 3, ... in this order, one event per depth, and node counts
    that never go down.  The last of these depths is [completedDepth]; it is
    below [MAX_PLY], and not above [maxDepth] when a [maxDepth] is given.
    The engine's own position is not written. *)
Theorem progress_depths_are_consecutive Me c :
  exists iv c1 ps,
    idLoop (Z.to_nat MAX_PLY) Me idStart c = Some (iv, c1) /\
    out c1 = out c ++ ps /\
    depthsFrom 1 ps /\
    nodesFrom (nbNodes (sd c)) ps /\
    i_completedDepth iv = Z.of_nat (length ps) /\
    Z.of_nat (length ps) <= Z.max 0 (MAX_PLY - 1) /\
    (0 < maxDepth (limits (sd c)) ->
     Z.of_nat (length ps) <= maxDepth (limits (sd c))) /\
    rootPosition (eng c1) = rootPosition (eng c).
Proof.
  destruct (idLoop_runs Me (Z.to_nat MAX_PLY) idStart c)
    as (iv & c1 & Eloop & _); [simpl; lia |].
  destruct (idLoop_trace _ _ _ _ _ _ Eloop eq_refl)
    as (ps & Hout & Hroot & Hd & Hn & Hc & Hmax & Hmd).
  simpl in Hd, Hc, Hmd.
  exists iv, c1, ps. repeat split; auto.
  - destruct Hmax as [-> | Hmax]; simpl; lia.
  - intros Hpos. destruct (Hmd Hpos) as [-> | Hle]; simpl; lia.
Qed.

(** A run of the loop that ends with the abort flag clear has gone as far
    as the limits allow. *)
Lemma idLoop_unaborted Me n : forall iv c iv' c',
  idLoop n Me iv c = Some (iv', c') ->
  aborted (eng c') = false ->
  i_completedDepth iv = i_depth iv - 1 ->
  i_depth iv <= MAX_PLY ->
  maxDepth (limits (sd c)) <= 0 \/ i_depth iv <= maxDepth (limits (sd c)) ->
  let md := maxDepth (limits (sd c)) in
  let limited := (0 <? md) && (md <? MAX_PLY) in
  i_depth iv' = (if limited then md else MAX_PLY) /\
  i_completedDepth iv' = (if limited then md else MAX_PLY - 1).
Proof.
  assert (Hend : forall iv c,
    i_completedDepth iv = i_depth iv - 1 ->
    i_depth iv = MAX_PLY ->
    maxDepth (limits (sd c)) <= 0 \/ i_depth iv <= maxDepth (limits (sd c)) ->
    i_depth iv = (if (0 <? maxDepth (limits (sd c)))
                     && (maxDepth (limits (sd c)) <? MAX_PLY)
                  then maxDepth (limits (sd c)) else MAX_PLY) /\
    i_completedDepth iv
    = (if (0 <? maxDepth (limits (sd c)))
          && (maxDepth (limits (sd c)) <? MAX_PLY)
       then maxDepth (limits (sd c)) else MAX_PLY - 1)).
  { intros iv c Hcd Heq Hmd.
    replace ((0 <? maxDepth (limits (sd c)))
             && (maxDepth (limits (sd c)) <? MAX_PLY)) with false; [lia |].
    symmetry. apply Bool.andb_false_iff.
    destruct Hmd as [Hmd | Hmd];
      [left; apply Z.ltb_ge; lia | right; apply Z.ltb_ge; lia]. }
  induction n as [| n IH]; intros iv c iv' c' H Hab Hcd Hle Hmd md limited.
  - rewrite idLoop_O in H.
    destruct (i_depth iv <? MAX_PLY) eqn:E; [discriminate |].
    apply Z.ltb_ge in E. inversion H; subst.
    apply Hend; [exact Hcd | lia | exact Hmd].
  - destruct (Z.ltb_spec (i_depth iv) MAX_PLY) as [Hlt | Hge].
    2:{ rewrite idLoop_done in H by exact Hge. inversion H; subst.
        apply Hend; [exact Hcd | lia | exact Hmd]. }
    destruct (idLoop_S_inv _ _ _ _ _ _ H Hlt)
      as (score & pv & brk & c2 & F & _ & Hstep).
    destruct F as [_ _ _ Flim _ _].
    destruct brk.
    { destruct Hstep as (Hab2 & _ & ->). congruence. }
    cbv zeta in Hstep. rewrite Flim in Hstep. fold md in Hstep.
    destruct ((md >? 0) && (i_depth iv >=? md)) eqn:Ebrk.
    { destruct Hstep as (-> & _). simpl.
      apply Bool.andb_true_iff in Ebrk. destruct Ebrk as [E1 E2].
      rewrite Z.gtb_ltb in E1. apply Z.ltb_lt in E1.
      rewrite Z.geb_leb in E2. apply Z.leb_le in E2.
      assert (Heq : i_depth iv = md) by (fold md in Hmd; lia).
      unfold limited.
      replace (0 <? md) with true by (symmetry; apply Z.ltb_lt; lia).
      replace (md <? MAX_PLY) with true by (symmetry; apply Z.ltb_lt; lia).
      simpl. lia. }
    assert (Hmd' : md <= 0 \/ i_depth iv + 1 <= md).
    { apply Bool.andb_false_iff in Ebrk. destruct Ebrk as [E | E].
      - rewrite Z.gtb_ltb in E. apply Z.ltb_ge in E. lia.
      - rewrite Z.geb_leb in E. apply Z.leb_gt in E. lia. }
    apply IH in Hstep; [| exact Hab | simpl; lia | simpl; lia
                        | simpl; rewrite Flim; exact Hmd'].
    simpl in Hstep. rewrite Flim in Hstep. exact Hstep.
Qed.

Lemma idExit_eng iv c u c' :
  idExit iv c = Some (u, c') -> eng c' = set_searching false (eng c).
Proof.
  unfold idExit, mkEvent, getElapsed, now, get, emit, modify, bind, ret.
  simpl. destruct (i_depth iv =? i_completedDepth iv); simpl;
    intros E; inversion E; reflexivity.
Qed.

(** X13.  A search that ends with the abort flag clear has completed every
    depth the limits allow.  With a [maxDepth] between 1 and [MAX_PLY - 1]
    its progress events are those of the depths 1 to [maxDepth] and the
    finish event reports [maxDepth]; nothing comes between them.  Without
    such a [maxDepth] its progress events are those of the depths 1 to
    [MAX_PLY - 1], followed by one more progress event and the finish
    event, which both report the depth [MAX_PLY]. *)
Theorem unaborted_search_reaches_limit Me c c' :
  1 <= MAX_PLY ->
  idSearch Me c = Some (Datatypes.tt, c') ->
  aborted (eng c') = false ->
  let md := maxDepth (limits (sd c)) in
  let limited := (0 <? md) && (md <? MAX_PLY) in
  exists ps e,
    out c' = out c ++ ps
             ++ (if limited then []
                 else [extraProgress (searching (eng c)) e])
             ++ [finishOf (searching (eng c)) e] /\
    depthsFrom 1 ps /\
    Z.of_nat (length ps) = (if limited then md else MAX_PLY - 1) /\
    ev_depth e = (if limited then md else MAX_PLY).
Proof.
  intros Hply H Hab md limited. unfold idSearch in H.
  bind_split H as iv c1 Eloop.
  assert (Hab1 : false = aborted (eng c1)).
  { rewrite <- Hab, (idExit_eng _ _ _ _ H). reflexivity. }
  destruct (idLoop_runs Me (Z.to_nat MAX_PLY) idStart c)
    as (iv0 & c0 & Eloop0 & Hs & _); [simpl; lia |].
  rewrite Eloop in Eloop0. inversion Eloop0; subst iv0 c0; clear Eloop0.
  destruct (idLoop_trace _ _ _ _ _ _ Eloop eq_refl)
    as (ps & Hout & _ & Hd & _ & Hc & _).
  destruct (idLoop_unaborted _ _ _ _ _ _ Eloop (eq_sym Hab1) eq_refl)
    as [Hdepth Hcompleted]; [simpl; lia | simpl; lia |].
  fold md in Hdepth, Hcompleted. fold limited in Hdepth, Hcompleted.
  destruct (idExit_eq iv c1) as (c'' & Eexit & Hout' & _).
  rewrite H in Eexit. inversion Eexit; subst c''; clear Eexit.
  simpl in Hc, Hd.
  match type of Hout' with
  | context [finishOf _ ?e0] => exists ps, e0
  end.
  split; [| split; [exact Hd | split; [lia | exact Hdepth]]].
  rewrite Hout', Hout, Hs, <- app_assoc.
  rewrite Hdepth, Hcompleted.
  destruct limited.
  - rewrite Z.eqb_refl. reflexivity.
  - replace (MAX_PLY =? MAX_PLY - 1) with false
      by (symmetry; apply Z.eqb_neq; lia).
    reflexivity.
Qed.

(** X14.  A search whose abort flag is already set when the worker starts
    (a [stop()] that lands right after [search()]) still runs depth 1 at the
    root: with a root that is no drawn position it reports depth 1 with an
    empty PV and the score [-SCORE_INFINITE], and finishes with that empty
    PV and score.  Unless [maxDepth] is 1, the finish event and one more
    progress event before it report depth 2. *)
Theorem search_stopped_before_start Me c :
  aborted (eng c) = true ->
  1 < MAX_PLY ->
  isDraw (position (sd c)) = false ->
  let md := maxDepth (limits (sd c)) in
  let b := searching (eng c) in
  exists c' x e,
    idSearch Me c = Some (Datatypes.tt, c') /\
    out c' = out c ++ [x]
             ++ (if md =? 1 then [] else [extraProgress b e])
             ++ [finishOf b e] /\
    sink x = OnSearchProgress /\
    ev_depth (event x) = 1 /\ ev_pv (event x) = [] /\
    ev_bestScore (event x) = - SCORE_INFINITE /\
    ev_depth e = (if md =? 1 then 1 else 2) /\ ev_pv e = [] /\
    ev_bestScore e = - SCORE_INFINITE.
Proof.
  intros Hab Hply Hdraw md b.
  destruct (Z.to_nat MAX_PLY) as [| [| n]] eqn:En; [lia | lia |].
  assert (Hone : 0 < 1) by lia.
  assert (Hzero : 0 < MAX_PLY) by lia.
  destruct (aborted_root_call (S n) Me (- SCORE_INFINITE) SCORE_INFINITE
              1 0 [] c Hab Hone Hdraw Hzero)
    as (c1 & E1 & _ & _ & Hab1).
  assert (E1' : pvSearch kernelFuel Me Root (- SCORE_INFINITE) SCORE_INFINITE
                         (i_depth idStart) 0 [] c
                = Some ((- SCORE_INFINITE, []), c1))
    by (unfold kernelFuel; rewrite En; exact E1).
  pose proof (safe_Frame _ _ _ _ (safe_root_call _ _ _ _ _) E1') as F1.
  destruct F1 as [_ Fout1 Fs1 Flim1 _ _].
  assert (Hlt1 : i_depth idStart < MAX_PLY) by (simpl; lia).
  pose proof (idLoop_step (S n) Me idStart c _ _ c1 false c1
                Hlt1 E1' eq_refl) as Hstep1.
  cbv zeta in Hstep1. simpl i_depth in Hstep1.
  rewrite Flim1 in Hstep1. fold md in Hstep1.
  set (x := progressOf 1 (- SCORE_INFINITE) [] c1) in *.
  set (c3 := emitted x (observed c1)) in *.
  assert (Hloop : exists iv c4,
    idLoop (S (S n)) Me idStart c = Some (iv, c4) /\
    out c4 = out c ++ [x] /\ searching (eng c4) = b /\
    i_depth iv = (if md =? 1 then 1 else 2) /\
    i_completedDepth iv = 1 /\
    i_bestPv iv = [] /\ i_bestScore iv = - SCORE_INFINITE).
  { destruct (Z.eqb_spec md 1) as [Hmd1 | Hne].
    - replace ((md >? 0) && (1 >=? md)) with true in Hstep1
        by (rewrite Hmd1; reflexivity).
      eexists _, _. split; [exact Hstep1 |].
      simpl. rewrite Fout1. repeat split; auto.
    - replace ((md >? 0) && (1 >=? md)) with false in Hstep1.
      2:{ symmetry. apply Bool.andb_false_iff.
          destruct (Z.le_gt_cases md 0).
          - left. rewrite Z.gtb_ltb. apply Z.ltb_ge. lia.
          - right. rewrite Z.geb_leb. apply Z.leb_gt. lia. }
      rewrite Hstep1.
      destruct (Z.ltb_spec 2 MAX_PLY) as [Hlt | Hge].
      + destruct (safe_root_call Me (- SCORE_INFINITE) SCORE_INFINITE
                    (1 + 1) [] c3) as ([score pv] & c4 & E4 & F4).
        pose proof (pvSearch_Keeps _ _ _ _ _ _ _ _ _ _ _ E4) as K4.
        destruct K4 as [Kab _ _ _ _]. destruct F4 as [_ Fout4 Fs4 _ _ _].
        assert (Hab4 : aborted (eng c4) = true) by (apply Kab; exact Hab1).
        set (next := {| i_depth := 1 + 1; i_completedDepth := 1;
                        i_bestPv := []; i_bestScore := - SCORE_INFINITE |}).
        assert (Hlt2 : i_depth next < MAX_PLY) by (simpl; lia).
        assert (E5 : (if i_depth next >? 1 then searchAborted else ret false)
                       c4 = Some (true, observed (with_eng (set_aborted true) c4)))
          by (simpl; exact (searchAborted_set c4 Hab4)).
        rewrite (idLoop_step n Me next c3 score pv c4 true _ Hlt2 E4 E5).
        eexists _, _. split; [reflexivity |].
        simpl. rewrite Fout4. simpl. rewrite Fout1.
        repeat split; auto. rewrite Fs4. simpl. exact Fs1.
      + rewrite idLoop_done by (simpl; lia).
        eexists _, _. split; [reflexivity |].
        simpl. rewrite Fout1. repeat split; auto. }
  destruct Hloop as (iv & c4 & Eloop & Hout & Hs & Hd & Hcd & Hpv & Hsc).
  destruct (idExit_eq iv c4) as (c' & Eexit & Hout' & _).
  exists c', x.
  match type of Hout' with
  | context [finishOf _ ?e0] => exists e0
  end.
  split; [unfold idSearch; rewrite En; now rewrite (bind_Some _ _ _ _ _ Eloop) |].
  split; [| simpl; repeat split; auto].
  rewrite Hout', Hout, Hs, <- app_assoc. simpl app.
  rewrite Hd, Hcd.
  destruct (md =? 1); reflexivity.
Qed.

(** X15.  A search that is accepted runs to its end and lets the next one
    in: from an engine that is not searching, [search] starts a worker;
    the worker's [idSearch] returns, having called every sink while
    [searching] was set, and leaves [searching] clear and the engine's own
    position as it was, so that the next call of [search] is accepted and
    starts from that same position. *)
Theorem worker_finish_reopens_search
    (e : Engine) (lims lims' : SearchLimits) (t t' : Z) (Me : Side)
    (clk : nat -> Z) (ext : nat -> bool) :
  searching e = false ->
  exists e1 data c',
    search e lims t = (e1, Some data) /\
    idSearch Me (worker e1 data clk ext) = Some (Datatypes.tt, c') /\
    Forall (fun x => whileSearching x = true) (out c') /\
    searching (eng c') = false /\
    rootPosition (eng c') = rootPosition e /\
    exists e2 data',
      search (eng c') lims' t' = (e2, Some data') /\
      position data' = rootPosition e.
Proof.
  intros Hs. unfold search at 1. rewrite Hs.
  set (e1 := {| rootPosition := rootPosition e; tt := tt_clear (tt e);
                aborted := false; searching := true |}).
  set (data := newSearchData (rootPosition e) lims t).
  exists e1, data.
  set (c0 := worker e1 data clk ext).
  destruct (idLoop_runs Me (Z.to_nat MAX_PLY) idStart c0)
    as (iv & c1 & Eloop & Hs1 & ps & Hout & Hall & _); [simpl; lia |].
  destruct (idLoop_trace _ _ _ _ _ _ Eloop eq_refl)
    as (_ & _ & Hroot & _).
  destruct (idExit_eq iv c1) as (c' & Eexit & Hout' & Hclr).
  pose proof (idExit_eng _ _ _ _ Eexit) as Heng.
  assert (Hroot' : rootPosition (eng c') = rootPosition e)
    by (rewrite Heng; simpl; rewrite Hroot; reflexivity).
  exists c'.
  split; [reflexivity |].
  split; [unfold idSearch; now rewrite (bind_Some _ _ _ _ _ Eloop) |].
  split.
  { rewrite Hout', Hout, Hs1. simpl.
    apply Forall_app; split.
    - eapply Forall_impl; [| exact Hall]. intros x [_ Hx]. exact Hx.
    - apply Forall_app; split.
      + destruct (_ =? _); repeat constructor.
      + repeat constructor. }
  split; [exact Hclr |]. split; [exact Hroot' |].
  unfold search. rewrite Hclr. eexists _, _.
  split; [reflexivity |]. simpl. exact Hroot'.
Qed.

(** *** Node accounting *)

Lemma enumerate_joint (J : LoopVars -> Ctx -> Prop) moves callback :
  (forall m lv c b lv' c',
     J lv c -> callback m lv c = Some ((b, lv'), c') -> J lv' c') ->
  forall lv c lv' c',
    J lv c -> enumerate moves callback lv c = Some (lv', c') -> J lv' c'.
Proof.
  intros Hcb.
  induction moves as [| m rest IH]; intros lv c lv' c' HJ H.
  - inversion H; subst; auto.
  - rewrite enumerate_cons in H.
    destruct (callback m lv c) as [[[continue lv1] c1] |] eqn:E;
      [| discriminate].
    pose proof (Hcb _ _ _ _ _ _ HJ E) as HJ1.
    destruct continue; [| inversion H; subst; auto].
    exact (IH _ _ _ _ HJ1 H).
Qed.

Lemma Frame_prims :
  (forall c, Frame c (observed c)) /\
  (forall c b, (aborted (eng c) = true -> b = true) ->
               Frame c (with_eng (set_aborted b) c)) /\
  (forall c, Frame c (with_sd (fun d => set_nbNodes (nbNodes d + 1) d) c)) /\
  (forall c (f : Position -> Position),
     Frame c (with_sd (fun d => set_position (f (position d)) d) c)) /\
  (forall c t, Frame c (with_eng (set_tt t) c)).
Proof. repeat split; simpl; auto; lia. Qed.

Lemma qSearch_Frame fuel Me alpha beta depth ply pv :
  preserves Frame (qSearch fuel Me alpha beta depth ply pv).
Proof.
  destruct Frame_prims as (H1 & H2 & H3 & H4 & H5).
  now apply (preserves_qSearch Frame Frame_refl Frame_trans).
Qed.

Lemma pvSearch_Frame fuel Me NT alpha beta depth ply pv :
  preserves Frame (pvSearch fuel Me NT alpha beta depth ply pv).
Proof.
  destruct Frame_prims as (H1 & H2 & H3 & H4 & H5).
  now apply (preserves_pvSearch Frame Frame_refl Frame_trans).
Qed.

Lemma qCallback_node rec beta depth ply move lv c b lv' c' :
  (forall a b0 d p pv, preserves Frame (rec a b0 d p pv)) ->
  qCallback rec beta depth ply move lv c = Some ((b, lv'), c') ->
  nbNodes (sd c) + 1 <= nbNodes (sd c') /\
  l_nbMoves lv' = l_nbMoves lv + 1.
Proof.
  intros Hrec H. unfold qCallback in H.
  bind_split H as u1 c1 E1. inversion E1; subst u1 c1; clear E1.
  bind_split H as u2 c2 E2. inversion E2; subst u2 c2; clear E2.
  bind_split H as r c3 E3. destruct r as [s childPv].
  apply Hrec in E3. destruct E3 as [Hn3 _ _ _ _ _]. simpl in Hn3.
  bind_split H as u4 c4 E4. inversion E4; subst u4 c4; clear E4.
  bind_split H as ab c5 E5. apply searchAborted_sd in E5. simpl in E5.
  assert (Hc : sd c' = sd c5) by (destruct ab; inversion H; reflexivity).
  rewrite Hc, E5. simpl. split; [lia |].
  destruct ab; [inversion H; reflexivity |].
  unfold ret in H. injection H as Hadopt _.
  replace lv' with (snd (adopt move (- s) beta (counted childPv lv)))
    by now rewrite Hadopt.
  now rewrite adopt_nbMoves_same.
Qed.

Lemma pvCallback_node rec NT beta depth ply move lv c b lv' c' :
  (forall nt a b0 d p pv, preserves Frame (rec nt a b0 d p pv)) ->
  pvCallback rec NT beta depth ply move lv c = Some ((b, lv'), c') ->
  nbNodes (sd c) + (l_nbMoves lv' - l_nbMoves lv) <= nbNodes (sd c').
Proof.
  intros Hrec H.
  destruct (skipped NT (limits (sd c)) move) eqn:Hskip.
  { rewrite (pvCallback_skipped _ _ _ _ _ _ _ _ Hskip) in H.
    inversion H; subst. lia. }
  rewrite (pvCallback_not_skipped _ _ _ _ _ _ _ _ Hskip) in H.
  bind_split H as r c3 E3. destruct r as [score childPv].
  apply (preserves_pvsChild Frame Frame_refl Frame_trans) in E3;
    [| exact Hrec].
  destruct E3 as [Hn3 _ _ _ _ _]. simpl in Hn3.
  bind_split H as u4 c4 E4. inversion E4; subst u4 c4; clear E4.
  bind_split H as ab c5 E5. apply searchAborted_sd in E5. simpl in E5.
  assert (Hc : sd c' = sd c5) by (destruct ab; inversion H; reflexivity).
  rewrite Hc, E5. simpl.
  assert (Hm : l_nbMoves lv' = l_nbMoves lv + 1).
  { destruct ab; [inversion H; reflexivity |].
    unfold ret in H. injection H as Hadopt _.
    replace lv' with (snd (adopt move score beta (counted childPv lv)))
      by now rewrite Hadopt.
    now rewrite adopt_nbMoves_same. }
  lia.
Qed.

(** X16.  Every move a move loop counts is a node: when the loop of
    [pvSearch] or of [qSearch] ends, however it ends, [sd.nbNodes] has grown
    by at least the number of moves the loop counted in [nbMoves]. *)
Theorem counted_moves_are_nodes
    fuel Me NT alpha beta depth ply bestScore0 ttHit tte c lv c' :
  (pvLoop (pvSearch fuel (flip Me)) Me NT alpha beta depth ply ttHit tte c
   = Some (lv, c') ->
   nbNodes (sd c) + l_nbMoves lv <= nbNodes (sd c')) /\
  (qLoop (qSearch fuel (flip Me)) Me alpha beta depth ply bestScore0 ttHit
         tte c = Some (lv, c') ->
   nbNodes (sd c) + l_nbMoves lv <= nbNodes (sd c')).
Proof.
  split; intros H.
  - unfold pvLoop in H. bind_split H as x cx E. inversion E; subst x cx.
    apply (enumerate_joint
             (fun lv0 c0 => nbNodes (sd c) + l_nbMoves lv0 <= nbNodes (sd c0)))
      in H; [exact H | | simpl; lia].
    intros m lv0 c0 b lv1 c1 HJ Hcb.
    apply pvCallback_node in Hcb; [lia |].
    intros. apply pvSearch_Frame.
  - unfold qLoop in H. bind_split H as x cx E. inversion E; subst x cx.
    apply (enumerate_joint
             (fun lv0 c0 => nbNodes (sd c) + l_nbMoves lv0 <= nbNodes (sd c0)))
      in H; [exact H | | simpl; lia].
    intros m lv0 c0 b lv1 c1 HJ Hcb.
    apply qCallback_node in Hcb; [lia |].
    intros. apply qSearch_Frame.
Qed.

(** *** What is stored and reported as the best move *)

(** X17.  The move [pvSearch] stores in the table.  Take a call that reaches
    its move loop, counts a move and is not aborted: it writes the probed
    slot with [depth], the bound [LOWER], [UPPER] or [EXACT], [bestMove],
    no static evaluation and [bestScore], and returns [bestScore].  When
    [bestScore] did not beat the [alpha] of the call, the move stored is
    [MOVE_NONE] and the PV is empty; when it did, the move stored is the
    first move of the PV returned.  A node that is not a PV node never
    stores [EXACT]. *)
Theorem pvSearch_stores_the_pv_move
    fuel Me NT alpha beta depth ply pv0 c c1 lv c2 c3 :
  0 < depth ->
  pvAbortCheck NT c = Some (false, c1) ->
  isDraw (position (sd c1)) = false ->
  ply < MAX_PLY ->
  - SCORE_INFINITE <= alpha ->
  let t := tt (eng c1) in
  let probe := tt_get t (hash (position (sd c1))) in
  ttCutoff NT t (fst probe) (snd probe) alpha beta depth ply = false ->
  pvLoop (pvSearch fuel (flip Me)) Me NT alpha beta depth ply
         (fst probe) (snd probe) c1 = Some (lv, c2) ->
  l_nbMoves lv <> 0 ->
  searchAborted c2 = Some (false, c3) ->
  let bestScore := l_bestScore lv in
  let bound := pvBound NT bestScore alpha beta in
  pvSearch (S fuel) Me NT alpha beta depth ply pv0 c
  = Some ((bestScore, l_pv lv),
          with_eng (set_tt
            (tt_set (tt (eng c3)) (snd probe) (hash (position (sd c3)))
                    depth ply bound (l_bestMove lv) SCORE_NONE bestScore
                    false)) c3) /\
  (bestScore <= alpha -> l_bestMove lv = MOVE_NONE /\ l_pv lv = []) /\
  (alpha < bestScore -> exists rest, l_pv lv = l_bestMove lv :: rest) /\
  (PvNode NT = false -> bound <> BOUND_EXACT).
Proof.
  intros Hdepth Hchk Hdraw Hply Hinf t probe Hcut Hloop Hmoves Hab
         bestScore bound.
  pose proof (pvLoop_LoopInv _ _ _ _ _ _ _ _ _ _ _ _ Hloop)
    as [Ha Hb _ Hr Hf].
  split; [| split; [| split]].
  - rewrite (pvSearch_past_ceiling _ _ _ _ _ _ _ _ _ _ Hdepth Hchk Hdraw Hply).
    fold t. fold probe. rewrite Hcut.
    unfold pvMoves.
    rewrite (bind_Some _ _ _ _ _ Hloop), (bind_Some _ _ _ _ _ Hab).
    replace (l_nbMoves lv =? 0) with false
      by (symmetry; now apply Z.eqb_neq).
    reflexivity.
  - intros Hle.
    destruct (Z.eq_dec (l_alpha lv) alpha) as [Heq | Hne].
    + destruct (Hf Heq) as (Hpv & Hmove & _). auto.
    + assert (Hlt : alpha < l_alpha lv) by lia.
      destruct (Hr Hlt) as [Heq _]. unfold bestScore in Hle. lia.
  - intros Hlt.
    destruct (Z.eq_dec (l_alpha lv) alpha) as [Heq | Hne].
    + destruct (Hf Heq) as (_ & _ & Hmax). unfold bestScore in Hlt. lia.
    + assert (Hlt' : alpha < l_alpha lv) by lia.
      exact (proj2 (Hr Hlt')).
  - intros Hnt. unfold bound, pvBound. rewrite Hnt. simpl.
    destruct (bestScore >=? beta); discriminate.
Qed.

Lemma pvCallback_head rec lims NT beta depth ply move lv c b lv' c' :
  limits (sd c) = lims ->
  (l_pv lv = [] \/
   exists m rest, l_pv lv = m :: rest /\ skipped NT lims m = false) ->
  pvCallback rec NT beta depth ply move lv c = Some ((b, lv'), c') ->
  l_pv lv' = [] \/
  exists m rest, l_pv lv' = m :: rest /\ skipped NT lims m = false.
Proof.
  intros Hlim Hinv H.
  destruct (skipped NT (limits (sd c)) move) eqn:Hskip.
  { rewrite (pvCallback_skipped _ _ _ _ _ _ _ _ Hskip) in H.
    inversion H; subst; auto. }
  rewrite (pvCallback_not_skipped _ _ _ _ _ _ _ _ Hskip) in H.
  bind_split H as r c3 E3. destruct r as [score childPv].
  bind_split H as u4 c4 E4. bind_split H as ab c5 E5.
  destruct ab; [inversion H; subst; exact Hinv |].
  unfold ret in H. injection H as Hadopt _.
  replace lv' with (snd (adopt move score beta (counted childPv lv)))
    by now rewrite Hadopt.
  destruct (adopt_pv move score beta (counted childPv lv)) as [-> | ->];
    [exact Hinv |].
  right. exists move, (l_childPv (counted childPv lv)).
  split; [reflexivity | now rewrite <- Hlim].
Qed.

Lemma pvCallback_limits rec NT beta depth ply move lv c b lv' c' :
  (forall nt a b0 d p pv, preserves Frame (rec nt a b0 d p pv)) ->
  pvCallback rec NT beta depth ply move lv c = Some ((b, lv'), c') ->
  limits (sd c') = limits (sd c).
Proof.
  intros Hrec H.
  destruct (skipped NT (limits (sd c)) move) eqn:Hskip.
  { rewrite (pvCallback_skipped _ _ _ _ _ _ _ _ Hskip) in H.
    inversion H; subst; auto. }
  rewrite (pvCallback_not_skipped _ _ _ _ _ _ _ _ Hskip) in H.
  bind_split H as r c3 E3. destruct r as [score childPv].
  apply (preserves_pvsChild Frame Frame_refl Frame_trans) in E3;
    [| exact Hrec].
  destruct E3 as [_ _ _ Hl3 _ _]. simpl in Hl3.
  bind_split H as u4 c4 E4. inversion E4; subst u4 c4; clear E4.
  bind_split H as ab c5 E5. apply searchAborted_sd in E5. simpl in E5.
  assert (Hc : sd c' = sd c5) by (destruct ab; inversion H; reflexivity).
  rewrite Hc, E5. simpl. exact Hl3.
Qed.

(** X18.  [searchmoves] is honoured in the answer: the first move of the PV
    a root call of [pvSearch] at positive depth returns is never one the
    root skips, that is, when [limits.searchMoves] is not empty the move is
    one of its elements.  This holds for aborted calls too. *)
Theorem root_pv_starts_with_a_searchMove
    fuel Me alpha beta depth ply pv0 c score move rest c' :
  0 < depth ->
  pvSearch fuel Me Root alpha beta depth ply pv0 c
  = Some ((score, move :: rest), c') ->
  searchMoves (limits (sd c)) = [] \/
  contains (searchMoves (limits (sd c))) move = true.
Proof.
  intros Hdepth H.
  assert (Hskip : skipped Root (limits (sd c)) move = false).
  { destruct fuel as [| fuel]; [discriminate |].
    rewrite pvSearch_S in H. unfold pvBody in H.
    replace (depth <=? 0) with false in H
      by (symmetry; apply Z.leb_gt; lia).
    bind_split H as stopped c1 E1. apply pvAbortCheck_sd in E1.
    destruct stopped; [inversion H |].
    bind_split H as x cx E. inversion E; subst x cx; clear E.
    destruct (isDraw _); [inversion H |].
    destruct (ply >=? MAX_PLY); [inversion H |].
    destruct (tt_get _ _) as [ttHit tte].
    destruct (ttCutoff _ _ _ _ _ _ _ _); [inversion H |].
    unfold pvMoves in H.
    bind_split H as lv c2 Eloop. unfold pvLoop in Eloop.
    bind_split Eloop as x cx E. inversion E; subst x cx; clear E.
    apply (enumerate_joint
             (fun lv0 c0 =>
                limits (sd c0) = limits (sd c) /\
                (l_pv lv0 = [] \/
                 exists m r, l_pv lv0 = m :: r /\
                             skipped Root (limits (sd c)) m = false)))
      in Eloop.
    - destruct Eloop as [_ Hhead].
      assert (Hpv : l_pv lv = move :: rest).
      { bind_split H as ab c3 Eab.
        destruct ab; [inversion H; reflexivity |].
        destruct (l_nbMoves lv =? 0); [inversion H; reflexivity |].
        bind_split H as u c4 E4. inversion H; reflexivity. }
      rewrite Hpv in Hhead.
      destruct Hhead as [Hnil | (m & r & Heq & Hm)]; [discriminate |].
      inversion Heq; subst. exact Hm.
    - intros m lv0 c0 b lv1 c3 [Hlim Hhead] Hcb. split.
      + rewrite <- Hlim. eapply pvCallback_limits; [| exact Hcb].
        intros. apply pvSearch_Frame.
      + eapply pvCallback_head; [exact Hlim | exact Hhead | exact Hcb].
    - split; [now rewrite E1 | now left]. }
  unfold skipped in Hskip. simpl in Hskip.
  destruct (searchMoves (limits (sd c))) as [| m0 l] eqn:El; [now left |].
  right. simpl length in Hskip.
  replace (0 <? Z.of_nat (S (length l))) with true in Hskip
    by (symmetry; apply Z.ltb_lt; lia).
  simpl in Hskip. now apply Bool.negb_false_iff in Hskip.
Qed.

(** *** The draw score of the earlier revision *)

(** X19.  The earlier revision scores a drawn position
    [1 - (sd.nbNodes & 2)]: this is 1 when bit 1 of the node count is clear
    and -1 when it is set.  It is never [SCORE_DRAW] and never leaves
    [-1 .. 1]. *)
Theorem Revision1_draw_is_one_or_minus_one (nbNodes : Z) :
  Revision1.drawReturn nbNodes = (if Z.testbit nbNodes 1 then - 1 else 1) /\
  - 1 <= Revision1.drawReturn nbNodes <= 1 /\
  Revision1.drawReturn nbNodes <> SCORE_DRAW.
Proof.
  unfold Revision1.drawReturn, SCORE_DRAW. rewrite land_two.
  destruct (Z.testbit nbNodes 1); repeat split; lia.
Qed.

End Facts.

(** ** The kernel at work on the small instance *)

Section Runs.

Import Toy.

(** Evaluate the left-hand side of an equation and compare. *)
Ltac run :=
  match goal with
  | |- ?l = _ => let v := eval vm_compute in l in change l with v
  end;
  reflexivity.

(** The literal scenarios of the specification that the small instance can
    express. *)
Example stalemate_run :
  option_map (fun r => map brief (out (snd r)))
             (idSearch WHITE (quiet stalemate
                {| timeLeft := fun _ => 0; increment := fun _ => 0;
                   movesToGo := 0; maxDepth := 2; maxNodes := 0;
                   searchMoves := [] |}))
  = Some [(OnSearchProgress, 1, [], SCORE_DRAW);
          (OnSearchProgress, 2, [], SCORE_DRAW);
          (OnSearchFinish, 2, [], SCORE_DRAW)].
Proof. vm_compute. reflexivity. Qed.

Example mated_root :
  option_map fst (pvSearch kernelFuel WHITE Root (- INF) INF 1 0 []
                           (quiet mated noLimits))
  = Some (- MATE + 0, []).
Proof. vm_compute. reflexivity. Qed.

Example mate_in_one :
  option_map fst (pvSearch kernelFuel WHITE Root (- INF) INF 2 0 []
                           (quiet mateInOne noLimits))
  = Some (MATE - 1, [1%nat]).
Proof. vm_compute. reflexivity. Qed.

(** *** C1 *)

(** A stalemate at the root, searched to the end: the move loop is reached,
    counts nothing, and the draw score comes back. *)
Lemma pvSearch_no_move_terminal_witness :
  exists c3,
    pvSearch 1 WHITE Root (- INF) INF 1 0 [] (quiet stalemate noLimits)
    = Some ((SCORE_DRAW, []), c3).
Proof.
  eexists.
  apply (pvSearch_no_move_terminal 0 WHITE Root (- INF) INF 1 0 []
           (quiet stalemate noLimits) (quiet stalemate noLimits)
           {| l_nbMoves := 0; l_bestScore := - INF; l_bestMove := MOVE_NONE;
              l_alpha := - INF; l_pv := []; l_childPv := [] |}
           (quiet stalemate noLimits) false);
    first [reflexivity | lia].
Defined.

(** The same stalemate when the caller's [stop()] was quicker than the
    worker.  The call reaches the move loop and counts no move, the side to
    move is not in check, and yet the score is [-SCORE_INFINITE], not
    [SCORE_DRAW]. *)
Lemma no_move_but_aborted :
  let c := stoppedEarly stalemate noLimits in
  let lv0 := {| l_nbMoves := 0; l_bestScore := - INF; l_bestMove := MOVE_NONE;
                l_alpha := - INF; l_pv := []; l_childPv := [] |} in
  pvAbortCheck Root c = Some (false, c) /\
  isDraw (position (sd c)) = false /\
  0 < MAX_PLY /\
  ttCutoff Root (tt (eng c)) false 1 (- INF) INF 1 0 = false /\
  pvLoop (pvSearch 0 BLACK) WHITE Root (- INF) INF 1 0 false 1 c
  = Some (lv0, c) /\
  l_nbMoves lv0 = 0 /\
  inCheck (position (sd c)) = false /\
  option_map fst (pvSearch 1 WHITE Root (- INF) INF 1 0 [] c)
  = Some (- SCORE_INFINITE, []) /\
  - SCORE_INFINITE <> SCORE_DRAW.
Proof. cbv zeta. repeat split; try reflexivity. discriminate. Qed.

(** Through the facade: [search], then [stop()], then the worker.  Depth 1
    is adopted, so the stalemate is reported with [-SCORE_INFINITE]. *)
Example stalemate_stopped_early :
  option_map (fun r => map brief (out (snd r)))
             (idSearch WHITE (stoppedEarly stalemate noLimits))
  = Some [(OnSearchProgress, 1, [], - SCORE_INFINITE);
          (OnSearchProgress, 2, [], - SCORE_INFINITE);
          (OnSearchFinish, 2, [], - SCORE_INFINITE)].
Proof. vm_compute. reflexivity. Qed.

(** *** C10 *)

(** Two legal moves, and a [searchmoves] list that names neither: the root
    answers with the stalemate score. *)
Lemma root_searchMoves_none_legal_witness :
  exists c',
    pvSearch 1 WHITE Root (- INF) INF 1 0 [] (quiet twoMoves (onlyMoves [7%nat]))
    = Some ((SCORE_DRAW, []), c').
Proof.
  eexists.
  apply (root_searchMoves_none_legal 0 WHITE (- INF) INF 1 []
           (quiet twoMoves (onlyMoves [7%nat])) false).
  - lia.
  - reflexivity.
  - reflexivity.
  - discriminate.
  - intros ttMove m Hin.
    assert (Hm : m = 1%nat \/ m = 2%nat).
    { revert Hin. simpl. unfold picker, hintFirst, legal. simpl.
      destruct ttMove as [| [| [| k]]]; simpl; intuition congruence. }
    destruct Hm as [-> | ->]; reflexivity.
  - reflexivity.
Defined.

(** Where the statement without its two provisos fails.  First, a root in
    check whose fifty-move counter has run out, with two legal evasions and
    a [searchmoves] list that names neither: the call returns [SCORE_DRAW]
    from the draw test, not [-SCORE_MATE + 0].  Second, the two-move
    position when [stop()] was quicker than the worker: the call returns
    [-SCORE_INFINITE], not [SCORE_DRAW]. *)
Lemma searchMoves_none_legal_other_scores :
  let c := quiet fiftyInCheck (onlyMoves [7%nat]) in
  let c' := stoppedEarly twoMoves (onlyMoves [7%nat]) in
  (mp_moves MAIN WHITE (position (sd c)) MOVE_NONE = [1%nat; 2%nat] /\
   inCheck (position (sd c)) = true /\
   option_map fst (pvSearch 1 WHITE Root (- INF) INF 1 0 [] c)
   = Some (SCORE_DRAW, []) /\
   SCORE_DRAW <> - SCORE_MATE + 0) /\
  (mp_moves MAIN WHITE (position (sd c')) MOVE_NONE = [1%nat; 2%nat] /\
   inCheck (position (sd c')) = false /\
   option_map fst (pvSearch 1 WHITE Root (- INF) INF 1 0 [] c')
   = Some (- SCORE_INFINITE, []) /\
   - SCORE_INFINITE <> SCORE_DRAW).
Proof. cbv zeta. repeat split; try reflexivity; discriminate. Qed.

(** *** C2 *)

(** The drawn position, entered as a non-PV node at depth 1 and as a
    quiescence node. *)
Lemma draw_returns_SCORE_DRAW_witness :
  exists c1,
    qSearch 1 WHITE (- 5) 5 0 3 [] (quiet fiftyInCheck noLimits)
    = Some ((SCORE_DRAW, []), c1) /\
    pvSearch 1 WHITE NonPV (- 5) 5 1 3 [] (quiet fiftyInCheck noLimits)
    = Some ((SCORE_DRAW, []), c1).
Proof.
  eexists.
  split;
    apply (draw_returns_SCORE_DRAW 0 WHITE NonPV (- 5) 5);
    reflexivity.
Defined.

(** *** C3 *)

(** A non-PV node on a position the table knows at depth 5 with an exact
    score: the stored score comes back and no node is counted. *)
Lemma tt_cutoff_exactly_when_witness :
  exists r,
    pvSearch 2 WHITE NonPV (- 5) 5 1 127 [] (remembered twoMoves) = Some r /\
    fst r = (42, []) /\ nbNodes (sd (snd r)) = 0.
Proof.
  destruct (tt_cutoff_exactly_when 1 WHITE NonPV (- 5) 5 1 127 []
              (remembered twoMoves)
              (observed (with_eng (set_aborted false)
                                  (observed (remembered twoMoves)))))
    as (r & c' & E & Hcut & _); try reflexivity; try lia.
  exists (r, c'). split; [exact E |].
  destruct (Hcut eq_refl) as [-> ->]. split; reflexivity.
Defined.

(** The same table at a PV node: the moves are searched. *)
Example pv_node_searches_despite_entry :
  option_map (fun r => (fst r, nbNodes (sd (snd r))))
             (pvSearch 2 WHITE PV (- 5) 5 1 127 [] (remembered twoMoves))
  = Some ((20, [2%nat]), 1).
Proof. vm_compute. reflexivity. Qed.

(** *** C4 *)

(** Second move at the root; the scout comes back above [alpha], so the
    move is searched again with the full window. *)
Lemma pvs_child_searches_witness :
  pvsChild (recorded (fun call => match c_node call with
                                  | NonPV => - 5
                                  | _ => - 7
                                  end))
           Root 2 (- 10) 10 3 0 [] []
  = Some ((7, []),
          [ {| c_node := NonPV; c_alpha := 9; c_beta := 10; c_depth := 2;
               c_ply := 1 |};
            {| c_node := PV; c_alpha := - 10; c_beta := 10; c_depth := 2;
               c_ply := 1 |} ]).
Proof.
  apply (pvs_child_searches
           (fun call => match c_node call with NonPV => - 5 | _ => - 7 end)
           Root 2 (- 10) 10 3 0 []).
  lia.
Defined.

(** The first move at the root of the two quiet moves: no scout, the
    full-window search at once, from the position the move leads to. *)
Lemma pvSearch_move_searches_witness :
  let c := quiet twoMoves noLimits in
  let start := {| l_nbMoves := 0; l_bestScore := - INF; l_bestMove := O;
                  l_alpha := - INF; l_pv := []; l_childPv := [] |} in
  let played :=
    with_sd (fun d => set_position (doMove (position d) 1%nat) d)
            (with_sd (fun d => set_nbNodes (nbNodes d + 1) d) c) in
  position (sd played) = leaf 1 4 30 :: twoMoves /\
  pvCallback (pvSearch 1 BLACK) Root INF 1 127 1%nat start c
  = ('(s2, pv2) <- pvSearch 1 BLACK PV (- INF) INF 0 128 [] ;;
     unmakeMove 1%nat ;;;
     ab <- searchAborted ;;
     if ab then ret (false, counted pv2 start)
     else ret (adopt 1%nat (- s2) INF (counted pv2 start))) played.
Proof.
  intros c start played. split; [reflexivity |].
  assert (Hdepth : 0 < 1) by lia.
  assert (Hply : 127 < MAX_PLY) by reflexivity.
  destruct (pvSearch_move_searches 1 WHITE Root (- INF) INF 1 127 [] c c
              Hdepth eq_refl eq_refl Hply eq_refl) as (_ & _ & Hmove).
  assert (Hn : 0 <= l_nbMoves start) by (simpl; lia).
  destruct (Hmove 1%nat start c Hn) as [_ Hsearch].
  exact (Hsearch eq_refl).
Defined.

(** Where the statement fails for a yielded move.  Three moves at the root
    and [searchmoves 1 2]: the picker yields all three, the first two are
    counted and searched, and the whole call counts two nodes.  When the
    lambda comes to the third move the node is a PV node and the counter is
    2, above 1, so that a scout would be due; the lambda, run with a
    recursion that cannot return, returns at once with the locals and the
    state as they were: no search is made. *)
Lemma skipped_root_move_is_not_searched :
  let c := quiet threeMoves (onlyMoves [1%nat; 2%nat]) in
  let start := {| l_nbMoves := 0; l_bestScore := - INF; l_bestMove := O;
                  l_alpha := - INF; l_pv := []; l_childPv := [] |} in
  let lambda := pvCallback (pvSearch 1 BLACK) Root INF 1 127 in
  let blind := pvCallback (fun _ _ _ _ _ _ => fail) Root INF 1 127 in
  mp_moves MAIN WHITE (position (sd c)) MOVE_NONE = [1%nat; 2%nat; 3%nat] /\
  option_map (fun r => nbNodes (sd (snd r)))
             (pvSearch 2 WHITE Root (- INF) INF 1 127 [] c) = Some 2 /\
  match enumerate [1%nat; 2%nat] lambda start c with
  | Some (lv, c2) =>
      PvNode Root = true /\ l_nbMoves lv = 2 /\
      blind 3%nat lv c2 = Some ((true, lv), c2)
  | None => False
  end.
Proof.
  intros c start lambda blind.
  split; [reflexivity |]. split; [vm_compute; reflexivity |].
  set (loop := enumerate (X:=externals) [1%nat; 2%nat] lambda start c).
  assert (Hrun : option_map
                   (fun r => (l_nbMoves (fst r),
                              skipped Root (limits (sd (snd r))) 3%nat))
                   loop = Some (2, true)) by run.
  destruct loop as [[lv c2] |]; [| discriminate Hrun].
  simpl in Hrun. injection Hrun as Hn Hskip.
  split; [reflexivity |]. split; [exact Hn |].
  unfold blind. apply pvCallback_skipped. exact Hskip.
Qed.

(** *** C5 *)

(** Not in check, evaluation 5: with [beta = 3] the evaluation is returned
    on the spot; with the full window the capture is searched from
    [alpha = 5], [bestScore = 5]. *)
Lemma qSearch_standing_pat_witness :
  exists c1,
    qAbortCheck (quiet capture noLimits) = Some (false, c1) /\
    qSearch 3 WHITE (- INF) 3 0 0 [] (quiet capture noLimits)
    = Some ((5, []), c1) /\
    qSearch 3 WHITE (- INF) INF 0 0 [] (quiet capture noLimits)
    = qMoves (qSearch 2 BLACK) WHITE 5 INF 0 0 5 (- INF) 5 false c1.
Proof.
  set (c := quiet capture noLimits).
  set (c1 := observed (with_eng (set_aborted false) (observed c))).
  exists c1. split; [reflexivity |]. split.
  - destruct (qSearch_standing_pat 2 WHITE (- INF) 3 0 0 [] c c1
                eq_refl eq_refl eq_refl) as (Hpat & _ & _).
    apply Hpat; [reflexivity | simpl; lia].
  - destruct (qSearch_standing_pat 2 WHITE (- INF) INF 0 0 [] c c1
                eq_refl eq_refl eq_refl) as (_ & Hgo & _).
    apply Hgo; reflexivity.
Defined.

(** *** C6 *)

(** The capture is searched and wins 100; the slot of the position then
    holds depth 0, the exact bound, the capture, the evaluation 5 and the
    score. *)
Lemma qSearch_tt_store_witness :
  exists r,
    qSearch 3 WHITE (- INF) INF 0 0 [] (quiet capture noLimits) = Some r /\
    fst r = (100, [10%nat]) /\
    lookup (tt (eng (snd r))) 12
    = Some {| e_depth := 0; e_bound := BOUND_EXACT; e_move := 10%nat;
              e_score := 100; e_eval := 5 |}.
Proof.
  eexists. split.
  - eapply (qSearch_tt_store 2 WHITE (- INF) INF 0 0 []
              (quiet capture noLimits)).
    + run.
    + reflexivity.
    + reflexivity.
    + intros _. reflexivity.
    + run.
    + run.
  - split; run.
Defined.

(** *** C7 *)

(** One millisecond for the move and a worker that starts late: the
    depth-1 search is aborted at its first child, and its result, an empty
    PV with [-SCORE_INFINITE], is adopted all the same. *)
Lemma idLoop_adoption_witness :
  exists score pv c1,
    pvSearch kernelFuel WHITE Root (- SCORE_INFINITE) SCORE_INFINITE 1 0 []
             (late twoMoves blitz) = Some ((score, pv), c1) /\
    aborted (eng c1) = true /\
    pv = [] /\
    idLoop 2 WHITE idStart (late twoMoves blitz)
    = idLoop 1 WHITE {| i_depth := 2; i_completedDepth := 1;
                        i_bestPv := pv; i_bestScore := score |}
             (emitted (progressOf 1 score pv c1) (observed c1)).
Proof.
  set (c := late twoMoves blitz).
  destruct (safe_root_call WHITE (- SCORE_INFINITE) SCORE_INFINITE 1 [] c)
    as ([score pv] & c1 & Eroot & F).
  assert (Hrun : option_map (fun r => (snd (fst r), aborted (eng (snd r))))
                   (pvSearch kernelFuel WHITE Root (- SCORE_INFINITE)
                             SCORE_INFINITE 1 0 [] c)
                 = Some ([], true)) by run.
  rewrite Eroot in Hrun. simpl in Hrun. injection Hrun as Hpv Hab.
  exists score, pv, c1.
  split; [exact Eroot |]. split; [exact Hab |]. split; [exact Hpv |].
  destruct (idLoop_adoption 1 WHITE idStart c score pv c1 eq_refl Eroot)
    as [Hkeep _].
  rewrite Hkeep by (simpl; lia).
  destruct F as [_ _ _ Hl _ _]. rewrite Hl. reflexivity.
Defined.

(** That run to its end.  The position has two legal moves, depth 1 is the
    accepted depth, and the event handed to the finish sink holds no move
    at all. *)
Lemma depth_one_adopted_without_a_move :
  mp_moves MAIN WHITE twoMoves MOVE_NONE = [1%nat; 2%nat] /\
  option_map (fun r => map brief (out (snd r)))
             (idSearch WHITE (late twoMoves blitz))
  = Some [(OnSearchProgress, 1, [], - SCORE_INFINITE);
          (OnSearchProgress, 2, [], - SCORE_INFINITE);
          (OnSearchFinish, 2, [], - SCORE_INFINITE)].
Proof. split; vm_compute; reflexivity. Qed.

(** With nothing in the way, depth 1 gives the better of the two moves. *)
Example depth_one_unhindered :
  option_map fst (pvSearch kernelFuel WHITE Root (- SCORE_INFINITE)
                           SCORE_INFINITE 1 0 [] (quiet twoMoves noLimits))
  = Some (20, [2%nat]).
Proof. vm_compute. reflexivity. Qed.

(** *** C8 *)

(** A limit of three nodes: depth 1 completes on two, depth 2 is aborted on
    the third.  The loop ends with [depth = 2] and [completedDepth = 1];
    one more progress event is sent, with the PV and score of depth 1, and
    its depth field is 2, which is not the accepted depth. *)
Lemma extra_progress_names_unaccepted_depth :
  option_map (fun r => (i_depth (fst r), i_completedDepth (fst r)))
             (idLoop (Z.to_nat MAX_PLY) WHITE idStart
                     (quiet twoMoves (nodes 3)))
  = Some (2, 1) /\
  option_map (fun r => map brief (out (snd r)))
             (idSearch WHITE (quiet twoMoves (nodes 3)))
  = Some [(OnSearchProgress, 1, [2%nat], 20);
          (OnSearchProgress, 2, [2%nat], 20);
          (OnSearchFinish, 2, [2%nat], 20)] /\
  2 <> 1.
Proof. repeat split; try (vm_compute; reflexivity). discriminate. Qed.

(** A search that runs into [maxDepth]: no additional event, and every sink
    is called while [searching] is still set. *)
Example finish_after_maxDepth :
  option_map (fun r => (map brief (out (snd r)),
                        map whileSearching (out (snd r)),
                        searching (eng (snd r))))
             (idSearch WHITE (quiet twoMoves
                {| timeLeft := fun _ => 0; increment := fun _ => 0;
                   movesToGo := 0; maxDepth := 1; maxNodes := 0;
                   searchMoves := [] |}))
  = Some ([(OnSearchProgress, 1, [2%nat], 20);
           (OnSearchFinish, 1, [2%nat], 20)],
          [true; true], false).
Proof. vm_compute. reflexivity. Qed.

(** *** C9 *)

(** A second [search] while the first is running changes nothing. *)
Example search_twice :
  search (started twoMoves noLimits) (nodes 3) 7
  = (started twoMoves noLimits, None).
Proof. reflexivity. Qed.

(** ** Runs for the further properties *)

(** 40 ms on the clock and no [movesToGo]: one fortieth, 1 ms. *)
Lemma allocated_time_bounds_witness :
  initAllocatedTime (X:=externals) twoMoves blitz = 1 /\
  let share := initAllocatedTime (X:=externals) twoMoves blitz - 0 in
  0 <= share <= 40 /\ 40 * share <= 40 < 40 * (share + 1).
Proof.
  split; [reflexivity |].
  apply (allocated_time_bounds (X:=externals) twoMoves blitz);
    unfold fits64; simpl; lia.
Defined.

(** All the time an [int64_t] holds, one move to go and an increment of one
    millisecond: the sum wraps around to the least 64-bit value. *)
Example allocated_time_wraps :
  initAllocatedTime (X:=externals) twoMoves
    {| timeLeft := fun _ => 2 ^ 63 - 1; increment := fun _ => 1;
       movesToGo := 1; maxDepth := 0; maxNodes := 0; searchMoves := [] |}
  = - 2 ^ 63.
Proof. vm_compute. reflexivity. Qed.

(** One ply below the ceiling two levels are enough. *)
Lemma kernel_returns_below_ceiling_witness :
  let c := quiet twoMoves noLimits in
  (exists r c', pvSearch 2 WHITE PV (- 5) 5 1 127 [] c = Some (r, c') /\
                Frame c c') /\
  (exists r c', qSearch 2 WHITE (- 5) 5 1 127 [] c = Some (r, c') /\
                Frame c c').
Proof.
  intros c.
  apply (kernel_returns_below_ceiling 2 WHITE PV (- 5) 5 1 127 [] c).
  vm_compute. reflexivity.
Defined.

(** A quiescence search started after [stop()]: the flag is still set when
    it returns. *)
Lemma kernel_never_clears_aborted_witness :
  let c := stoppedEarly capture noLimits in
  exists r c',
    qSearch 2 WHITE (- INF) INF 0 127 [] c = Some (r, c') /\
    Keeps c c' /\ aborted (eng c') = true.
Proof.
  intros c.
  assert (Hfuel : Z.max 0 (MAX_PLY - 127) < Z.of_nat 2)
    by (vm_compute; reflexivity).
  destruct (safe_qSearch 2 WHITE (- INF) INF 0 127 [] Hfuel c)
    as (r & c' & E & _).
  exists r, c'. split; [exact E |].
  pose proof (kernel_never_clears_aborted 2 WHITE PV (- INF) INF 0 127 []
                c r c' (or_intror E)) as K.
  split; [exact K |]. apply (k_aborted _ _ K). reflexivity.
Defined.

Lemma aborted_call_returns_at_once_witness :
  let c := stoppedEarly twoMoves noLimits in
  (exists c',
     qSearch 1 WHITE (- 5) 5 1 0 [] c = Some ((- INF, []), c') /\
     sd c' = sd c /\ tt (eng c') = tt (eng c) /\ aborted (eng c') = true) /\
  (exists c',
     pvSearch 1 WHITE NonPV (- 5) 5 1 0 [] c = Some ((- INF, []), c') /\
     sd c' = sd c /\ tt (eng c') = tt (eng c) /\ aborted (eng c') = true).
Proof.
  intros c.
  destruct (aborted_call_returns_at_once 0 WHITE NonPV (- 5) 5 1 0 [] c
              eq_refl) as [Hq Hpv].
  split; [exact Hq |]. apply Hpv. left. reflexivity.
Defined.

(** The root of a search stopped before it began: the first move is made
    and taken back, and nothing comes of it. *)
Lemma aborted_root_returns_nothing_witness :
  let c := stoppedEarly twoMoves noLimits in
  exists c',
    pvSearch 3 WHITE Root (- INF) INF 1 0 [] c = Some ((- INF, []), c') /\
    nbNodes (sd c) <= nbNodes (sd c') <= nbNodes (sd c) + 1 /\
    tt (eng c') = tt (eng c).
Proof.
  intros c.
  apply (aborted_root_returns_nothing 1 WHITE (- INF) INF 1 0 [] c);
    reflexivity.
Defined.

(** The capture is searched from [alpha = -SCORE_INFINITE] and fills the
    PV. *)
Lemma pv_only_above_alpha_witness :
  let c := quiet capture noLimits in
  exists score pv c',
    qSearch 3 WHITE (- INF) INF 0 126 [] c = Some ((score, pv), c') /\
    pv = [10%nat] /\ - INF < score.
Proof.
  intros c.
  assert (Hfuel : Z.max 0 (MAX_PLY - 126) < Z.of_nat 3)
    by (vm_compute; reflexivity).
  destruct (safe_qSearch 3 WHITE (- INF) INF 0 126 [] Hfuel c)
    as ([score pv] & c' & E & _).
  assert (Hrun : option_map (fun r => snd (fst r))
                   (qSearch 3 WHITE (- INF) INF 0 126 [] c)
                 = Some [10%nat]) by run.
  rewrite E in Hrun. simpl in Hrun. injection Hrun as Hpv.
  exists score, pv, c'. split; [exact E |]. split; [exact Hpv |].
  apply (pv_only_above_alpha 3 WHITE PV (- INF) INF 0 126 [] c score pv c'
           (or_intror E)).
  rewrite Hpv. discriminate.
Defined.

(** Not in check with an evaluation of 5: whatever the capture brings, the
    result is not below 5. *)
Lemma qSearch_never_below_stand_pat_witness :
  let c := quiet capture noLimits in
  exists score pv c',
    qSearch 3 WHITE (- INF) INF 0 126 [] c = Some ((score, pv), c') /\
    5 <= score.
Proof.
  intros c.
  assert (Hfuel : Z.max 0 (MAX_PLY - 126) < Z.of_nat 3)
    by (vm_compute; reflexivity).
  destruct (safe_qSearch 3 WHITE (- INF) INF 0 126 [] Hfuel c)
    as ([score pv] & c' & E & _).
  exists score, pv, c'. split; [exact E |].
  apply (qSearch_never_below_stand_pat 3 WHITE (- INF) INF 0 126 [] c
           (observed (with_eng (set_aborted false) (observed c)))
           score pv c' E);
    reflexivity.
Defined.

(** In the small instance a move that the picker yields is a legal one,
    playing it pushes the child and taking it back pops it. *)
Lemma hintFirst_In hint l m : In m (hintFirst hint l) -> In m l.
Proof.
  unfold hintFirst. destruct (existsb (Nat.eqb hint) l) eqn:E; [| auto].
  intros [<- | H].
  - apply existsb_exists in E. destruct E as (x & Hx & Heq).
    apply Nat.eqb_eq in Heq. now subst.
  - apply filter_In in H. tauto.
Qed.

Lemma picker_legal pk side p hint m :
  In m (picker pk side p hint) -> In m (legal p).
Proof.
  destruct pk; simpl; [apply hintFirst_In |].
  destruct (check_of (here p)); intros H; apply hintFirst_In in H;
    [exact H | apply filter_In in H; tauto].
Qed.

Lemma play_legal p m : In m (legal p) -> tl (play p m) = p.
Proof.
  unfold legal, play. intros H.
  destruct (find _ _) eqn:E; [reflexivity |].
  apply in_map_iff in H. destruct H as (k & Hk & Hin).
  apply (find_none _ _ E) in Hin. simpl in Hin.
  rewrite Hk, Nat.eqb_refl in Hin. discriminate.
Qed.

Lemma toy_reversible : Reversible.
Proof.
  intros pk side pos hint move H. simpl.
  apply play_legal. exact (picker_legal _ _ _ _ _ H).
Qed.

(** Depth 1 on the two quiet moves: the position comes back and the PV,
    the second move, is a line. *)
Lemma pv_is_a_line_from_the_restored_position_witness :
  let c := quiet twoMoves noLimits in
  exists score pv c',
    pvSearch kernelFuel WHITE Root (- INF) INF 1 0 [] c
    = Some ((score, pv), c') /\
    pv = [2%nat] /\
    position (sd c') = twoMoves /\ line WHITE twoMoves pv.
Proof.
  intros c.
  destruct (safe_root_call WHITE (- INF) INF 1 [] c)
    as ([score pv] & c' & E & _).
  assert (Hrun : option_map (fun r => snd (fst r))
                   (pvSearch kernelFuel WHITE Root (- INF) INF 1 0 [] c)
                 = Some [2%nat]) by run.
  rewrite E in Hrun. simpl in Hrun. injection Hrun as Hpv.
  exists score, pv, c'. split; [exact E |]. split; [exact Hpv |].
  apply (pv_is_a_line_from_the_restored_position kernelFuel WHITE Root
           (- INF) INF 1 0 [] c score pv c' toy_reversible (or_introl E)).
Defined.

(** At ply 128 the evaluation of the position, 0, comes back from both
    searches. *)
Lemma ply_ceiling_returns_evaluation_witness :
  let c := quiet twoMoves noLimits in
  let c1 := observed (with_eng (set_aborted false) (observed c)) in
  qSearch 1 WHITE (- 5) 5 0 128 [] c = Some ((0, []), c1) /\
  pvSearch 1 WHITE PV (- 5) 5 3 128 [] c = Some ((0, []), c1).
Proof.
  intros c c1.
  assert (Hply : MAX_PLY <= 128) by (vm_compute; discriminate).
  destruct (ply_ceiling_returns_evaluation 0 WHITE PV (- 5) 5 3 128 [] c c1
              Hply eq_refl) as [_ Hpv].
  destruct (ply_ceiling_returns_evaluation 0 WHITE PV (- 5) 5 0 128 [] c c1
              Hply eq_refl) as [Hq _].
  split.
  - apply Hq. reflexivity.
  - apply Hpv; [reflexivity | lia].
Defined.

(** Two quiet moves and no capture: quiescence has nothing to search and
    answers with the evaluation. *)
Lemma qSearch_without_moves_witness :
  let c := quiet twoMoves noLimits in
  exists c',
    qSearch 1 WHITE (- 5) 5 0 0 [] c = Some ((0, []), c') /\ sd c' = sd c.
Proof.
  intros c.
  set (c1 := observed (with_eng (set_aborted false) (observed c))).
  set (c2 := observed (with_eng (set_aborted false) c1)).
  apply (qSearch_without_moves 0 WHITE (- 5) 5 0 0 [] c c1 c2);
    first [reflexivity | intros ttMove; reflexivity].
Defined.

(** [maxDepth = 1] and nothing in the way: one progress event, then the
    finish event, both for depth 1. *)
Lemma unaborted_search_reaches_limit_witness :
  let c := quiet twoMoves depthOne in
  exists c' ps e,
    idSearch WHITE c = Some (Datatypes.tt, c') /\
    out c' = out c ++ ps ++ [] ++ [finishOf true e] /\
    depthsFrom 1 ps /\ Z.of_nat (length ps) = 1 /\ ev_depth e = 1.
Proof.
  intros c.
  destruct (idSearch WHITE c) as [[[] c'] |] eqn:E.
  - assert (Hrun : option_map (fun r => aborted (eng (snd r)))
                     (idSearch WHITE c) = Some false) by run.
    rewrite E in Hrun. simpl in Hrun. injection Hrun as Hab.
    assert (Hply : 1 <= MAX_PLY) by (vm_compute; discriminate).
    destruct (unaborted_search_reaches_limit WHITE c c' Hply E Hab)
      as (ps & e & H1 & H2 & H3 & H4).
    exists c', ps, e. split; [reflexivity |].
    split; [exact H1 |]. split; [exact H2 |]. split; [exact H3 | exact H4].
  - assert (Hrun : option_map (fun _ => true) (idSearch WHITE c) = Some true)
      by run.
    rewrite E in Hrun. discriminate Hrun.
Defined.

(** [stop()] before the worker runs, no [maxDepth]: depth 1 is reported
    with no move, and the search finishes under depth 2. *)
Lemma search_stopped_before_start_witness :
  let c := stoppedEarly twoMoves noLimits in
  exists c' x e,
    idSearch WHITE c = Some (Datatypes.tt, c') /\
    out c' = out c ++ [x] ++ [extraProgress true e] ++ [finishOf true e] /\
    sink x = OnSearchProgress /\
    ev_depth (event x) = 1 /\ ev_pv (event x) = [] /\
    ev_bestScore (event x) = - INF /\
    ev_depth e = 2 /\ ev_pv e = [] /\ ev_bestScore e = - INF.
Proof.
  intros c.
  apply (search_stopped_before_start WHITE c); reflexivity.
Defined.

Lemma worker_finish_reopens_search_witness :
  exists e1 data c',
    search (idle twoMoves) depthOne 0 = (e1, Some data) /\
    idSearch WHITE (worker e1 data still nobody) = Some (Datatypes.tt, c') /\
    Forall (fun x => whileSearching x = true) (out c') /\
    searching (eng c') = false /\
    rootPosition (eng c') = twoMoves /\
    exists e2 data',
      search (eng c') noLimits 7 = (e2, Some data') /\
      position data' = twoMoves.
Proof.
  apply (worker_finish_reopens_search (idle twoMoves) depthOne noLimits 0 7
           WHITE still nobody).
  reflexivity.
Defined.

(** The move loop of quiescence on the capture, entered with [alpha] and
    [bestScore] at the evaluation 5: the capture raises [alpha], and the PV
    starts with it. *)
Lemma move_loop_invariant_witness :
  exists lv c',
    qLoop (X:=externals) (qSearch 1 BLACK) WHITE 5 INF 0 127 5 false 12
          (quiet capture noLimits) = Some (lv, c') /\
    LoopInv 5 5 lv /\
    BestLine (qChild (qSearch 1 BLACK) INF 0 127) 5 lv /\
    l_pv lv = [10%nat].
Proof.
  set (loop := qLoop (X:=externals) (qSearch 1 BLACK) WHITE 5 INF 0 127 5 false 12
                     (quiet capture noLimits)).
  assert (Hrun : option_map (fun r => l_pv (fst r)) loop = Some [10%nat])
    by run.
  destruct loop as [[lv c'] |] eqn:E; [| discriminate Hrun].
  simpl in Hrun. injection Hrun as Hpv.
  exists lv, c'. split; [reflexivity |].
  destruct (proj2 (move_loop_invariant (X:=externals) (qSearch 1 BLACK)
                     (pvSearch 1 BLACK) WHITE PV 5 INF 0 127 5 false 12
                     (quiet capture noLimits) lv c') E) as [Hinv Hline].
  split; [exact Hinv |]. split; [exact Hline | exact Hpv].
Defined.

(** The root loop over the two quiet moves counts two moves and two
    nodes. *)
Lemma counted_moves_are_nodes_witness :
  exists lv c',
    pvLoop (X:=externals) (pvSearch 1 BLACK) WHITE Root (- INF) INF 1 127 false 3
           (quiet twoMoves noLimits) = Some (lv, c') /\
    l_nbMoves lv = 2 /\
    nbNodes (sd (quiet twoMoves noLimits)) + l_nbMoves lv <= nbNodes (sd c').
Proof.
  set (loop := pvLoop (X:=externals) (pvSearch 1 BLACK) WHITE Root (- INF) INF 1 127 false 3
                      (quiet twoMoves noLimits)).
  assert (Hrun : option_map (fun r => l_nbMoves (fst r)) loop = Some 2)
    by run.
  destruct loop as [[lv c'] |] eqn:E; [| discriminate Hrun].
  simpl in Hrun. injection Hrun as Hn.
  exists lv, c'. split; [reflexivity |]. split; [exact Hn |].
  exact (proj1 (counted_moves_are_nodes (X:=externals) 1 WHITE Root (- INF) INF 1 127 0
                  false 3 (quiet twoMoves noLimits) lv c') E).
Defined.

(** Depth 1 at the root of the two quiet moves: the second move scores 20
    inside the window, and the slot of the position holds it with the exact
    bound. *)
Lemma pvSearch_stores_the_pv_move_witness :
  exists r,
    pvSearch 2 WHITE Root (- INF) INF 1 127 [] (quiet twoMoves noLimits)
    = Some r /\
    fst r = (20, [2%nat]) /\
    lookup (tt (eng (snd r))) 3
    = Some {| e_depth := 1; e_bound := BOUND_EXACT; e_move := 2%nat;
              e_score := 20; e_eval := NONE |}.
Proof.
  edestruct (pvSearch_stores_the_pv_move 1 WHITE Root (- INF) INF 1 127 []
               (quiet twoMoves noLimits) (quiet twoMoves noLimits))
    as (E & _).
  - lia.
  - reflexivity.
  - reflexivity.
  - reflexivity.
  - vm_compute. discriminate.
  - reflexivity.
  - run.
  - simpl. discriminate.
  - run.
  - eexists. split; [exact E |]. split; run.
Defined.

(** [searchmoves] names the first move only: the PV is that move, although
    the second one scores better. *)
Lemma root_pv_starts_with_a_searchMove_witness :
  let c := quiet twoMoves (onlyMoves [1%nat]) in
  exists score c',
    pvSearch kernelFuel WHITE Root (- INF) INF 1 0 [] c
    = Some ((score, [1%nat]), c') /\
    (searchMoves (limits (sd c)) = [] \/
     contains (searchMoves (limits (sd c))) 1%nat = true).
Proof.
  intros c.
  destruct (safe_root_call WHITE (- INF) INF 1 [] c)
    as ([score pv] & c' & E & _).
  assert (Hrun : option_map (fun r => snd (fst r))
                   (pvSearch kernelFuel WHITE Root (- INF) INF 1 0 [] c)
                 = Some [1%nat]) by run.
  rewrite E in Hrun. simpl in Hrun. injection Hrun as Hpv. subst pv.
  exists score, c'. split; [exact E |].
  assert (Hdepth : 0 < 1) by lia.
  exact (root_pv_starts_with_a_searchMove kernelFuel WHITE (- INF) INF 1 0 []
           c score 1%nat [] c' Hdepth E).
Defined.

End Runs.
